(** * fix_colors.py: the colour-conversion rewriting script of RustIRC

    The script reads every Rust file of the GUI components directory,
    pushes its text through a fixed sequence of [re.sub] calls and writes
    the file back when the text changed.  This development embeds

    - the fragment of Python's [re] module the script uses (literal
      characters, escaped punctuation, a capturing group around a repeated
      character class, numbered group references in templates), as a
      backtracking matcher and a left-to-right substitution loop;
    - [fix_color_conversions] and [main], over a small model of the file
      system with exceptions;

    and proves the properties the specification states about them.

    A buffer is the list of code units of the decoded file.  Every pattern of
    the script is ASCII, so the same development reads as one over the UTF-8
    bytes of the file. *)

From Stdlib Require Import List Ascii String Arith Lia Bool.
From Stdlib Require Import Decimal DecimalString.
From stdpp Require Import base option list gmap strings.
Import ListNotations.

Local Open Scope char_scope.
Local Open Scope list_scope.

(* ===================================================================== *)
(** ** Text *)
(* ===================================================================== *)

Definition text := list ascii.

(** A Python string literal, as a buffer. *)
Definition txt (s : string) : text := list_ascii_of_string s.

(* ===================================================================== *)
(** ** The regular expressions of the script *)
(* ===================================================================== *)

(** A character class [[a-zA-Z_]] is a list of inclusive ranges. *)
Definition char_class := list (ascii * ascii).

Definition in_range (r : ascii * ascii) (c : ascii) : bool :=
  Nat.leb (nat_of_ascii (fst r)) (nat_of_ascii c) && Nat.leb (nat_of_ascii c) (nat_of_ascii (snd r)).

Definition in_class (cls : char_class) (c : ascii) : bool :=
  existsb (fun r => in_range r c) cls.

(** The atoms that occur in the script's patterns: one character (plain or
    backslash-escaped) and a capturing group around a class repeated one or
    more times, [([...]+)]. *)
Inductive atom :=
| Chr (c : ascii)
| Plus (cls : char_class).

Definition regex := list atom.

(** Replacement templates: literal characters and group references [\1]. *)
Inductive titem :=
| TChr (c : ascii)
| TGroup (n : nat).

Definition template := list titem.

(** *** Reading a pattern *)

Definition is_meta (c : ascii) : bool :=
  existsb (Ascii.eqb c) (txt ".^$*+?{}[]\|()").

Definition is_alnum (c : ascii) : bool :=
  in_class [("a", "z"); ("A", "Z"); ("0", "9")] c.

(** The body of a class, after the opening bracket, up to the closing one. *)
Fixpoint parse_class (s : text) : option (char_class * text) :=
  match s with
  | [] => None
  | "]" :: s' => Some ([], s')
  | "\" :: _ => None
  | lo :: "-" :: hi :: s' =>
      if Ascii.eqb hi "]" then
        Some ([(lo, lo); ("-", "-")], s')
      else
        match parse_class s' with
        | Some (cls, rest) => Some ((lo, hi) :: cls, rest)
        | None => None
        end
  | c :: s' =>
      match parse_class s' with
      | Some (cls, rest) => Some ((c, c) :: cls, rest)
      | None => None
      end
  end.

(** [None] stands for a pattern outside the fragment (or one [re.compile]
    rejects). *)
Fixpoint parse_regex (fuel : nat) (s : text) : option regex :=
  match fuel with
  | O => None
  | S fuel' =>
      match s with
      | [] => Some []
      | "\" :: c :: s' =>
          if is_alnum c then None
          else match parse_regex fuel' s' with
               | Some p => Some (Chr c :: p)
               | None => None
               end
      | "(" :: "[" :: s' =>
          match parse_class s' with
          | Some (cls, "+" :: ")" :: s'') =>
              match cls, parse_regex fuel' s'' with
              | _ :: _, Some p => Some (Plus cls :: p)
              | _, _ => None
              end
          | _ => None
          end
      | c :: s' =>
          if is_meta c then None
          else match parse_regex fuel' s' with
               | Some p => Some (Chr c :: p)
               | None => None
               end
      end
  end.

Definition re_compile (pattern : string) : option regex :=
  parse_regex (S (String.length pattern)) (txt pattern).

Definition digit_value (c : ascii) : option nat :=
  if in_class [("1", "9")] c then Some (nat_of_ascii c - 48) else None.

Fixpoint parse_template (s : text) : option template :=
  match s with
  | [] => Some []
  | "\" :: d :: s' =>
      match digit_value d, parse_template s' with
      | Some n, Some tm => Some (TGroup n :: tm)
      | _, _ => None
      end
  | "\" :: [] => None
  | c :: s' =>
      match parse_template s' with
      | Some tm => Some (TChr c :: tm)
      | None => None
      end
  end.

(** *** Matching at a position *)

Definition captures := list text.

(** [X+], greedy: one character of the class, then as many more as possible,
    giving characters back one at a time when what follows fails. *)
Fixpoint greedy (cls : char_class) (k : text -> text -> option (captures * text))
    (acc t : text) : option (captures * text) :=
  match t with
  | [] => None
  | a :: t' =>
      if in_class cls a then
        match greedy cls k (acc ++ [a]) t' with
        | Some r => Some r
        | None => k (acc ++ [a]) t'
        end
      else None
  end.

(** The match of [p] at the head of [t]: the groups and the text after the
    match. *)
Fixpoint match_here (p : regex) (caps : captures) (t : text) : option (captures * text) :=
  match p with
  | [] => Some (caps, t)
  | Chr c :: p' =>
      match t with
      | a :: t' => if Ascii.eqb a c then match_here p' caps t' else None
      | [] => None
      end
  | Plus cls :: p' =>
      greedy cls (fun cap r => match_here p' (caps ++ [cap]) r) [] t
  end.

Definition re_match (p : regex) (t : text) : option (captures * text) :=
  match_here p [] t.

(** *** Substitution *)

Definition expand_item (caps : captures) (i : titem) : text :=
  match i with
  | TChr c => [c]
  | TGroup n => nth (n - 1) caps []
  end.

Definition expand (tm : template) (caps : captures) : text :=
  flat_map (expand_item caps) tm.

(** [re.sub]: scan left to right; at a match emit the expanded template and
    go on after the match, otherwise copy one character.  An empty match is
    replaced and the scan moves one character on. *)
Fixpoint sub_loop (fuel : nat) (p : regex) (tm : template) (t : text) : text :=
  match fuel with
  | O => t
  | S fuel' =>
      match re_match p t with
      | Some (caps, rest) =>
          expand tm caps ++
          (if Nat.ltb (length rest) (length t) then sub_loop fuel' p tm rest
           else match t with
                | [] => []
                | a :: t' => a :: sub_loop fuel' p tm t'
                end)
      | None =>
          match t with
          | [] => []
          | a :: t' => a :: sub_loop fuel' p tm t'
          end
      end
  end.

Definition sub (p : regex) (tm : template) (t : text) : text :=
  sub_loop (S (length t)) p tm t.

(** [re.sub(pattern, repl, content)]; [None] when the pattern or the
    template does not compile. *)
Definition re_sub (pattern repl : string) (content : text) : option text :=
  match re_compile pattern, parse_template (txt repl) with
  | Some p, Some tm => Some (sub p tm content)
  | _, _ => None
  end.

(* ===================================================================== *)
(** ** The rule engine of [fix_color_conversions] *)
(* ===================================================================== *)

Definition pattern1 : string := "self\.theme\.scheme\.([a-zA-Z_]+)\.into\(\)".
Definition replacement1 : string := "iced::Color::from(self.theme.scheme.\1)".

Definition pattern2 : string := "theme\.scheme\.([a-zA-Z_]+)\.into\(\)".
Definition replacement2 : string := "iced::Color::from(theme.scheme.\1)".

Definition pattern3 : string :=
  "self\.theme\.scheme\.([a-zA-Z_]+)\.scale_alpha\(([0-9.]+)\)\.into\(\)".
Definition replacement3 : string :=
  "iced::Color::from(self.theme.scheme.\1.scale_alpha(\2))".

Definition pattern4 : string :=
  "theme\.scheme\.([a-zA-Z_]+)\.scale_alpha\(([0-9.]+)\)\.into\(\)".
Definition replacement4 : string :=
  "iced::Color::from(theme.scheme.\1.scale_alpha(\2))".

Definition color_vars : list string :=
  ["background_color"; "border_color"; "text_color"; "surface_color"; "counter_color"]%string.

(** [rf'{var}\.into\(\)'] and [f'iced::Color::from({var})']. *)
Definition pattern5 (var : string) : string := (var +:+ "\.into\(\)")%string.
Definition replacement5 (var : string) : string := ("iced::Color::from(" +:+ var +:+ ")")%string.

(** The [for var in color_vars] loop. *)
Fixpoint color_vars_loop (vars : list string) (content : text) : option text :=
  match vars with
  | [] => Some content
  | var :: vars' =>
      content ← re_sub (pattern5 var) (replacement5 var) content;
      color_vars_loop vars' content
  end.

(** The body of [fix_color_conversions] between the read and the
    comparison with [original_content]. *)
Definition fix_content (content : text) : option text :=
  content ← re_sub pattern1 replacement1 content;
  content ← re_sub pattern2 replacement2 content;
  content ← re_sub pattern3 replacement3 content;
  content ← re_sub pattern4 replacement4 content;
  color_vars_loop color_vars content.

(** *** The rules as syntax trees

    What the pattern and replacement strings above compile to (see
    [fix_content_eq]); they are also the five rules as the specification
    lists them. *)

Definition ident_class : char_class := [("a", "z"); ("A", "Z"); ("_", "_")].
Definition num_class : char_class := [("0", "9"); (".", ".")].

Definition lit (s : string) : regex := map Chr (txt s).
Definition tlit (s : string) : template := map TChr (txt s).

Definition re1 : regex :=
  lit "self.theme.scheme." ++ [Plus ident_class] ++ lit ".into()".
Definition re2 : regex :=
  lit "theme.scheme." ++ [Plus ident_class] ++ lit ".into()".
Definition re3 : regex :=
  lit "self.theme.scheme." ++ [Plus ident_class] ++ lit ".scale_alpha("
    ++ [Plus num_class] ++ lit ").into()".
Definition re4 : regex :=
  lit "theme.scheme." ++ [Plus ident_class] ++ lit ".scale_alpha("
    ++ [Plus num_class] ++ lit ").into()".
Definition re5 (var : string) : regex := lit (var +:+ ".into()").

Definition tm1 : template :=
  tlit "iced::Color::from(self.theme.scheme." ++ [TGroup 1] ++ tlit ")".
Definition tm2 : template :=
  tlit "iced::Color::from(theme.scheme." ++ [TGroup 1] ++ tlit ")".
Definition tm3 : template :=
  tlit "iced::Color::from(self.theme.scheme." ++ [TGroup 1] ++ tlit ".scale_alpha("
    ++ [TGroup 2] ++ tlit "))".
Definition tm4 : template :=
  tlit "iced::Color::from(theme.scheme." ++ [TGroup 1] ++ tlit ".scale_alpha("
    ++ [TGroup 2] ++ tlit "))".
Definition tm5 (var : string) : template := tlit ("iced::Color::from(" +:+ var +:+ ")").

Definition rule : Type := regex * template.

Definition rules5 : list rule := map (fun var => (re5 var, tm5 var)) color_vars.

(** The nine passes, in the order the script runs them. *)
Definition rules : list rule :=
  [(re1, tm1); (re2, tm2); (re3, tm3); (re4, tm4)] ++ rules5.

Definition apply_rule (buf : text) (r : rule) : text := sub (fst r) (snd r) buf.

Definition run_rules (rs : list rule) (t : text) : text := fold_left apply_rule rs t.

Definition rule_engine (t : text) : text := run_rules rules t.

(** The value of [content] after the first two substitutions, when rules 3
    and 4 are about to run. *)
Definition content_after_rule2 (content : text) : option text :=
  content ← re_sub pattern1 replacement1 content;
  re_sub pattern2 replacement2 content.

(** The pattern and replacement strings the script passes to [re.sub]. *)
Definition all_patterns : list string :=
  [pattern1; pattern2; pattern3; pattern4] ++ map pattern5 color_vars.

Definition all_replacements : list string :=
  [replacement1; replacement2; replacement3; replacement4] ++ map replacement5 color_vars.

Fixpoint starts_with (needle t : text) : bool :=
  match needle, t with
  | [], _ => true
  | c :: needle', a :: t' => Ascii.eqb a c && starts_with needle' t'
  | _ :: _, [] => false
  end.

(** [needle in t]. *)
Fixpoint contains (needle t : text) : bool :=
  starts_with needle t ||
  match t with
  | [] => false
  | _ :: t' => contains needle t'
  end.

(* ===================================================================== *)
(** ** Files, exceptions and the two functions of the script *)
(* ===================================================================== *)

(** What the script can raise: [open] fails on a path that is missing or
    not permitted, [read] on bytes that are not UTF-8, [print] on a line
    that the output stream cannot encode, [re.sub] on a pattern that does
    not compile. *)
Inductive exn :=
| OSError (path : string)
| UnicodeDecodeError (path : string)
| UnicodeEncodeError (line : string)
| ReError.

(** A file: its permissions and its decoded text ([None] when the bytes are
    not valid UTF-8). *)
Record file := File { readable : bool; writable : bool; data : option text }.

(** The file system, what [glob.glob] answers for the components directory
    (in the order the operating system gives), the lines printed so far and
    the paths written so far, one entry per write.

    [files] holds each file once, under one path of its own.  [links] holds
    every other path that leads to a file: a symbolic link, followed to its
    end, or a further hard link, with the path under which [files] holds
    (or, for a dangling link, would hold) that file. *)
Record world := World {
  links : gmap string string;
  files : gmap string file;
  globbed : list string;
  stdout : list string;
  written : list string
}.

(** The file that [open(path)] opens. *)
Definition target (w : world) (path : string) : string :=
  default path (links w !! path).

Definition IO (A : Type) : Type := world -> (exn + A) * world.

Definition ret {A} (a : A) : IO A := fun w => (inr a, w).
Definition raise {A} (e : exn) : IO A := fun w => (inl e, w).

(** An exception ends the computation: nothing in the script catches it. *)
Definition bind {A B} (m : IO A) (k : A -> IO B) : IO B :=
  fun w =>
    match m w with
    | (inl e, w') => (inl e, w')
    | (inr a, w') => k a w'
    end.

Notation "'let*' x := m 'in' k" := (bind m (fun x => k))
  (at level 10, x name, m at level 100, k at level 200).
Notation "'do*' m 'in' k" := (bind m (fun _ => k))
  (at level 10, m at level 100, k at level 200).

(** [with open(file_path, 'r', encoding='utf-8') as f: content = f.read()] *)
Definition read_text (file_path : string) : IO text :=
  fun w =>
    match files w !! target w file_path with
    | None => (inl (OSError file_path), w)
    | Some f =>
        if readable f then
          match data f with
          | Some content => (inr content, w)
          | None => (inl (UnicodeDecodeError file_path), w)
          end
        else (inl (OSError file_path), w)
    end.

(** [with open(file_path, 'w', encoding='utf-8') as f: f.write(content)]:
    the file the path leads to is replaced by [content] as a whole, and
    created when it does not exist. *)
Definition write_text (file_path : string) (content : text) : IO unit :=
  fun w =>
    match files w !! target w file_path with
    | Some f =>
        if writable f then
          (inr tt,
           World (links w)
                 (<[target w file_path := File (readable f) true (Some content)]> (files w))
                 (globbed w) (stdout w) (written w ++ [file_path]))
        else (inl (OSError file_path), w)
    | None =>
        (inr tt,
         World (links w)
               (<[target w file_path := File true true (Some content)]> (files w))
               (globbed w) (stdout w) (written w ++ [file_path]))
    end.

(** The bytes that may follow a first byte of a UTF-8 sequence, as
    inclusive ranges; [None] for a byte that starts no sequence. *)
Definition utf8_lead (n : nat) : option (list (nat * nat)) :=
  if Nat.ltb n 128 then Some []
  else if Nat.leb 194 n && Nat.leb n 223 then Some [(128, 191)]
  else if Nat.eqb n 224 then Some [(160, 191); (128, 191)]
  else if Nat.leb 225 n && Nat.leb n 236 then Some [(128, 191); (128, 191)]
  else if Nat.eqb n 237 then Some [(128, 159); (128, 191)]
  else if Nat.leb 238 n && Nat.leb n 239 then Some [(128, 191); (128, 191)]
  else if Nat.eqb n 240 then Some [(144, 191); (128, 191); (128, 191)]
  else if Nat.leb 241 n && Nat.leb n 243 then Some [(128, 191); (128, 191); (128, 191)]
  else if Nat.eqb n 244 then Some [(128, 143); (128, 191); (128, 191)]
  else None.

(** The bytes are well-formed UTF-8, [pending] being the ranges of the
    bytes that the sequence begun still needs. *)
Fixpoint utf8_valid (pending : list (nat * nat)) (bs : text) : bool :=
  match bs with
  | [] => match pending with [] => true | _ :: _ => false end
  | b :: bs' =>
      match pending with
      | (lo, hi) :: pending' =>
          Nat.leb lo (nat_of_ascii b) && Nat.leb (nat_of_ascii b) hi
          && utf8_valid pending' bs'
      | [] =>
          match utf8_lead (nat_of_ascii b) with
          | Some pending' => utf8_valid pending' bs'
          | None => false
          end
      end
  end.

(** A string is the bytes of a file name or of a literal of the script.
    Bytes of a file name that are not UTF-8 reach the script as lone
    surrogates, which [sys.stdout], a UTF-8 stream with the [strict] error
    handler, refuses to encode. *)
Definition printable (line : string) : bool := utf8_valid [] (txt line).

(** [print(line)]: the line is encoded before anything is written. *)
Definition print (line : string) : IO unit :=
  fun w =>
    if printable line then
      (inr tt, World (links w) (files w) (globbed w) (stdout w ++ [line]) (written w))
    else (inl (UnicodeEncodeError line), w).

(** [glob.glob('.../components/**/*.rs', recursive=True)] *)
Definition glob_glob : IO (list string) := fun w => (inr (globbed w), w).

Definition lift_re {A} (o : option A) : IO A :=
  match o with
  | Some a => ret a
  | None => raise ReError
  end.

Definition fix_color_conversions (file_path : string) : IO bool :=
  let* content := read_text file_path in
  let original_content := content in
  let* content := lift_re (fix_content content) in
  if bool_decide (content <> original_content) then
    do* write_text file_path content in
    do* print ("Fixed color conversions in " +:+ file_path) in
    ret true
  else
    ret false.

Definition show_nat (n : nat) : string := NilEmpty.string_of_uint (Nat.to_uint n).

(** The [for file_path in component_files] loop, with its counter. *)
Fixpoint main_loop (component_files : list string) (files_modified : nat) : IO nat :=
  match component_files with
  | [] => ret files_modified
  | file_path :: component_files' =>
      let* modified := fix_color_conversions file_path in
      main_loop component_files' (if modified then files_modified + 1 else files_modified)
  end.

Definition main : IO unit :=
  let* component_files := glob_glob in
  let* files_modified := main_loop component_files 0 in
  print ("Modified " +:+ show_nat files_modified +:+ " files").

(** The line printed for a rewritten file. *)
Definition fixed_line (path : string) : string :=
  ("Fixed color conversions in " +:+ path)%string.

(** The world after the file that [path] leads to, held as [f], was
    overwritten with [content], before the line for it is printed. *)
Definition unreported (w : world) (path : string) (f : file) (content : text) : world :=
  World (links w)
        (<[target w path := File (readable f) true (Some content)]> (files w))
        (globbed w) (stdout w) (written w ++ [path]).

(** The world after the file was overwritten and reported. *)
Definition overwritten (w : world) (path : string) (f : file) (content : text) : world :=
  World (links w)
        (<[target w path := File (readable f) true (Some content)]> (files w))
        (globbed w) (stdout w ++ [fixed_line path]) (written w ++ [path]).




(** A file that reads and that the rule engine does not change. *)
Definition settled (w : world) (path : string) : Prop :=
  exists f content,
    files w !! target w path = Some f /\ readable f = true /\
    data f = Some content /\ rule_engine content = content.

(** A file on which [fix_color_conversions] raises [e] before it writes. *)
Inductive fails (w : world) (path : string) : exn -> Prop :=
| fails_missing :
    files w !! target w path = None -> fails w path (OSError path)
| fails_unreadable f :
    files w !! target w path = Some f -> readable f = false -> fails w path (OSError path)
| fails_undecodable f :
    files w !! target w path = Some f -> readable f = true -> data f = None ->
    fails w path (UnicodeDecodeError path)
| fails_unwritable f content :
    files w !! target w path = Some f -> readable f = true -> data f = Some content ->
    rule_engine content <> content -> writable f = false ->
    fails w path (OSError path).


(** A small components directory: one file with a call site, one file
    without, one file that cannot be read, one more with a call site. *)
Definition sample_files : gmap string file :=
  <["a.rs"%string := File true true (Some (txt "x = border_color.into();"))]>
  (<["b.rs"%string := File true true (Some (txt "fn main() {}"))]>
  (<["c.rs"%string := File false true (Some (txt "text_color.into()"))]>
  (<["d.rs"%string := File true true (Some (txt "y = text_color.into();"))]> ∅))).


Definition sample_world_unreadable : world :=
  World ∅ sample_files ["a.rs"; "c.rs"; "d.rs"]%string [] [].

(** The same directory reached through links: [l.rs] is a link to a file
    outside the directory, [m.rs] a second name of [a.rs]. *)
Definition sample_world_linked : world :=
  World (<["l.rs"%string := "../notes.txt"%string]> (<["m.rs"%string := "a.rs"%string]> ∅))
        (<["../notes.txt"%string := File true true (Some (txt "text_color.into()"))]>
           sample_files)
        ["a.rs"; "l.rs"; "m.rs"]%string [] [].

(** A file whose name is not UTF-8: its first byte is 255. *)
Definition sample_world_unprintable : world :=
  World ∅
        (<[String (ascii_of_nat 255) ".rs" := File true true (Some (txt "text_color.into()"))]>
           sample_files)
        [String (ascii_of_nat 255) ".rs"; "a.rs"%string] [] [].

(* ===================================================================== *)
(** ** What a pattern matches *)
(* ===================================================================== *)

(** The longest prefix of [t] inside a class, and the rest. *)
Fixpoint span (f : ascii -> bool) (t : text) : text * text :=
  match t with
  | [] => ([], [])
  | a :: t' =>
      if f a then (a :: fst (span f t'), snd (span f t')) else ([], t)
  end.

(** [lang p M caps]: the text [M] is a match of [p] with groups [caps]. *)
Fixpoint lang (p : regex) (M : text) (caps : captures) : Prop :=
  match p with
  | [] => M = [] /\ caps = []
  | Chr c :: p' => exists M', M = c :: M' /\ lang p' M' caps
  | Plus cls :: p' =>
      exists n M' caps',
        n <> [] /\ forallb (in_class cls) n = true /\
        M = n ++ M' /\ caps = n :: caps' /\ lang p' M' caps'
  end.

(** Every repeated class is followed by a literal character outside the
    class: the greedy repetition then never has to give a character back,
    and a match does not depend on the text after it. *)
Fixpoint guarded (p : regex) : bool :=
  match p with
  | [] => true
  | Chr _ :: p' => guarded p'
  | Plus cls :: p' =>
      match p' with
      | Chr c :: _ => negb (in_class cls c) && guarded p'
      | _ => false
      end
  end.

(** Patterns with at least one atom: every atom takes a character, so they
    have no empty match. *)
Definition proper (p : regex) : bool :=
  match p with
  | [] => false
  | _ :: _ => true
  end.

(** *** Global find-and-replace, as the specification words it *)

(** One rule as "a pure global find-and-replace over the current buffer":
    going left to right, a position where the pattern matches has the match
    replaced by the template with the groups put in, and the scan goes on
    after the match; a position where it does not match keeps its
    character. *)
Inductive global_replace (p : regex) (tm : template) : text -> text -> Prop :=
| gr_end : global_replace p tm [] []
| gr_keep a t out :
    (forall M caps rest, lang p M caps -> a :: t <> M ++ rest) ->
    global_replace p tm t out ->
    global_replace p tm (a :: t) (a :: out)
| gr_replace M caps rest out :
    lang p M caps ->
    global_replace p tm rest out ->
    global_replace p tm (M ++ rest) (expand tm caps ++ out).

(** Rule 5: one pass for each of the hardcoded names, in the order of the
    list. *)
Inductive rule5_passes : list string -> text -> text -> Prop :=
| r5_done t : rule5_passes [] t t
| r5_pass var vars t t1 out :
    global_replace (re5 var) (tm5 var) t t1 ->
    rule5_passes vars t1 out ->
    rule5_passes (var :: vars) t out.

(** The five rules in the order 1 to 5, each on the whole output of the
    one before. *)
Definition five_passes (t out : text) : Prop :=
  exists b1 b2 b3 b4,
    global_replace re1 tm1 t b1 /\
    global_replace re2 tm2 b1 b2 /\
    global_replace re3 tm3 b2 b3 /\
    global_replace re4 tm4 b3 b4 /\
    rule5_passes color_vars b4 out.

(** The numeric argument as the specification words it: digits with an
    optional decimal point. *)
Definition is_digit (c : ascii) : bool := in_class [("0", "9")] c.

Definition digits_with_optional_point (s : text) : bool :=
  forallb (fun c => is_digit c || Ascii.eqb c ".") s &&
  existsb is_digit s &&
  Nat.leb (length (filter (fun c => Ascii.eqb c "." = true) s)) 1.

(** *** Blocks of text a pattern cannot reach into *)

(** No match of [p] starts before the text [Y] and ends inside it. *)
Definition no_cross (p : regex) (Y : text) : Prop :=
  forall A M caps rest,
    A <> [] -> lang p M caps -> A ++ Y = M ++ rest -> length M <= length A.

(** No match of [p] starts inside the block [X], whatever follows it. *)
Definition no_inner (p : regex) (X : text) : Prop :=
  forall X1 X2 B M caps rest,
    X = X1 ++ X2 -> X2 <> [] -> lang p M caps -> X2 ++ B = M ++ rest -> False.

(** A block no match of [p] overlaps, in any context. *)
Definition inert (p : regex) (X : text) : Prop :=
  (forall B, no_cross p (X ++ B)) /\ no_inner p X.

(** [t] contains a match of [p]. *)
Definition has_match (p : regex) (t : text) : Prop :=
  exists A M caps B, lang p M caps /\ t = A ++ M ++ B.

(** *** Shapes of matches and of replacements *)

Definition is_ident (c : ascii) : bool := in_class ident_class c.
Definition is_num (c : ascii) : bool := in_class num_class c.
Definition is_paren (c : ascii) : bool := Ascii.eqb c "(" || Ascii.eqb c ")".
Definition not_colon (c : ascii) : bool := negb (Ascii.eqb c ":").
Definition not_close (c : ascii) : bool := negb (Ascii.eqb c ")").

Definition all_ascii : list ascii := map ascii_of_nat (seq 0 256).

(** Every pair of neighbours in [prev :: t] passes [f]. *)
Fixpoint adj (f : ascii -> ascii -> bool) (prev : ascii) (t : text) : bool :=
  match t with
  | [] => true
  | c :: t' => f prev c && adj f c t'
  end.

(** A closing parenthesis comes after a character of the numeric class. *)
Definition close_after_num (a b : ascii) : bool := not_close b || is_num a.

(** The two characters are not an empty argument list [()]. *)
Definition not_call (a b : ascii) : bool := negb (Ascii.eqb a "(" && Ascii.eqb b ")").

Definition ends_call (t : text) : bool :=
  match rev t with
  | ")" :: "(" :: _ => true
  | _ => false
  end.

(** What all matches of the script's patterns share: no colon, an empty
    argument list at the end, and before it a closing parenthesis only
    after a number. *)
Definition match_shape (M : text) : bool :=
  forallb not_colon M && ends_call M && adj close_after_num "x" (removelast M).

(** What all replacements share: a colon, no empty argument list, and at
    the end a closing parenthesis that does not follow a number. *)
Definition repl_shape (R : text) : bool :=
  negb (forallb not_colon R) && adj not_call "x" R &&
  match R with ")" :: _ => false | _ => true end &&
  match rev R with ")" :: c :: _ => negb (is_num c) | _ => false end.

Definition no_paren (c : ascii) : bool := negb (is_paren c).
Definition not_dot (c : ascii) : bool := negb (Ascii.eqb c ".").

(** Characters of a name: letters, digits and the underscore. *)
Definition is_word (c : ascii) : bool :=
  in_class [("a", "z"); ("A", "Z"); ("0", "9"); ("_", "_")] c.

Definition not_backslash (c : ascii) : bool := negb (Ascii.eqb c "\").

(** [t] ends with [s]. *)
Definition ends_with (s t : text) : bool := starts_with (rev s) (rev t).

(** The text before an occurrence ends with [theme.scheme.] and the start of
    a name: what follows is then the end of a longer theme colour access. *)
Definition scheme_qualified (pre : text) : bool :=
  ends_with (txt "theme.scheme.") (rev (snd (span is_ident (rev pre)))).

(** No match of [p] starts inside [A] and ends inside the text [Y] that
    follows it. *)
Definition no_cross_from (p : regex) (A Y : text) : Prop :=
  forall A1 A2 M caps rest,
    A = A1 ++ A2 -> A2 <> [] -> lang p M caps -> A2 ++ Y = M ++ rest ->
    length M <= length A2.

(** What the proofs below need of a rule. *)
Definition rule_ok (r : rule) : Prop :=
  guarded (fst r) = true /\ proper (fst r) = true /\
  forall M caps, lang (fst r) M caps ->
    match_shape M = true /\ repl_shape (expand (snd r) caps) = true.

(* ===================================================================== *)
(** ** The script's patterns compile to the rules above *)
(* ===================================================================== *)

Lemma re_sub_compiled pat repl p tm t :
  re_compile pat = Some p ->
  parse_template (txt repl) = Some tm ->
  re_sub pat repl t = Some (sub p tm t).
Proof. intros H1 H2; unfold re_sub; rewrite H1, H2; reflexivity. Qed.

Lemma color_vars_loop_eq vars t :
  Forall (fun var => re_compile (pattern5 var) = Some (re5 var) /\
                     parse_template (txt (replacement5 var)) = Some (tm5 var)) vars ->
  color_vars_loop vars t
  = Some (run_rules (map (fun var => (re5 var, tm5 var)) vars) t).
Proof.
  intros Hall; revert t; induction Hall as [| v vars [Hc Ht] _ IH]; intros t.
  - reflexivity.
  - cbn [color_vars_loop map run_rules fold_left].
    rewrite (re_sub_compiled _ _ _ _ t Hc Ht).
    cbv beta iota delta [mbind option_bind].
    exact (IH _).
Qed.

Lemma compile_rules5 :
  Forall (fun var => re_compile (pattern5 var) = Some (re5 var) /\
                     parse_template (txt (replacement5 var)) = Some (tm5 var)) color_vars.
Proof.
  unfold color_vars.
  repeat (apply Forall_cons_2; [split; vm_compute; reflexivity |]).
  apply Forall_nil_2.
Qed.

(** The script never raises in the rule engine: it is the composition of the
    nine passes. *)
Lemma fix_content_eq t : fix_content t = Some (rule_engine t).
Proof.
  unfold fix_content.
  rewrite (re_sub_compiled pattern1 replacement1 re1 tm1) by (vm_compute; reflexivity).
  cbv beta iota delta [mbind option_bind].
  rewrite (re_sub_compiled pattern2 replacement2 re2 tm2) by (vm_compute; reflexivity).
  cbv beta iota delta [mbind option_bind].
  rewrite (re_sub_compiled pattern3 replacement3 re3 tm3) by (vm_compute; reflexivity).
  cbv beta iota delta [mbind option_bind].
  rewrite (re_sub_compiled pattern4 replacement4 re4 tm4) by (vm_compute; reflexivity).
  cbv beta iota delta [mbind option_bind].
  rewrite (color_vars_loop_eq color_vars _ compile_rules5).
  unfold rule_engine, rules, rules5, run_rules.
  rewrite fold_left_app; reflexivity.
Qed.

(* ===================================================================== *)
(** ** The matcher and the language of a pattern *)
(* ===================================================================== *)

Lemma span_app f t : fst (span f t) ++ snd (span f t) = t.
Proof.
  induction t as [| a t IH]; simpl; [reflexivity |].
  destruct (f a); simpl; [rewrite IH |]; reflexivity.
Qed.

Lemma span_forallb f t : forallb f (fst (span f t)) = true.
Proof.
  induction t as [| a t IH]; simpl; [reflexivity |].
  destruct (f a) eqn:E; simpl; [rewrite E, IH |]; reflexivity.
Qed.

Lemma span_stop f n c r :
  forallb f n = true -> f c = false -> span f (n ++ c :: r) = (n, c :: r).
Proof.
  induction n as [| a n IH]; simpl; intros Hn Hc.
  - rewrite Hc; reflexivity.
  - apply andb_true_iff in Hn as [Ha Hn]. rewrite Ha, (IH Hn Hc); reflexivity.
Qed.

(** When the continuation fails on every text that starts inside the class,
    [greedy] takes the longest run and never backtracks. *)
Lemma greedy_span cls k :
  (forall cap a r, in_class cls a = true -> k cap (a :: r) = None) ->
  forall t acc,
    greedy cls k acc t
    = match fst (span (in_class cls) t) with
      | [] => None
      | _ :: _ => k (acc ++ fst (span (in_class cls) t)) (snd (span (in_class cls) t))
      end.
Proof.
  intros Hk t; induction t as [| a t IH]; intros acc; simpl; [reflexivity |].
  destruct (in_class cls a) eqn:Ha; simpl; [| reflexivity].
  rewrite IH.
  destruct t as [| b t]; simpl; [reflexivity |].
  destruct (in_class cls b) eqn:Hb; simpl; [| reflexivity].
  rewrite <- app_assoc; simpl.
  destruct (k _ _) eqn:Ek; [reflexivity |].
  apply Hk, Hb.
Qed.

Lemma chr_cont_fails cls c p caps :
  in_class cls c = false ->
  forall cap a r, in_class cls a = true ->
    match_here (Chr c :: p) (caps ++ [cap]) (a :: r) = None.
Proof.
  intros Hc cap a r Ha; simpl.
  destruct (Ascii.eqb_spec a c) as [-> | _]; [congruence | reflexivity].
Qed.

Lemma match_here_sound p :
  guarded p = true ->
  forall c0 t caps rest,
    match_here p c0 t = Some (caps, rest) ->
    exists M caps', t = M ++ rest /\ lang p M caps' /\ caps = c0 ++ caps'.
Proof.
  induction p as [| a p IH]; intros Hg c0 t caps rest H.
  - simpl in H; injection H as <- <-.
    exists [], []; rewrite app_nil_r; simpl; auto.
  - destruct a as [c | cls].
    + simpl in H, Hg. destruct t as [| a t]; [discriminate |].
      destruct (Ascii.eqb_spec a c) as [-> | _]; [| discriminate].
      destruct (IH Hg _ _ _ _ H) as (M & caps' & -> & HL & ->).
      exists (c :: M), caps'; simpl; eauto.
    + cbn [guarded] in Hg. destruct p as [| [c | ?] p]; try discriminate.
      apply andb_true_iff in Hg as [Hc Hg]. apply negb_true_iff in Hc.
      cbn [match_here] in H.
      rewrite (greedy_span cls _ (chr_cont_fails cls c p c0 Hc)) in H.
      pose proof (span_app (in_class cls) t) as Happ.
      pose proof (span_forallb (in_class cls) t) as Hall.
      destruct (fst (span (in_class cls) t)) as [| x n] eqn:En; [discriminate |].
      cbn [app] in H.
      destruct (IH Hg _ _ _ _ H) as (M & caps' & Ht & HL & ->).
      exists ((x :: n) ++ M), ((x :: n) :: caps'). split; [| split].
      * rewrite <- Happ, Ht, app_assoc; reflexivity.
      * cbn [lang]. exists (x :: n), M, caps'. repeat split; auto; discriminate.
      * rewrite <- app_assoc; reflexivity.
Qed.

Lemma match_here_complete p :
  guarded p = true ->
  forall c0 M caps rest,
    lang p M caps ->
    match_here p c0 (M ++ rest) = Some (c0 ++ caps, rest).
Proof.
  induction p as [| a p IH]; intros Hg c0 M caps rest HL.
  - destruct HL as [-> ->]; simpl; rewrite app_nil_r; reflexivity.
  - destruct a as [c | cls].
    + destruct HL as (M' & -> & HL); simpl in *.
      rewrite Ascii.eqb_refl; auto.
    + cbn [guarded] in Hg. destruct p as [| [c | ?] p]; try discriminate.
      apply andb_true_iff in Hg as [Hc Hg]. apply negb_true_iff in Hc.
      destruct HL as (n & M' & caps' & Hne & Hall & -> & -> & HL).
      pose proof HL as (M'' & -> & _).
      cbn [match_here].
      rewrite (greedy_span cls _ (chr_cont_fails cls c p c0 Hc)).
      rewrite <- app_assoc; cbn [app].
      rewrite (span_stop _ n c (M'' ++ rest) Hall Hc); cbn [fst snd].
      destruct n as [| x n]; [congruence |].
      change (match_here (Chr c :: p) (c0 ++ [x :: n]) ((c :: M'') ++ rest)
              = Some (c0 ++ (x :: n) :: caps', rest)).
      rewrite (IH Hg _ _ _ rest HL), <- app_assoc; reflexivity.
Qed.

Lemma re_match_sound p t caps rest :
  guarded p = true ->
  re_match p t = Some (caps, rest) ->
  exists M, t = M ++ rest /\ lang p M caps.
Proof.
  intros Hg H. destruct (match_here_sound p Hg _ _ _ _ H) as (M & caps' & -> & HL & ->).
  exists M; auto.
Qed.

Lemma re_match_complete p M caps rest :
  guarded p = true -> lang p M caps -> re_match p (M ++ rest) = Some (caps, rest).
Proof. intros Hg HL. exact (match_here_complete p Hg [] M caps rest HL). Qed.

Lemma lang_nonempty p M caps : proper p = true -> lang p M caps -> M <> [].
Proof.
  destruct p as [| [c | cls] p]; [discriminate | |]; intros _ HL.
  - destruct HL as (M' & -> & _); discriminate.
  - destruct HL as (n & M' & caps' & Hne & _ & -> & _).
    destruct n; [congruence | discriminate].
Qed.

(* ===================================================================== *)
(** ** Equations of the substitution loop *)
(* ===================================================================== *)

Lemma sub_loop_fuel p tm : forall f1 f2 t,
  length t < f1 -> length t < f2 -> sub_loop f1 p tm t = sub_loop f2 p tm t.
Proof.
  induction f1 as [| f1 IH]; intros f2 t H1 H2; [lia |].
  destruct f2 as [| f2]; [lia |]. cbn [sub_loop].
  destruct (re_match p t) as [[caps rest] |].
  - destruct (Nat.ltb_spec (length rest) (length t)).
    + f_equal. apply IH; lia.
    + destruct t as [| a t]; [reflexivity |]. simpl in H1, H2.
      do 2 f_equal. apply IH; lia.
  - destruct t as [| a t]; [reflexivity |]. simpl in H1, H2.
    f_equal. apply IH; lia.
Qed.

Lemma sub_cons_nomatch p tm a t :
  re_match p (a :: t) = None -> sub p tm (a :: t) = a :: sub p tm t.
Proof.
  intros H. unfold sub at 1. cbn [sub_loop]. rewrite H. reflexivity.
Qed.

Lemma sub_hit p tm t caps rest :
  re_match p t = Some (caps, rest) -> length rest < length t ->
  sub p tm t = expand tm caps ++ sub p tm rest.
Proof.
  intros H Hlt. unfold sub at 1. cbn [sub_loop]. rewrite H.
  apply Nat.ltb_lt in Hlt as Hb. rewrite Hb.
  f_equal. apply sub_loop_fuel; lia.
Qed.

Section Guarded.

Variable p : regex.
Variable tm : template.
Hypothesis Hg : guarded p = true.
Hypothesis Hp : proper p = true.

Lemma re_match_nil : re_match p [] = None.
Proof.
  destruct (re_match p []) as [[caps rest] |] eqn:E; [| reflexivity].
  destruct (re_match_sound _ _ _ _ Hg E) as (M & HM & HL).
  symmetry in HM. apply app_eq_nil in HM as [-> _].
  destruct (lang_nonempty _ _ _ Hp HL); reflexivity.
Qed.

Lemma sub_nil : sub p tm [] = [].
Proof. unfold sub; cbn [sub_loop length]. rewrite re_match_nil; reflexivity. Qed.

Lemma sub_match M caps rest :
  lang p M caps -> sub p tm (M ++ rest) = expand tm caps ++ sub p tm rest.
Proof.
  intros HL. apply sub_hit.
  - apply re_match_complete; assumption.
  - pose proof (lang_nonempty _ _ _ Hp HL).
    rewrite length_app. destruct M; [congruence | simpl; lia].
Qed.

(** A text with no match is left as it is. *)
Lemma sub_no_match t : ~ has_match p t -> sub p tm t = t.
Proof.
  induction t as [| a t IH]; intros Hno; [apply sub_nil |].
  rewrite sub_cons_nomatch.
  - f_equal. apply IH. intros (A & M & caps & B & HL & ->).
    apply Hno. exists (a :: A), M, caps, B; auto.
  - destruct (re_match p (a :: t)) as [[caps rest] |] eqn:E; [| reflexivity].
    destruct (re_match_sound _ _ _ _ Hg E) as (M & HM & HL).
    destruct Hno. exists [], M, caps, rest; auto.
Qed.

(** The scan of [A ++ Y] is the scan of [A] followed by the scan of [Y]
    when no match crosses from [A] into [Y]. *)
Lemma sub_app Y : no_cross p Y ->
  forall A, sub p tm (A ++ Y) = sub p tm A ++ sub p tm Y.
Proof.
  intros HY A. remember (length A) as n eqn:Hn.
  revert A Hn; induction n as [n IH] using lt_wf_ind; intros A ->.
  destruct A as [| a A]; [rewrite sub_nil; reflexivity |].
  destruct (re_match p (a :: A)) as [[caps rest] |] eqn:E.
  - destruct (re_match_sound _ _ _ _ Hg E) as (M & HM & HL).
    pose proof (lang_nonempty _ _ _ Hp HL) as HMne.
    rewrite HM, <- app_assoc, !(sub_match _ _ _ HL), <- app_assoc.
    f_equal. apply (IH (length rest)); [| reflexivity].
    rewrite HM, length_app. destruct M; [congruence | simpl; lia].
  - assert (E' : re_match p ((a :: A) ++ Y) = None).
    { destruct (re_match p ((a :: A) ++ Y)) as [[caps rest] |] eqn:E'; [| reflexivity].
      destruct (re_match_sound _ _ _ _ Hg E') as (M & HM & HL).
      assert (Hlen : length M <= length (a :: A))
        by (apply (HY (a :: A) M caps rest); [discriminate | assumption | assumption]).
      assert (HA : a :: A = M ++ drop (length M) (a :: A)).
      { rewrite <- (take_drop (length M) (a :: A)) at 1. f_equal.
        apply (f_equal (take (length M))) in HM.
        rewrite take_app_le, take_app_length in HM by assumption. exact HM. }
      rewrite HA, (re_match_complete _ _ _ _ Hg HL) in E. discriminate. }
    cbn [app] in E' |- *.
    rewrite (sub_cons_nomatch _ _ _ _ E), (sub_cons_nomatch _ _ _ _ E').
    cbn [app]. f_equal. apply (IH (length A)); [simpl; lia | reflexivity].
Qed.

Lemma sub_inert_block X B : no_inner p X -> sub p tm (X ++ B) = X ++ sub p tm B.
Proof.
  intros HX.
  enough (H : forall X2 X1, X = X1 ++ X2 -> sub p tm (X2 ++ B) = X2 ++ sub p tm B)
    by (apply (H X []); reflexivity).
  induction X2 as [| a X2 IH]; intros X1 HX1; [reflexivity |].
  cbn [app]. rewrite sub_cons_nomatch.
  - f_equal. apply (IH (X1 ++ [a])). rewrite <- app_assoc; exact HX1.
  - destruct (re_match p (a :: X2 ++ B)) as [[caps rest] |] eqn:E; [| reflexivity].
    destruct (re_match_sound _ _ _ _ Hg E) as (M & HM & HL).
    destruct (HX X1 (a :: X2) B M caps rest); auto; discriminate.
Qed.

(** An inert block splits the scan in two independent scans. *)
Lemma sub_inert X A B : inert p X ->
  sub p tm (A ++ X ++ B) = sub p tm A ++ X ++ sub p tm B.
Proof.
  intros [Hc Hi]. rewrite (sub_app _ (Hc B)), (sub_inert_block _ _ Hi); reflexivity.
Qed.

(** An occurrence no earlier match reaches into is replaced. *)
Lemma sub_occurrence X caps A B :
  no_cross p (X ++ B) -> lang p X caps ->
  sub p tm (A ++ X ++ B) = sub p tm A ++ expand tm caps ++ sub p tm B.
Proof.
  intros Hc HL. rewrite (sub_app _ Hc), (sub_match _ _ _ HL); reflexivity.
Qed.

End Guarded.

(* ===================================================================== *)
(** ** Characters *)
(* ===================================================================== *)

Lemma ascii_all (P : ascii -> bool) :
  forallb P all_ascii = true -> forall c, P c = true.
Proof.
  intros H c. rewrite forallb_forall in H. apply H.
  rewrite <- (ascii_nat_embedding c). unfold all_ascii.
  apply in_map, in_seq. pose proof (nat_ascii_bounded c). lia.
Qed.

Lemma ident_char c :
  is_ident c = true ->
  is_num c = false /\ is_paren c = false /\ not_colon c = true /\
  not_close c = true /\ c <> ".".
Proof.
  intros H.
  assert (Hb : implb (is_ident c)
                 (negb (is_num c) && negb (is_paren c) && not_colon c
                  && not_close c && negb (Ascii.eqb c ".")) = true).
  { revert c H. intros c _. revert c. apply ascii_all. vm_compute. reflexivity. }
  rewrite H in Hb; simpl in Hb.
  repeat (apply andb_true_iff in Hb as [Hb ?]).
  repeat split; try (apply negb_true_iff; assumption); try assumption.
  intros ->. discriminate.
Qed.

Lemma num_char c :
  is_num c = true ->
  is_ident c = false /\ is_paren c = false /\ not_colon c = true /\
  not_close c = true.
Proof.
  intros H.
  assert (Hb : implb (is_num c)
                 (negb (is_ident c) && negb (is_paren c) && not_colon c
                  && not_close c) = true).
  { revert c H. intros c _. revert c. apply ascii_all. vm_compute. reflexivity. }
  rewrite H in Hb; simpl in Hb.
  repeat (apply andb_true_iff in Hb as [Hb ?]).
  repeat split; try (apply negb_true_iff; assumption); assumption.
Qed.

Lemma forallb_weaken (f g : ascii -> bool) l :
  (forall c, f c = true -> g c = true) -> forallb f l = true -> forallb g l = true.
Proof.
  intros Hfg. rewrite !forallb_forall. auto.
Qed.

(* ===================================================================== *)
(** ** Literal and repeated parts of a pattern *)
(* ===================================================================== *)

Lemma lang_lit_app l p M caps :
  lang (map Chr l ++ p) M caps <-> exists M', M = l ++ M' /\ lang p M' caps.
Proof.
  revert M; induction l as [| c l IH]; intros M; simpl.
  - split; [intros H; exists M; auto | intros (M' & -> & H); exact H].
  - split.
    + intros (M1 & -> & H). apply IH in H as (M' & -> & H). exists M'; auto.
    + intros (M' & -> & H). exists (l ++ M'); split; [reflexivity |].
      apply IH; exists M'; auto.
Qed.

Lemma lang_lit_only l M caps :
  lang (map Chr l) M caps <-> M = l /\ caps = [].
Proof.
  rewrite <- (app_nil_r (map Chr l)), lang_lit_app; simpl. split.
  - intros (M' & -> & -> & ->). rewrite app_nil_r; auto.
  - intros [-> ->]. exists []; rewrite app_nil_r; auto.
Qed.

(** A pattern with one group: [P([cls]+)S]. *)
Lemma lang_one_group P cls S M caps :
  lang (map Chr P ++ [Plus cls] ++ map Chr S) M caps <->
  exists n, n <> [] /\ forallb (in_class cls) n = true /\
            M = P ++ n ++ S /\ caps = [n].
Proof.
  rewrite lang_lit_app; cbn [app lang]. split.
  - intros (M' & -> & n & M2 & caps' & Hne & Hn & -> & -> & H).
    apply lang_lit_only in H as [-> ->]. exists n; auto.
  - intros (n & Hne & Hn & -> & ->). exists (n ++ S); split; [reflexivity |].
    exists n, S, []. repeat split; auto. apply lang_lit_only; auto.
Qed.

(** A pattern with two groups: [P([c1]+)S1([c2]+)S2]. *)
Lemma lang_two_groups P c1 S1 c2 S2 M caps :
  lang (map Chr P ++ [Plus c1] ++ map Chr S1 ++ [Plus c2] ++ map Chr S2) M caps <->
  exists n N, n <> [] /\ forallb (in_class c1) n = true /\
              N <> [] /\ forallb (in_class c2) N = true /\
              M = P ++ n ++ S1 ++ N ++ S2 /\ caps = [n; N].
Proof.
  rewrite lang_lit_app; cbn [app lang]. split.
  - intros (M' & -> & n & M2 & caps' & Hne & Hn & -> & -> & H).
    apply (lang_one_group S1 c2 S2) in H as (N & HNe & HN & -> & ->).
    exists n, N; auto 10.
  - intros (n & N & Hne & Hn & HNe & HN & -> & ->).
    exists (n ++ S1 ++ N ++ S2); split; [reflexivity |].
    exists n, (S1 ++ N ++ S2), [N]. repeat split; auto.
    apply (lang_one_group S1 c2 S2). exists N; auto.
Qed.

(* ===================================================================== *)
(** ** A replacement is out of reach of every pattern *)
(* ===================================================================== *)

Lemma last_default (l : text) a d d' :
  List.last (a :: l) d = List.last (a :: l) d'.
Proof.
  revert a; induction l as [| b l IH]; intros a; [reflexivity |].
  change (List.last (b :: l) d = List.last (b :: l) d'). apply IH.
Qed.

Lemma adj_app f prev x y :
  adj f prev (x ++ y) = adj f prev x && adj f (List.last x prev) y.
Proof.
  revert prev; induction x as [| a x IH]; intros prev; [reflexivity |].
  cbn [app adj]. rewrite IH, andb_assoc. do 2 f_equal.
  destruct x as [| b x]; [reflexivity |].
  change (List.last (b :: x) a = List.last (b :: x) prev). apply last_default.
Qed.

Lemma adj_forall f (g : ascii -> bool) prev t :
  (forall a c, g c = true -> f a c = true) ->
  forallb g t = true -> adj f prev t = true.
Proof.
  intros Hfg; revert prev; induction t as [| c t IH]; intros prev H; [reflexivity |].
  simpl in *. apply andb_true_iff in H as [Hc Ht].
  rewrite (Hfg _ _ Hc), (IH _ Ht); reflexivity.
Qed.

Lemma snoc_cases (l : text) :
  l = [] \/ (exists c, l = [c]) \/ exists l0 x y, l = l0 ++ [x; y].
Proof.
  destruct (rev l) as [| y [| x r]] eqn:E;
    apply (f_equal (@rev ascii)) in E; rewrite rev_involutive in E; simpl in E.
  - left; exact E.
  - right; left; exists y; exact E.
  - right; right; exists (rev r), x, y. rewrite E, <- app_assoc; reflexivity.
Qed.

Lemma ends_call_inv M : ends_call M = true -> exists M0, M = M0 ++ ["("; ")"].
Proof.
  unfold ends_call. destruct (snoc_cases M) as [-> | [[c ->] | (l0 & x & y & ->)]].
  - discriminate.
  - simpl. destruct c as [[] [] [] [] [] [] [] []]; discriminate.
  - rewrite rev_app_distr; simpl.
    destruct (Ascii.eqb_spec y ")") as [-> | Hy].
    + destruct (Ascii.eqb_spec x "(") as [-> | Hx]; [intros _; exists l0; reflexivity |].
      destruct x as [[] [] [] [] [] [] [] []]; try discriminate; congruence.
    + destruct y as [[] [] [] [] [] [] [] []]; try discriminate; congruence.
Qed.

Lemma repl_tail_inv R :
  match rev R with ")" :: c :: _ => negb (is_num c) | _ => false end = true ->
  exists R0 c, R = R0 ++ [c; ")"] /\ is_num c = false.
Proof.
  destruct (snoc_cases R) as [-> | [[c ->] | (l0 & x & y & ->)]].
  - discriminate.
  - simpl. destruct c as [[] [] [] [] [] [] [] []]; discriminate.
  - rewrite rev_app_distr; simpl.
    destruct (Ascii.eqb_spec y ")") as [-> | Hy].
    + intros H. exists l0, x. split; [reflexivity | apply negb_true_iff, H].
    + destruct y as [[] [] [] [] [] [] [] []]; try discriminate; congruence.
Qed.

Lemma snoc2_inj (a b : text) (x y u v : ascii) :
  a ++ [x; y] = b ++ [u; v] -> a = b /\ x = u /\ y = v.
Proof.
  intros H.
  change [x; y] with ([x] ++ [y]) in H. change [u; v] with ([u] ++ [v]) in H.
  rewrite !app_assoc in H. apply app_inj_tail in H as [H ->].
  apply app_inj_tail in H as [-> ->]. auto.
Qed.

Lemma adj_not_call_false prev x y :
  adj not_call prev (x ++ "(" :: ")" :: y) = false.
Proof.
  rewrite adj_app; cbn [adj]. unfold not_call at 2; simpl.
  rewrite !andb_false_r; reflexivity.
Qed.

Section Shapes.

Variable p : regex.
Variable R : text.
Hypothesis Hp : forall M caps, lang p M caps -> match_shape M = true.
Hypothesis HR : repl_shape R = true.

Lemma shapes_no_cross B : no_cross p (R ++ B).
Proof.
  intros A M caps rest HA HL Heq.
  apply Hp in HL. unfold match_shape in HL.
  apply andb_true_iff in HL as [HL _]. apply andb_true_iff in HL as [Hcol Hend].
  unfold repl_shape in HR.
  apply andb_true_iff in HR as [HR' _]. apply andb_true_iff in HR' as [HR' Hhd].
  apply andb_true_iff in HR' as [HRcol HRadj]. apply negb_true_iff in HRcol.
  apply app_eq_app in Heq as [l [[-> _] | [-> Heq]]].
  { rewrite length_app; lia. }
  destruct (snoc_cases l) as [-> | Hl].
  { rewrite app_nil_r; lia. }
  exfalso.
  apply app_eq_app in Heq as [l2 [[-> _] | [-> _]]].
  - (* the match ends inside the replacement *)
    apply ends_call_inv in Hend as [M0 HM0].
    destruct Hl as [[c ->] | (l0 & x & y & ->)].
    + change ["("; ")"] with (["("] ++ [")"]) in HM0.
      rewrite app_assoc in HM0. apply app_inj_tail in HM0 as [_ ->].
      discriminate.
    + rewrite app_assoc in HM0. apply snoc2_inj in HM0 as (_ & -> & ->).
      rewrite <- app_assoc in HRadj. cbn [app] in HRadj.
      rewrite adj_not_call_false in HRadj. discriminate.
  - (* the match contains the replacement *)
    rewrite !forallb_app in Hcol.
    apply andb_true_iff in Hcol as [_ Hcol]. apply andb_true_iff in Hcol as [Hcol _].
    congruence.
Qed.

Lemma shapes_no_inner : no_inner p R.
Proof.
  intros X1 X2 B M caps rest HX HX2 HL Heq.
  apply Hp in HL. unfold match_shape in HL.
  apply andb_true_iff in HL as [HL Hadj]. apply andb_true_iff in HL as [_ Hend].
  unfold repl_shape in HR.
  apply andb_true_iff in HR as [HR' Htl]. apply andb_true_iff in HR' as [HR' _].
  apply andb_true_iff in HR' as [_ HRadj].
  assert (Hin : forall l, X2 = M ++ l -> False).
  { intros l ->. apply ends_call_inv in Hend as [M0 ->].
    rewrite HX, <- !app_assoc in HRadj. cbn [app] in HRadj.
    rewrite app_assoc, adj_not_call_false in HRadj. discriminate. }
  apply app_eq_app in Heq as [l [[-> _] | [-> _]]]; [exact (Hin l eq_refl) |].
  destruct l as [| d l]; [apply (Hin []); rewrite !app_nil_r; reflexivity |].
  apply repl_tail_inv in Htl as (R0 & c & HR0 & Hc).
  rewrite removelast_app in Hadj by discriminate.
  destruct (snoc_cases X2) as [-> | [[e ->] | (x0 & u & v & ->)]]; [congruence | |].
  - rewrite HX in HR0. change [c; ")"] with ([c] ++ [")"]) in HR0.
    rewrite app_assoc in HR0. apply app_inj_tail in HR0 as [_ ->].
    discriminate.
  - rewrite HX, app_assoc in HR0. apply snoc2_inj in HR0 as (_ & -> & ->).
    rewrite <- app_assoc, adj_app in Hadj. cbn [app adj] in Hadj.
    unfold close_after_num at 3 in Hadj. rewrite Hc in Hadj; simpl in Hadj.
    rewrite !andb_false_r in Hadj. discriminate.
Qed.

Lemma shapes_inert : inert p R.
Proof. split; [exact shapes_no_cross | exact shapes_no_inner]. Qed.

End Shapes.

(* ===================================================================== *)
(** ** Shapes of the script's matches and replacements *)
(* ===================================================================== *)

Lemma expand_tlit_app l tm caps :
  expand (map TChr l ++ tm) caps = l ++ expand tm caps.
Proof.
  unfold expand. rewrite flat_map_app. f_equal.
  induction l as [| c l IH]; simpl; [| rewrite IH]; reflexivity.
Qed.

Lemma expand_tlit l caps : expand (map TChr l) caps = l.
Proof.
  rewrite <- (app_nil_r (map TChr l)), expand_tlit_app. apply app_nil_r.
Qed.

Lemma expand_group k tm caps :
  expand ([TGroup k] ++ tm) caps = nth (k - 1) caps [] ++ expand tm caps.
Proof. reflexivity. Qed.

Lemma ident_not_close n :
  forallb is_ident n = true -> forallb not_close n = true.
Proof. apply forallb_weaken. intros c Hc. apply ident_char, Hc. Qed.

Lemma ident_not_colon n :
  forallb is_ident n = true -> forallb not_colon n = true.
Proof. apply forallb_weaken. intros c Hc. apply ident_char, Hc. Qed.

Lemma num_not_close n :
  forallb is_num n = true -> forallb not_close n = true.
Proof. apply forallb_weaken. intros c Hc. apply num_char, Hc. Qed.

Lemma num_not_colon n :
  forallb is_num n = true -> forallb not_colon n = true.
Proof. apply forallb_weaken. intros c Hc. apply num_char, Hc. Qed.

Lemma adj_close_after_num prev t :
  forallb not_close t = true -> adj close_after_num prev t = true.
Proof.
  apply adj_forall. intros a c Hc. unfold close_after_num. rewrite Hc; reflexivity.
Qed.

Lemma adj_not_call prev t :
  forallb not_close t = true -> adj not_call prev t = true.
Proof.
  apply adj_forall. intros a c Hc. unfold not_call, not_close in *.
  apply negb_true_iff in Hc. rewrite Hc, andb_false_r; reflexivity.
Qed.

Lemma nonempty_snoc (l : text) : l <> [] -> exists l0 c, l = l0 ++ [c].
Proof.
  intros H. destruct (exists_last H) as (l0 & c & ->). eauto.
Qed.

Lemma forallb_snoc (f : ascii -> bool) l c :
  forallb f (l ++ [c]) = true -> forallb f l = true /\ f c = true.
Proof.
  rewrite forallb_app; simpl. rewrite andb_true_r. apply andb_true_iff.
Qed.

(** Matches of [P([a-zA-Z_]+).into()]. *)
Lemma one_group_match_shape P n :
  forallb not_colon P = true -> forallb not_close P = true ->
  forallb is_ident n = true ->
  match_shape (P ++ n ++ txt ".into()") = true.
Proof.
  intros HP1 HP2 Hn. unfold match_shape. repeat (apply andb_true_iff; split).
  - rewrite !forallb_app, HP1, (ident_not_colon _ Hn); reflexivity.
  - unfold ends_call. rewrite !app_assoc, rev_app_distr; reflexivity.
  - rewrite !app_assoc, removelast_app by discriminate.
    apply adj_close_after_num.
    rewrite !forallb_app, HP2, (ident_not_close _ Hn); reflexivity.
Qed.

(** Matches of [P([a-zA-Z_]+).scale_alpha(([0-9.]+)).into()]. *)
Lemma two_group_match_shape P n N :
  forallb not_colon P = true -> forallb not_close P = true ->
  forallb is_ident n = true -> N <> [] -> forallb is_num N = true ->
  match_shape (P ++ n ++ txt ".scale_alpha(" ++ N ++ txt ").into()") = true.
Proof.
  intros HP1 HP2 Hn HNe HN. unfold match_shape. repeat (apply andb_true_iff; split).
  - rewrite !forallb_app, HP1, (ident_not_colon _ Hn), (num_not_colon _ HN); reflexivity.
  - unfold ends_call. rewrite !app_assoc, rev_app_distr; reflexivity.
  - rewrite !app_assoc, removelast_app by discriminate.
    destruct (nonempty_snoc N HNe) as (N0 & c & ->).
    apply forallb_snoc in HN as [HN0 Hc].
    rewrite adj_app. apply andb_true_iff; split.
    + apply adj_close_after_num.
      rewrite !forallb_app, HP2, (ident_not_close _ Hn), (num_not_close _ HN0).
      simpl. destruct (num_char c Hc) as (_ & _ & _ & ->). reflexivity.
    + rewrite !app_assoc, last_last. simpl. unfold close_after_num at 1.
      rewrite Hc. reflexivity.
Qed.

(** Replacements that end in [c)] with [c] the last character of a name. *)
Lemma repl_shape_name W c :
  forallb not_colon W = false -> forallb not_close W = true ->
  is_ident c = true ->
  repl_shape (W ++ [c; ")"]) = true.
Proof.
  intros HW1 HW2 Hc. destruct (ident_char c Hc) as (Hnum & Hpar & _ & Hcl & _).
  unfold repl_shape. repeat (apply andb_true_iff; split).
  - rewrite forallb_app, HW1; reflexivity.
  - change [c; ")"] with ([c] ++ [")"]). rewrite app_assoc, adj_app, last_last.
    apply andb_true_iff; split.
    + apply adj_not_call. rewrite forallb_app, HW2; simpl. rewrite Hcl; reflexivity.
    + simpl. unfold not_call. unfold is_paren in Hpar.
      apply orb_false_iff in Hpar as [-> _]. reflexivity.
  - destruct W as [| w W]; [discriminate |]. simpl in HW2 |- *.
    apply andb_true_iff in HW2 as [Hw _].
    destruct (Ascii.eqb_spec w ")") as [-> | Hne]; [discriminate |].
    destruct w as [[] [] [] [] [] [] [] []]; try reflexivity; congruence.
  - rewrite rev_app_distr; simpl. rewrite Hnum; reflexivity.
Qed.

(** Replacements that end in [c))] with [c] the last character of a number. *)
Lemma repl_shape_num W c :
  forallb not_colon W = false -> forallb not_close W = true ->
  is_num c = true ->
  repl_shape (W ++ [c; ")"; ")"]) = true.
Proof.
  intros HW1 HW2 Hc. destruct (num_char c Hc) as (_ & Hpar & _ & Hcl).
  unfold repl_shape. repeat (apply andb_true_iff; split).
  - rewrite forallb_app, HW1; reflexivity.
  - change [c; ")"; ")"] with ([c] ++ [")"; ")"]). rewrite app_assoc, adj_app, last_last.
    apply andb_true_iff; split.
    + apply adj_not_call. rewrite forallb_app, HW2; simpl. rewrite Hcl; reflexivity.
    + simpl. unfold not_call at 1. unfold is_paren in Hpar.
      apply orb_false_iff in Hpar as [-> _]. reflexivity.
  - destruct W as [| w W]; [discriminate |]. simpl in HW2 |- *.
    apply andb_true_iff in HW2 as [Hw _].
    destruct (Ascii.eqb_spec w ")") as [-> | Hne]; [discriminate |].
    destruct w as [[] [] [] [] [] [] [] []]; try reflexivity; congruence.
  - rewrite rev_app_distr; reflexivity.
Qed.

Lemma lang_re1 M caps :
  lang re1 M caps <->
  exists n, n <> [] /\ forallb is_ident n = true /\
            M = txt "self.theme.scheme." ++ n ++ txt ".into()" /\ caps = [n].
Proof. exact (lang_one_group (txt "self.theme.scheme.") ident_class (txt ".into()") M caps). Qed.

Lemma lang_re2 M caps :
  lang re2 M caps <->
  exists n, n <> [] /\ forallb is_ident n = true /\
            M = txt "theme.scheme." ++ n ++ txt ".into()" /\ caps = [n].
Proof. exact (lang_one_group (txt "theme.scheme.") ident_class (txt ".into()") M caps). Qed.

Lemma lang_re3 M caps :
  lang re3 M caps <->
  exists n N, n <> [] /\ forallb is_ident n = true /\
              N <> [] /\ forallb is_num N = true /\
              M = txt "self.theme.scheme." ++ n ++ txt ".scale_alpha(" ++ N ++ txt ").into()" /\
              caps = [n; N].
Proof.
  exact (lang_two_groups (txt "self.theme.scheme.") ident_class (txt ".scale_alpha(")
           num_class (txt ").into()") M caps).
Qed.

Lemma lang_re4 M caps :
  lang re4 M caps <->
  exists n N, n <> [] /\ forallb is_ident n = true /\
              N <> [] /\ forallb is_num N = true /\
              M = txt "theme.scheme." ++ n ++ txt ".scale_alpha(" ++ N ++ txt ").into()" /\
              caps = [n; N].
Proof.
  exact (lang_two_groups (txt "theme.scheme.") ident_class (txt ".scale_alpha(")
           num_class (txt ").into()") M caps).
Qed.

Lemma lang_re5 var M caps :
  lang (re5 var) M caps <-> M = txt (var +:+ ".into()") /\ caps = [].
Proof. apply lang_lit_only. Qed.

Lemma expand_tm1 n :
  expand tm1 [n] = txt "iced::Color::from(self.theme.scheme." ++ n ++ txt ")".
Proof. unfold tm1, tlit. rewrite expand_tlit_app, expand_group, expand_tlit; reflexivity. Qed.

Lemma expand_tm2 n :
  expand tm2 [n] = txt "iced::Color::from(theme.scheme." ++ n ++ txt ")".
Proof. unfold tm2, tlit. rewrite expand_tlit_app, expand_group, expand_tlit; reflexivity. Qed.

Lemma expand_tm3 n N :
  expand tm3 [n; N]
  = txt "iced::Color::from(self.theme.scheme." ++ n ++ txt ".scale_alpha(" ++ N ++ txt "))".
Proof.
  unfold tm3, tlit.
  rewrite expand_tlit_app, expand_group, expand_tlit_app, expand_group, expand_tlit.
  reflexivity.
Qed.

Lemma expand_tm4 n N :
  expand tm4 [n; N]
  = txt "iced::Color::from(theme.scheme." ++ n ++ txt ".scale_alpha(" ++ N ++ txt "))".
Proof.
  unfold tm4, tlit.
  rewrite expand_tlit_app, expand_group, expand_tlit_app, expand_group, expand_tlit.
  reflexivity.
Qed.

Lemma repl_shape_one_group L n :
  forallb not_colon L = false -> forallb not_close L = true ->
  n <> [] -> forallb is_ident n = true ->
  repl_shape (L ++ n ++ txt ")") = true.
Proof.
  intros HL1 HL2 Hne Hn. destruct (nonempty_snoc n Hne) as (n0 & c & ->).
  apply forallb_snoc in Hn as [Hn0 Hc].
  replace (L ++ (n0 ++ [c]) ++ txt ")") with ((L ++ n0) ++ [c; ")"])
    by (rewrite <- !app_assoc; reflexivity).
  apply repl_shape_name; [| | exact Hc].
  - rewrite forallb_app, HL1; reflexivity.
  - rewrite forallb_app, HL2, (ident_not_close _ Hn0); reflexivity.
Qed.

Lemma repl_shape_two_groups L n N :
  forallb not_colon L = false -> forallb not_close L = true ->
  forallb is_ident n = true -> N <> [] -> forallb is_num N = true ->
  repl_shape (L ++ n ++ txt ".scale_alpha(" ++ N ++ txt "))") = true.
Proof.
  intros HL1 HL2 Hn HNe HN. destruct (nonempty_snoc N HNe) as (N0 & c & ->).
  apply forallb_snoc in HN as [HN0 Hc].
  replace (L ++ n ++ txt ".scale_alpha(" ++ (N0 ++ [c]) ++ txt "))")
    with ((L ++ n ++ txt ".scale_alpha(" ++ N0) ++ [c; ")"; ")"])
    by (rewrite <- !app_assoc; reflexivity).
  apply repl_shape_num; [| | exact Hc].
  - rewrite forallb_app, HL1; reflexivity.
  - rewrite !forallb_app, HL2, (ident_not_close _ Hn), (num_not_close _ HN0); reflexivity.
Qed.

Lemma rule1_ok : rule_ok (re1, tm1).
Proof.
  split; [reflexivity | split; [reflexivity |]]. cbn [fst snd]. intros M caps HL.
  apply lang_re1 in HL as (n & Hne & Hn & -> & ->). split.
  - apply one_group_match_shape; auto.
  - rewrite expand_tm1. apply repl_shape_one_group; auto.
Qed.

Lemma rule2_ok : rule_ok (re2, tm2).
Proof.
  split; [reflexivity | split; [reflexivity |]]. cbn [fst snd]. intros M caps HL.
  apply lang_re2 in HL as (n & Hne & Hn & -> & ->). split.
  - apply one_group_match_shape; auto.
  - rewrite expand_tm2. apply repl_shape_one_group; auto.
Qed.

Lemma rule3_ok : rule_ok (re3, tm3).
Proof.
  split; [reflexivity | split; [reflexivity |]]. cbn [fst snd]. intros M caps HL.
  apply lang_re3 in HL as (n & N & Hne & Hn & HNe & HN & -> & ->). split.
  - apply two_group_match_shape; auto.
  - rewrite expand_tm3. apply repl_shape_two_groups; auto.
Qed.

Lemma rule4_ok : rule_ok (re4, tm4).
Proof.
  split; [reflexivity | split; [reflexivity |]]. cbn [fst snd]. intros M caps HL.
  apply lang_re4 in HL as (n & N & Hne & Hn & HNe & HN & -> & ->). split.
  - apply two_group_match_shape; auto.
  - rewrite expand_tm4. apply repl_shape_two_groups; auto.
Qed.

Lemma rules5_ok : Forall rule_ok rules5.
Proof.
  unfold rules5, color_vars; cbn [map].
  repeat (apply Forall_cons_2;
          [split; [reflexivity | split; [reflexivity |]]; cbn [fst snd];
           intros M caps HL; apply lang_re5 in HL as [-> ->];
           split; vm_compute; reflexivity |]).
  apply Forall_nil_2.
Qed.

Lemma rules_ok : Forall rule_ok rules.
Proof.
  unfold rules. apply Forall_app; split; [| exact rules5_ok].
  repeat (apply Forall_cons_2; [first [exact rule1_ok | exact rule2_ok
                                       | exact rule3_ok | exact rule4_ok] |]).
  apply Forall_nil_2.
Qed.

(* ===================================================================== *)
(** ** Where the matches of the output come from *)
(* ===================================================================== *)

Section Origin.

Variables p q : regex.
Variable tmq : template.
Hypothesis Hgp : guarded p = true.
Hypothesis Hpp : proper p = true.
Hypothesis Hgq : guarded q = true.
Hypothesis Hpq : proper q = true.
Hypothesis Hinert : forall M caps, lang q M caps ->
  expand tmq caps <> [] /\ inert p (expand tmq caps).

(** A piece of a match of [p] that begins the output of the scan begins
    its input as well. *)
Lemma sub_prefix_back : forall t pre M caps B,
  lang p (pre ++ M) caps -> M ++ B = sub q tmq t -> exists B', t = M ++ B'.
Proof using Hgp Hpp Hgq Hpq Hinert.
  intros t. remember (length t) as k eqn:Hk.
  revert t Hk; induction k as [k IH] using lt_wf_ind; intros t -> pre M caps B HL Heq.
  destruct M as [| m M]; [exists t; reflexivity |].
  destruct t as [| a t]; [rewrite (sub_nil _ _ Hgq Hpq) in Heq; discriminate |].
  destruct (re_match q (a :: t)) as [[cq rest] |] eqn:E.
  - exfalso.
    destruct (re_match_sound _ _ _ _ Hgq E) as (Mq & HM & HLq).
    rewrite HM, (sub_match _ _ Hgq Hpq _ _ _ HLq) in Heq.
    destruct (Hinert _ _ HLq) as [Hne [Hc Hi]].
    destruct pre as [| x pre].
    + apply (Hi [] (expand tmq cq) (sub q tmq rest) (m :: M) caps B); auto.
    + assert (Hlen : length ((x :: pre) ++ m :: M) <= length (x :: pre)).
      { apply (Hc (sub q tmq rest) (x :: pre) _ caps B); [discriminate | exact HL |].
        rewrite <- app_assoc, Heq; reflexivity. }
      rewrite length_app in Hlen; simpl in Hlen; lia.
  - rewrite (sub_cons_nomatch _ _ _ _ E) in Heq. injection Heq as Hma Heq. subst m.
    destruct (IH (length t)) with (t := t) (pre := pre ++ [a]) (M := M)
                                (caps := caps) (B := B) as [B' ->];
      [simpl; lia | reflexivity | rewrite <- app_assoc; exact HL | exact Heq |].
    exists B'; reflexivity.
Qed.

(** A match of [p] in the output of the scan for [q] is a match of [p]
    in its input, at a position where [q] does not match. *)
Lemma sub_match_origin : forall t,
  has_match p (sub q tmq t) ->
  exists A M caps B,
    lang p M caps /\ t = A ++ M ++ B /\ re_match q (M ++ B) = None.
Proof using Hgp Hpp Hgq Hpq Hinert.
  intros t. remember (length t) as k eqn:Hk.
  revert t Hk; induction k as [k IH] using lt_wf_ind.
  intros t -> (A & M & caps & B & HL & Heq).
  pose proof (lang_nonempty _ _ _ Hpp HL) as HMne.
  destruct t as [| a t].
  { rewrite (sub_nil _ _ Hgq Hpq) in Heq. symmetry in Heq.
    apply app_eq_nil in Heq as [_ Heq]. apply app_eq_nil in Heq as [-> _].
    congruence. }
  destruct (re_match q (a :: t)) as [[cq rest] |] eqn:E.
  - destruct (re_match_sound _ _ _ _ Hgq E) as (Mq & HM & HLq).
    pose proof (lang_nonempty _ _ _ Hpq HLq) as HMqne.
    rewrite HM, (sub_match _ _ Hgq Hpq _ _ _ HLq) in Heq.
    destruct (Hinert _ _ HLq) as [Hne [Hc Hi]].
    assert (Hrest : has_match p (sub q tmq rest)).
    { apply app_eq_app in Heq as [l [[HR Hs] | [-> Hs]]].
      - destruct l as [| x l].
        + exists [], M, caps, B; auto.
        + exfalso. apply (Hi A (x :: l) (sub q tmq rest) M caps B); auto; discriminate.
      - exists l, M, caps, B; auto. }
    destruct (IH (length rest)) with (t := rest)
      as (A' & M' & caps' & B' & HL' & -> & Hno); [| reflexivity | exact Hrest |].
    { rewrite HM, !length_app. destruct Mq; [congruence | simpl; lia]. }
    exists (Mq ++ A'), M', caps', B'. rewrite HM, <- app_assoc; auto.
  - rewrite (sub_cons_nomatch _ _ _ _ E) in Heq.
    destruct A as [| x A].
    + rewrite <- (sub_cons_nomatch _ _ _ _ E) in Heq. symmetry in Heq.
      destruct (sub_prefix_back (a :: t) [] M caps B HL Heq) as [B' HB'].
      exists [], M, caps, B'. rewrite <- HB'. auto.
    + injection Heq as Hxa Heq. subst x.
      destruct (IH (length t)) with (t := t)
        as (A' & M' & caps' & B' & HL' & -> & Hno);
        [simpl; lia | reflexivity | exists A, M, caps, B; auto |].
      exists (a :: A'), M', caps', B'; auto.
Qed.

(** The scan for [q] creates no match of [p]. *)
Lemma sub_no_new_match t : ~ has_match p t -> ~ has_match p (sub q tmq t).
Proof using Hgp Hpp Hgq Hpq Hinert.
  intros Hno H. apply sub_match_origin in H as (A & M & caps & B & HL & -> & _).
  apply Hno. exists A, M, caps, B; auto.
Qed.

End Origin.

(** After the scan for [q], no match of [q] is left. *)
Lemma sub_clears q tmq t :
  guarded q = true -> proper q = true ->
  (forall M caps, lang q M caps -> expand tmq caps <> [] /\ inert q (expand tmq caps)) ->
  ~ has_match q (sub q tmq t).
Proof.
  intros Hg Hp Hin H.
  apply (sub_match_origin q q tmq Hg Hp Hg Hp Hin) in H
    as (A & M & caps & B & HL & _ & Hno).
  rewrite (re_match_complete _ _ _ _ Hg HL) in Hno. discriminate.
Qed.

Lemma repl_shape_nonempty R : repl_shape R = true -> R <> [].
Proof. intros H ->. discriminate. Qed.

Lemma rule_ok_inert r r' M caps :
  rule_ok r -> rule_ok r' -> lang (fst r') M caps ->
  expand (snd r') caps <> [] /\ inert (fst r) (expand (snd r') caps).
Proof.
  intros (_ & _ & Hr) (_ & _ & Hr') HL. destruct (Hr' _ _ HL) as [_ HR]. split.
  - apply repl_shape_nonempty, HR.
  - apply shapes_inert; [| exact HR]. intros M' caps' HL'. apply (Hr _ _ HL').
Qed.

Lemma run_rules_app rs1 rs2 t :
  run_rules (rs1 ++ rs2) t = run_rules rs2 (run_rules rs1 t).
Proof. apply fold_left_app. Qed.

Lemma run_rules_no_new_match r rs t :
  rule_ok r -> Forall rule_ok rs ->
  ~ has_match (fst r) t -> ~ has_match (fst r) (run_rules rs t).
Proof.
  intros Hr Hrs; revert t; induction Hrs as [| r' rs Hr' _ IH]; intros t Hno; [exact Hno |].
  cbn [run_rules fold_left]. apply IH. unfold apply_rule.
  pose proof Hr as (Hg & Hp & _). pose proof Hr' as (Hg' & Hp' & _).
  apply (sub_no_new_match (fst r) (fst r') (snd r') Hg Hp Hg' Hp'
           (fun M caps HL => rule_ok_inert r r' M caps Hr Hr' HL)).
  exact Hno.
Qed.

Lemma run_rules_clears rs r t :
  Forall rule_ok rs -> In r rs -> ~ has_match (fst r) (run_rules rs t).
Proof.
  intros Hrs Hin. apply in_split in Hin as (rs1 & rs2 & ->).
  apply Forall_app in Hrs as [_ Hrs]. apply Forall_cons in Hrs as [Hr Hrs2].
  rewrite run_rules_app. cbn [run_rules fold_left].
  apply run_rules_no_new_match; [exact Hr | exact Hrs2 |].
  unfold apply_rule. pose proof Hr as (Hg & Hp & _).
  apply (sub_clears _ _ _ Hg Hp (fun M caps HL => rule_ok_inert r r M caps Hr Hr HL)).
Qed.

Lemma run_rules_fixed rs t :
  Forall rule_ok rs ->
  (forall r, In r rs -> ~ has_match (fst r) t) -> run_rules rs t = t.
Proof.
  intros Hrs; revert t; induction Hrs as [| r rs (Hg & Hp & _) _ IH]; intros t Hno;
    [reflexivity |].
  cbn [run_rules fold_left]. unfold apply_rule.
  rewrite (sub_no_match _ _ Hg Hp) by (apply Hno; left; reflexivity).
  apply IH. intros r' Hr'. apply Hno; right; exact Hr'.
Qed.

Lemma no_match_at p t i :
  guarded p = true -> ~ has_match p t -> re_match p (drop i t) = None.
Proof.
  intros Hg Hno. destruct (re_match p (drop i t)) as [[caps rest] |] eqn:E; [| reflexivity].
  destruct (re_match_sound _ _ _ _ Hg E) as (M & HM & HL).
  destruct Hno. exists (take i t), M, caps, rest. split; [exact HL |].
  rewrite <- HM. symmetry; apply take_drop.
Qed.

(* ===================================================================== *)
(** ** The output of the rule engine *)
(* ===================================================================== *)

Lemma pattern_rule pat :
  In pat all_patterns -> exists r, In r rules /\ re_compile pat = Some (fst r).
Proof.
  assert (Hall : Forall (fun r => In r rules) rules)
    by (apply Forall_forall; intros r Hr; apply list_elem_of_In, Hr).
  revert Hall. unfold all_patterns, rules at 2, rules5, color_vars; cbn [map app In].
  intros Hall H.
  repeat (apply Forall_cons in Hall as [Hr Hall];
          destruct H as [<- | H];
          [eexists; split; [exact Hr | vm_compute; reflexivity] | clear Hr]).
  destruct H.
Qed.

(** C10: whatever the input, the output of the rule sequence has no match of
    any of the script's patterns left, at any position; and no replacement
    string contains [.into(]. *)
Theorem output_has_no_match (t : text) :
  exists out,
    fix_content t = Some out /\
    (forall pat, In pat all_patterns ->
       exists p, re_compile pat = Some p /\
                 forall i, re_match p (drop i out) = None) /\
    Forall (fun repl => contains (txt ".into(") (txt repl) = false) all_replacements.
Proof.
  exists (rule_engine t). split; [apply fix_content_eq | split].
  - intros pat Hpat. destruct (pattern_rule pat Hpat) as (r & Hr & Hc).
    exists (fst r). split; [exact Hc |]. intros i.
    pose proof rules_ok as Hok.
    assert (Hrok : rule_ok r) by (rewrite Forall_forall in Hok; apply Hok, list_elem_of_In, Hr).
    apply no_match_at; [apply Hrok |].
    apply run_rules_clears; [exact Hok | exact Hr].
  - unfold all_replacements, color_vars; cbn [map app].
    repeat (apply Forall_cons_2; [vm_compute; reflexivity |]). apply Forall_nil_2.
Qed.

(** C3: one pass reaches a fixed point: running the rule sequence on its own
    output changes nothing. *)
Theorem rule_engine_idempotent (t : text) :
  fix_content t ≫= fix_content = fix_content t.
Proof.
  rewrite fix_content_eq. cbn [mbind option_bind]. rewrite fix_content_eq. f_equal.
  apply run_rules_fixed; [exact rules_ok |].
  intros r Hr. apply run_rules_clears; [exact rules_ok | exact Hr].
Qed.

(* ===================================================================== *)
(** ** Occurrences of the call sites in a buffer *)
(* ===================================================================== *)

(** Two ways to cut a text at its first parenthesis agree. *)
Lemma first_paren_eq u c v u' c' v' :
  forallb no_paren u = true -> no_paren c = false ->
  forallb no_paren u' = true -> no_paren c' = false ->
  u ++ c :: v = u' ++ c' :: v' -> u = u' /\ c = c' /\ v = v'.
Proof.
  intros Hu Hc Hu' Hc' E. apply (f_equal (span no_paren)) in E.
  rewrite !span_stop in E by assumption. injection E as -> -> ->. auto.
Qed.

Lemma forallb_rev (f : ascii -> bool) l : forallb f (rev l) = forallb f l.
Proof.
  induction l as [| a l IH]; [reflexivity |].
  simpl. rewrite forallb_app, IH; simpl. rewrite andb_true_r. apply andb_comm.
Qed.

(** Two ways to cut a text at its last dot agree. *)
Lemma last_dot_eq x y x' y' :
  forallb not_dot y = true -> forallb not_dot y' = true ->
  x ++ "." :: y = x' ++ "." :: y' -> x = x' /\ y = y'.
Proof.
  intros Hy Hy' E. apply (f_equal (@rev ascii)) in E.
  rewrite !rev_app_distr in E. cbn [rev] in E. rewrite <- !app_assoc in E. cbn [app] in E.
  apply (f_equal (span not_dot)) in E.
  rewrite !span_stop in E by (rewrite ?forallb_rev; auto).
  injection E as E1 E2.
  apply (f_equal (@rev ascii)) in E1, E2. rewrite !rev_involutive in E1, E2. auto.
Qed.

Lemma ident_no_paren n : forallb is_ident n = true -> forallb no_paren n = true.
Proof.
  apply forallb_weaken. intros c Hc. unfold no_paren.
  destruct (ident_char c Hc) as (_ & -> & _). reflexivity.
Qed.

Lemma ident_not_dot n : forallb is_ident n = true -> forallb not_dot n = true.
Proof.
  apply forallb_weaken. intros c Hc. unfold not_dot.
  destruct (ident_char c Hc) as (_ & _ & _ & _ & Hd).
  destruct (Ascii.eqb_spec c "."); [contradiction | reflexivity].
Qed.

Lemma num_no_paren n : forallb is_num n = true -> forallb no_paren n = true.
Proof.
  apply forallb_weaken. intros c Hc. unfold no_paren.
  destruct (num_char c Hc) as (_ & -> & _). reflexivity.
Qed.

(** A prefix that ends in a dot cannot reappear shifted to the right when
    only a name follows it. *)
Lemma same_prefix_shift A P0 name n :
  forallb is_ident name = true -> forallb is_ident n = true ->
  A ++ (P0 ++ ["."]) ++ name = (P0 ++ ["."]) ++ n -> A = [].
Proof.
  intros Hname Hn E.
  rewrite <- !app_assoc in E. cbn [app] in E. rewrite app_assoc in E.
  apply last_dot_eq in E as [E _]; try (apply ident_not_dot; assumption).
  apply (f_equal (@length ascii)) in E. rewrite length_app in E.
  destruct A; [reflexivity | simpl in E; lia].
Qed.

(** A match that ends in [()] and reaches from [A] into a text whose first
    parenthesis opens: the text up to that parenthesis is the end of the
    match, and a closing parenthesis follows. *)
Lemma cross_call A l W rest U v :
  A ++ l = W ++ ["("; ")"] -> l <> [] ->
  forallb no_paren W = true -> forallb no_paren U = true ->
  l ++ rest = U ++ "(" :: v ->
  A ++ U = W /\ v = ")" :: rest.
Proof.
  intros E Hl HW HU Er.
  destruct (snoc_cases l) as [-> | [[d ->] | (l0 & x & y & ->)]]; [congruence | |].
  - exfalso. change ["("; ")"] with (["("] ++ [")"]) in E.
    rewrite app_assoc in E. apply app_inj_tail in E as [_ ->].
    apply (first_paren_eq [] ")" rest U "(" v) in Er as (_ & Hc & _); auto; discriminate.
  - rewrite app_assoc in E. apply snoc2_inj in E as (E & -> & ->).
    rewrite <- E, forallb_app in HW. apply andb_true_iff in HW as [_ Hl0].
    rewrite <- app_assoc in Er. cbn [app] in Er.
    apply first_paren_eq in Er as (-> & _ & <-); auto.
Qed.

(** No text that starts inside [(N).into()] has a long parenthesis-free
    prefix followed by an opening parenthesis. *)
Lemma tail_no_start N l1 l U v rest :
  forallb is_num N = true ->
  l1 ++ l = "(" :: N ++ txt ").into()" -> l <> [] ->
  forallb no_paren U = true -> 5 < length U ->
  l ++ rest = U ++ "(" :: v -> False.
Proof.
  intros HN E Hl HU Hlen Er.
  assert (Hopen : forall x y, forallb no_paren x = true ->
                   l = x ++ "(" :: y -> length x <= 5 -> False).
  { intros x y Hx -> Hx5. rewrite <- app_assoc in Er. cbn [app] in Er.
    apply first_paren_eq in Er as (-> & _ & _); auto. lia. }
  assert (Hclose : forall x y, forallb no_paren x = true ->
                   l = x ++ ")" :: y -> False).
  { intros x y Hx ->. rewrite <- app_assoc in Er. cbn [app] in Er.
    apply first_paren_eq in Er as (_ & Hc & _); auto. discriminate. }
  destruct l1 as [| c l1].
  { cbn [app] in E. apply (Hopen [] (N ++ txt ").into()")); auto; simpl; lia. }
  injection E as _ E.
  apply app_eq_app in E as [l2 [[-> E] | [-> E]]]; cycle 1.
  - apply (num_no_paren) in HN. rewrite forallb_app in HN.
    apply andb_true_iff in HN as [_ Hl2].
    apply (Hclose l2 (txt ".into()")); auto.
  - cbn in E.
    repeat (destruct l2 as [| ? l2];
            [cbn [app] in E; subst l;
             first [ apply (Hclose [] (txt ".into()")); reflexivity
                   | apply (Hopen (txt ".into") [")"]); [reflexivity | reflexivity | simpl; lia]
                   | apply (Hopen (txt "into") [")"]); [reflexivity | reflexivity | simpl; lia]
                   | apply (Hopen (txt "nto") [")"]); [reflexivity | reflexivity | simpl; lia]
                   | apply (Hopen (txt "to") [")"]); [reflexivity | reflexivity | simpl; lia]
                   | apply (Hopen (txt "o") [")"]); [reflexivity | reflexivity | simpl; lia]
                   | apply (Hopen [] [")"]); [reflexivity | reflexivity | simpl; lia]
                   | apply (Hclose [] []); reflexivity ]
            | injection E as _ E]).
    symmetry in E. apply app_eq_nil in E as [_ ->]. congruence.
Qed.

Lemma num_head_not_close num Z rest :
  num <> [] -> forallb is_num num = true -> num ++ Z = ")" :: rest -> False.
Proof.
  intros Hne Hnum E. destruct num as [| c num]; [congruence |].
  injection E as -> _. discriminate.
Qed.

Section OneGroup.

(** The pattern [P([a-zA-Z_]+)\.into\(\)] against the alpha-scaling call
    site that starts with [Q]. *)
Variables P Q : text.
Hypothesis HP : forallb no_paren P = true.
Hypothesis HQ : forallb no_paren Q = true.

Let p := map Chr P ++ [Plus ident_class] ++ lit ".into()".
Let occ (name num : text) := Q ++ name ++ txt ".scale_alpha(" ++ num ++ txt ").into()".

Lemma one_group_word n :
  forallb is_ident n = true -> n <> [] ->
  P ++ n ++ txt ".into()" = (P ++ n ++ txt ".into") ++ ["("; ")"] /\
  forallb no_paren (P ++ n ++ txt ".into") = true /\
  5 < length (P ++ n ++ txt ".into").
Proof using HP.
  intros Hn Hne. split; [| split].
  - rewrite <- !app_assoc; reflexivity.
  - rewrite !forallb_app, HP, (ident_no_paren _ Hn); reflexivity.
  - rewrite !length_app. destruct n; [congruence | simpl; lia].
Qed.

Lemma alpha_occ_word name num B :
  forallb is_ident name = true ->
  occ name num ++ B
  = (Q ++ name ++ txt ".scale_alpha") ++ "(" :: num ++ txt ").into()" ++ B /\
  occ name num = (Q ++ name ++ txt ".scale_alpha") ++ "(" :: num ++ txt ").into()" /\
  forallb no_paren (Q ++ name ++ txt ".scale_alpha") = true /\
  5 < length (Q ++ name ++ txt ".scale_alpha").
Proof using HQ.
  intros Hname. unfold occ. repeat split.
  - rewrite <- !app_assoc; reflexivity.
  - rewrite <- !app_assoc; reflexivity.
  - rewrite !forallb_app, HQ, (ident_no_paren _ Hname); reflexivity.
  - rewrite !length_app. simpl. lia.
Qed.

Lemma one_group_no_cross_alpha name num B :
  forallb is_ident name = true -> num <> [] -> forallb is_num num = true ->
  no_cross p (occ name num ++ B).
Proof using HP HQ.
  intros Hname Hne Hnum A M caps rest HA HL E.
  apply lang_one_group in HL as (n & Hnne & Hn & -> & ->).
  destruct (one_group_word n Hn Hnne) as (HM & HW & _).
  destruct (alpha_occ_word name num B Hname) as (HO & _ & HU & _).
  rewrite HO in E.
  apply app_eq_app in E as [l [[-> _] | [Hl Er]]]; [rewrite !length_app; lia |].
  destruct l as [| x l]; [rewrite Hl, app_nil_r; reflexivity |].
  exfalso. rewrite HM in Hl. symmetry in Hl. symmetry in Er.
  destruct (cross_call _ _ _ _ _ _ Hl ltac:(discriminate) HW HU Er) as [_ Hv].
  exact (num_head_not_close _ _ _ Hne Hnum Hv).
Qed.

Lemma one_group_no_inner_alpha name num :
  forallb is_ident name = true -> num <> [] -> forallb is_num num = true ->
  no_inner p (occ name num).
Proof using HP HQ.
  intros Hname Hne Hnum X1 X2 B M caps rest HX HX2 HL E.
  apply lang_one_group in HL as (n & Hnne & Hn & -> & ->).
  destruct (one_group_word n Hn Hnne) as (HM & HW & HWlen).
  destruct (alpha_occ_word name num B Hname) as (_ & HO & HU & _).
  rewrite HM, <- app_assoc in E. cbn [app] in E.
  rewrite HO in HX. symmetry in HX.
  apply app_eq_app in HX as [l [[_ HT] | [HUl ->]]].
  - symmetry in HT. exact (tail_no_start _ _ _ _ _ _ Hnum HT HX2 HW HWlen E).
  - rewrite HUl, forallb_app in HU. apply andb_true_iff in HU as [_ Hl].
    rewrite <- app_assoc in E. cbn [app] in E.
    apply first_paren_eq in E as (_ & _ & Hv); auto.
    rewrite <- app_assoc in Hv.
    exact (num_head_not_close _ _ _ Hne Hnum Hv).
Qed.

Lemma one_group_inert_alpha name num :
  forallb is_ident name = true -> num <> [] -> forallb is_num num = true ->
  inert p (occ name num).
Proof using HP HQ.
  intros Hname Hne Hnum. split.
  - intros B. apply one_group_no_cross_alpha; assumption.
  - apply one_group_no_inner_alpha; assumption.
Qed.

End OneGroup.

Section SamePrefix.

(** A pattern against its own call site: no earlier match reaches into
    an occurrence. *)
Variable P0 : text.
Let P := P0 ++ ["."].
Hypothesis HP : forallb no_paren P = true.

Lemma one_group_no_cross_same name B :
  forallb is_ident name = true ->
  no_cross (map Chr P ++ [Plus ident_class] ++ lit ".into()")
           ((P ++ name ++ txt ".into()") ++ B).
Proof using HP.
  intros Hname A M caps rest HA HL E.
  apply lang_one_group in HL as (n & Hnne & Hn & -> & ->).
  destruct (one_group_word P HP n Hn Hnne) as (HM & HW & _).
  assert (HO : (P ++ name ++ txt ".into()") ++ B
               = (P ++ name ++ txt ".into") ++ "(" :: ")" :: B)
    by (rewrite <- !app_assoc; reflexivity).
  assert (HU : forallb no_paren (P ++ name ++ txt ".into") = true)
    by (rewrite !forallb_app, HP, (ident_no_paren _ Hname); reflexivity).
  rewrite HO in E.
  apply app_eq_app in E as [l [[-> _] | [Hl Er]]]; [rewrite !length_app; lia |].
  destruct l as [| x l]; [rewrite Hl, app_nil_r; reflexivity |].
  exfalso. rewrite HM in Hl. symmetry in Hl. symmetry in Er.
  destruct (cross_call _ _ _ _ _ _ Hl ltac:(discriminate) HW HU Er) as [HAU _].
  rewrite !app_assoc in HAU. apply app_inv_tail in HAU.
  rewrite <- !app_assoc in HAU.
  apply HA. apply (same_prefix_shift A P0 name n Hname Hn). exact HAU.
Qed.

Lemma two_group_no_cross_same name num B :
  forallb is_ident name = true -> num <> [] -> forallb is_num num = true ->
  no_cross (map Chr P ++ [Plus ident_class] ++ lit ".scale_alpha("
              ++ [Plus num_class] ++ lit ").into()")
           ((P ++ name ++ txt ".scale_alpha(" ++ num ++ txt ").into()") ++ B).
Proof using HP.
  intros Hname Hne Hnum A M caps rest HA HL E.
  apply lang_two_groups in HL as (n & N & Hnne & Hn & HNne & HN & -> & ->).
  destruct (alpha_occ_word P HP name num B Hname) as (HO & _ & HU & HUlen).
  destruct (alpha_occ_word P HP n N [] Hn) as (_ & HM & HW & _).
  rewrite HO in E.
  apply app_eq_app in E as [l [[-> _] | [Hl Er]]]; [rewrite !length_app; lia |].
  destruct l as [| x l]; [rewrite Hl, app_nil_r; reflexivity |].
  exfalso. rewrite HM in Hl. symmetry in Hl. symmetry in Er.
  apply app_eq_app in Hl as [l1 [[_ HT] | [HWl Hl]]].
  - symmetry in HT.
    exact (tail_no_start _ _ _ _ _ _ HN HT ltac:(discriminate) HU HUlen Er).
  - rewrite HWl, forallb_app in HW. apply andb_true_iff in HW as [_ Hl1].
    rewrite Hl, <- app_assoc in Er. cbn [app] in Er.
    apply first_paren_eq in Er as (-> & _ & _); auto.
    rewrite !app_assoc in HWl. apply app_inv_tail in HWl.
    rewrite <- !app_assoc in HWl.
    apply HA. apply (same_prefix_shift A P0 name n Hname Hn). symmetry. exact HWl.
Qed.

End SamePrefix.

(* ===================================================================== *)
(** ** Rewriting one call site *)
(* ===================================================================== *)

Lemma run_rules_inert rs X :
  Forall (fun r => guarded (fst r) = true /\ proper (fst r) = true /\ inert (fst r) X) rs ->
  forall A B, run_rules rs (A ++ X ++ B) = run_rules rs A ++ X ++ run_rules rs B.
Proof.
  induction 1 as [| r rs (Hg & Hp & Hi) _ IH]; intros A B; [reflexivity |].
  unfold run_rules in *. cbn [fold_left].
  change (apply_rule (A ++ X ++ B) r) with (sub (fst r) (snd r) (A ++ X ++ B)).
  rewrite (sub_inert _ _ Hg Hp _ _ _ Hi). apply IH.
Qed.

Lemma repl_inert_all rs R :
  Forall rule_ok rs -> repl_shape R = true ->
  Forall (fun r => guarded (fst r) = true /\ proper (fst r) = true /\ inert (fst r) R) rs.
Proof.
  intros Hrs HR. eapply Forall_impl; [exact Hrs |].
  intros r (Hg & Hp & Hs). repeat split; try assumption;
    apply (shapes_inert (fst r) R (fun M caps HL => proj1 (Hs M caps HL)) HR).
Qed.

Lemma run_rules_cons r rs t :
  run_rules (r :: rs) t = run_rules rs (sub (fst r) (snd r) t).
Proof. reflexivity. Qed.

Lemma rule_engine_unfold t :
  rule_engine t
  = run_rules ((re4, tm4) :: rules5)
      (sub re3 tm3 (run_rules [(re1, tm1); (re2, tm2)] t)).
Proof.
  unfold rule_engine, rules.
  change [(re1, tm1); (re2, tm2); (re3, tm3); (re4, tm4)]
    with ([(re1, tm1); (re2, tm2)] ++ [(re3, tm3); (re4, tm4)]).
  rewrite <- app_assoc, run_rules_app. cbn [app].
  rewrite (run_rules_cons (re3, tm3)). reflexivity.
Qed.

Lemma rules_tail_ok : Forall rule_ok ((re4, tm4) :: rules5).
Proof. apply Forall_cons_2; [exact rule4_ok | exact rules5_ok]. Qed.

Lemma no_paren_self : forallb no_paren (txt "self.theme.scheme.") = true.
Proof. reflexivity. Qed.

Lemma no_paren_bare : forallb no_paren (txt "theme.scheme.") = true.
Proof. reflexivity. Qed.

Lemma rule_engine_first t :
  rule_engine t
  = run_rules ([(re2, tm2); (re3, tm3); (re4, tm4)] ++ rules5) (sub re1 tm1 t).
Proof. unfold rule_engine, rules. cbn [app]. apply run_rules_cons. Qed.

Lemma rules_after_first_ok :
  Forall rule_ok ([(re2, tm2); (re3, tm3); (re4, tm4)] ++ rules5).
Proof.
  pose proof rules_ok as Hok. unfold rules in Hok. cbn [app] in Hok.
  apply Forall_cons in Hok as [_ Hok]. exact Hok.
Qed.

(** The rule sequence on a buffer that contains a rule 1 call site. *)
Lemma rule_engine_rule1 pre name post :
  name <> [] -> forallb is_ident name = true ->
  rule_engine (pre ++ txt "self.theme.scheme." ++ name ++ txt ".into()" ++ post)
  = rule_engine pre ++ txt "iced::Color::from(self.theme.scheme." ++ name ++ txt ")"
      ++ rule_engine post.
Proof.
  intros Hne Hn.
  set (occ := txt "self.theme.scheme." ++ name ++ txt ".into()").
  set (R := txt "iced::Color::from(self.theme.scheme." ++ name ++ txt ")").
  assert (HL : lang re1 occ [name]) by (apply lang_re1; exists name; auto).
  assert (Hc : no_cross re1 (occ ++ post))
    by exact (one_group_no_cross_same (txt "self.theme.scheme") no_paren_self name post Hn).
  destruct rule1_ok as (Hg & Hp & Hs). cbn [fst snd] in Hg, Hp, Hs.
  destruct (Hs _ _ HL) as [_ HR]. rewrite expand_tm1 in HR. fold R in HR.
  replace (pre ++ txt "self.theme.scheme." ++ name ++ txt ".into()" ++ post)
    with (pre ++ occ ++ post) by (unfold occ; rewrite <- !app_assoc; reflexivity).
  replace (rule_engine pre ++ txt "iced::Color::from(self.theme.scheme." ++ name
             ++ txt ")" ++ rule_engine post)
    with (rule_engine pre ++ R ++ rule_engine post)
    by (unfold R; rewrite <- !app_assoc; reflexivity).
  rewrite !rule_engine_first.
  rewrite (sub_occurrence _ _ Hg Hp _ _ _ _ Hc HL), expand_tm1. fold R.
  apply run_rules_inert, repl_inert_all; [exact rules_after_first_ok | exact HR].
Qed.

(** Rules 1 and 2 on a buffer that contains an alpha-scaling call site, with
    or without the [self.] qualifier. *)
Lemma rules12_alpha prefix pre name num post :
  forallb no_paren prefix = true ->
  name <> [] -> forallb is_ident name = true ->
  num <> [] -> forallb is_num num = true ->
  run_rules [(re1, tm1); (re2, tm2)]
    (pre ++ (prefix ++ name ++ txt ".scale_alpha(" ++ num ++ txt ").into()") ++ post)
  = run_rules [(re1, tm1); (re2, tm2)] pre
      ++ (prefix ++ name ++ txt ".scale_alpha(" ++ num ++ txt ").into()")
      ++ run_rules [(re1, tm1); (re2, tm2)] post.
Proof.
  intros Hpre Hne Hn HNe HN. apply run_rules_inert.
  repeat apply Forall_cons_2; [| | apply Forall_nil_2].
  - split; [reflexivity | split; [reflexivity |]].
    exact (one_group_inert_alpha (txt "self.theme.scheme.") prefix
             no_paren_self Hpre name num Hn HNe HN).
  - split; [reflexivity | split; [reflexivity |]].
    exact (one_group_inert_alpha (txt "theme.scheme.") prefix
             no_paren_bare Hpre name num Hn HNe HN).
Qed.

(** The rule sequence on a buffer that contains a rule 3 call site. *)
Lemma rule_engine_rule3 pre name num post :
  name <> [] -> forallb is_ident name = true ->
  num <> [] -> forallb is_num num = true ->
  rule_engine (pre ++ txt "self.theme.scheme." ++ name ++ txt ".scale_alpha("
                 ++ num ++ txt ").into()" ++ post)
  = rule_engine pre ++ txt "iced::Color::from(self.theme.scheme." ++ name
      ++ txt ".scale_alpha(" ++ num ++ txt "))" ++ rule_engine post.
Proof.
  intros Hne Hn HNe HN.
  set (occ := txt "self.theme.scheme." ++ name ++ txt ".scale_alpha(" ++ num ++ txt ").into()").
  set (R := txt "iced::Color::from(self.theme.scheme." ++ name ++ txt ".scale_alpha("
              ++ num ++ txt "))").
  assert (HL : lang re3 occ [name; num]) by (apply lang_re3; exists name, num; auto 10).
  assert (Hc : forall B, no_cross re3 (occ ++ B))
    by (intros B; exact (two_group_no_cross_same (txt "self.theme.scheme") no_paren_self
                           name num B Hn HNe HN)).
  destruct rule3_ok as (Hg & Hp & Hs). cbn [fst snd] in Hg, Hp, Hs.
  destruct (Hs _ _ HL) as [_ HR]. rewrite expand_tm3 in HR. fold R in HR.
  replace (pre ++ txt "self.theme.scheme." ++ name ++ txt ".scale_alpha("
             ++ num ++ txt ").into()" ++ post)
    with (pre ++ occ ++ post) by (unfold occ; rewrite <- !app_assoc; reflexivity).
  replace (rule_engine pre ++ txt "iced::Color::from(self.theme.scheme." ++ name
             ++ txt ".scale_alpha(" ++ num ++ txt "))" ++ rule_engine post)
    with (rule_engine pre ++ R ++ rule_engine post)
    by (unfold R; rewrite <- !app_assoc; reflexivity).
  rewrite !rule_engine_unfold.
  unfold occ at 1.
  rewrite (rules12_alpha _ pre name num post no_paren_self Hne Hn HNe HN). fold occ.
  rewrite (sub_occurrence _ _ Hg Hp _ _ _ _ (Hc _) HL), expand_tm3. fold R.
  apply run_rules_inert, repl_inert_all; [exact rules_tail_ok | exact HR].
Qed.

(* ===================================================================== *)
(** ** The substitution loop is a global find-and-replace *)
(* ===================================================================== *)

Section GlobalReplace.

Variable p : regex.
Variable tm : template.
Hypothesis Hg : guarded p = true.
Hypothesis Hp : proper p = true.

Lemma global_replace_sub : forall t, global_replace p tm t (sub p tm t).
Proof using Hg Hp.
  intros t. remember (length t) as k eqn:Hk.
  revert t Hk; induction k as [k IH] using lt_wf_ind; intros t ->.
  destruct t as [| a t]; [rewrite (sub_nil _ _ Hg Hp); constructor |].
  destruct (re_match p (a :: t)) as [[caps rest] |] eqn:E.
  - destruct (re_match_sound _ _ _ _ Hg E) as (M & HM & HL).
    pose proof (lang_nonempty _ _ _ Hp HL) as HMne.
    rewrite HM, (sub_match _ _ Hg Hp _ _ _ HL).
    apply gr_replace; [exact HL |].
    apply (IH (length rest)); [| reflexivity].
    rewrite HM, length_app. destruct M; [congruence | simpl; lia].
  - rewrite (sub_cons_nomatch _ _ _ _ E). apply gr_keep.
    + intros M caps rest HL HM.
      rewrite HM, (re_match_complete _ _ _ _ Hg HL) in E. discriminate.
    + apply (IH (length t)); [simpl; lia | reflexivity].
Qed.

Lemma global_replace_unique t out : global_replace p tm t out -> out = sub p tm t.
Proof using Hg Hp.
  induction 1 as [| a t out Hno _ IH | M caps rest out HL _ IH].
  - symmetry; apply sub_nil; assumption.
  - rewrite sub_cons_nomatch; [rewrite IH; reflexivity |].
    destruct (re_match p (a :: t)) as [[caps rest] |] eqn:E; [| reflexivity].
    destruct (re_match_sound _ _ _ _ Hg E) as (M & HM & HL).
    destruct (Hno _ _ _ HL HM).
  - rewrite (sub_match _ _ Hg Hp _ _ _ HL), IH; reflexivity.
Qed.

Lemma global_replace_iff t out : global_replace p tm t out <-> out = sub p tm t.
Proof using Hg Hp.
  split; [apply global_replace_unique | intros ->; apply global_replace_sub].
Qed.

End GlobalReplace.

Lemma rule5_passes_iff vars t out :
  Forall rule_ok (map (fun var => (re5 var, tm5 var)) vars) ->
  rule5_passes vars t out
  <-> out = run_rules (map (fun var => (re5 var, tm5 var)) vars) t.
Proof.
  revert t; induction vars as [| var vars IH]; intros t Hok; cbn [map] in *.
  - split; [inversion 1; reflexivity | intros ->; constructor].
  - apply Forall_cons in Hok as [(Hg & Hp & _) Hok]. cbn [fst snd] in Hg, Hp.
    rewrite run_rules_cons. cbn [fst snd]. split.
    + inversion 1 as [| ? ? ? t1 ? H1 H2]; subst.
      apply (global_replace_iff _ _ Hg Hp) in H1 as ->.
      apply (IH _ Hok), H2.
    + intros ->. econstructor.
      * apply (global_replace_sub _ _ Hg Hp).
      * apply (IH _ Hok). reflexivity.
Qed.

Lemma five_passes_iff t out : five_passes t out <-> out = rule_engine t.
Proof.
  destruct rule1_ok as (Hg1 & Hp1 & _), rule2_ok as (Hg2 & Hp2 & _),
           rule3_ok as (Hg3 & Hp3 & _), rule4_ok as (Hg4 & Hp4 & _).
  cbn [fst snd] in *.
  assert (Hre : rule_engine t
                = run_rules rules5 (sub re4 tm4 (sub re3 tm3 (sub re2 tm2 (sub re1 tm1 t))))).
  { unfold rule_engine, rules. rewrite run_rules_app. reflexivity. }
  unfold five_passes. split.
  - intros (b1 & b2 & b3 & b4 & H1 & H2 & H3 & H4 & H5).
    apply (global_replace_iff _ _ Hg1 Hp1) in H1 as ->.
    apply (global_replace_iff _ _ Hg2 Hp2) in H2 as ->.
    apply (global_replace_iff _ _ Hg3 Hp3) in H3 as ->.
    apply (global_replace_iff _ _ Hg4 Hp4) in H4 as ->.
    apply (rule5_passes_iff _ _ _ rules5_ok) in H5 as ->.
    symmetry; exact Hre.
  - intros ->. do 4 eexists. repeat split.
    + apply (global_replace_sub _ _ Hg1 Hp1).
    + apply (global_replace_sub _ _ Hg2 Hp2).
    + apply (global_replace_sub _ _ Hg3 Hp3).
    + apply (global_replace_sub _ _ Hg4 Hp4).
    + apply (rule5_passes_iff _ _ _ rules5_ok). exact Hre.
Qed.

(** C7: the rule engine is the composition of the five global
    find-and-replace passes in the order 1 to 5: every pass works on the
    whole output of the pass before it, and every pass runs, whatever the
    earlier ones matched. *)
Theorem rule_engine_is_five_passes (t out : text) :
  fix_content t = Some out <-> five_passes t out.
Proof.
  rewrite fix_content_eq, five_passes_iff. split; [intros [= <-] | intros ->]; reflexivity.
Qed.

(* ===================================================================== *)
(** ** Rule 1 and rule 3 on a call site *)
(* ===================================================================== *)

(** C1, as the code has it: an occurrence of
    [self.theme.scheme.<name>.into()], with <name> letters and underscores,
    is rewritten to [iced::Color::from(self.theme.scheme.<name>)] with the
    name kept as it is, and the text before and after the occurrence comes
    out as the rule engine leaves that text on its own; text around the
    occurrence that the rule engine does not change (the semicolon of the
    example) stays as it is. *)
Theorem rule1_occurrence_rewritten (pre name post : text) :
  name <> [] -> forallb is_ident name = true ->
  exists pre' post',
    fix_content pre = Some pre' /\ fix_content post = Some post' /\
    fix_content (pre ++ txt "self.theme.scheme." ++ name ++ txt ".into()" ++ post)
    = Some (pre' ++ txt "iced::Color::from(self.theme.scheme." ++ name ++ txt ")" ++ post') /\
    (pre' = pre -> post' = post ->
     fix_content (pre ++ txt "self.theme.scheme." ++ name ++ txt ".into()" ++ post)
     = Some (pre ++ txt "iced::Color::from(self.theme.scheme." ++ name ++ txt ")" ++ post)).
Proof.
  intros Hne Hn. exists (rule_engine pre), (rule_engine post).
  rewrite !fix_content_eq, (rule_engine_rule1 pre name post Hne Hn).
  repeat split; try reflexivity. intros -> ->. reflexivity.
Qed.

(** The example of the specification:
    [let c = self.theme.scheme.background.into();]. *)
Lemma rule1_occurrence_rewritten_witness :
  fix_content (txt "let c = self.theme.scheme.background.into();")
  = Some (txt "let c = iced::Color::from(self.theme.scheme.background);").
Proof.
  destruct (rule1_occurrence_rewritten (txt "let c = ") (txt "background") (txt ";"))
    as (pre' & post' & Hpre & Hpost & _ & Hsame); [discriminate | reflexivity |].
  vm_compute in Hpre, Hpost.
  injection Hpre as <-. injection Hpost as <-.
  exact (Hsame eq_refl eq_refl).
Defined.

(** C1 as stated fails when the surrounding text has a call site of its
    own: the text before the occurrence is rewritten by rule 5. *)
Lemma rule1_surrounding_text_counterexample :
  forallb is_ident (txt "bg") = true /\
  fix_content (txt "border_color.into(); " ++ txt "self.theme.scheme." ++ txt "bg"
                 ++ txt ".into()" ++ txt ";")
  <> Some (txt "border_color.into(); " ++ txt "iced::Color::from(self.theme.scheme."
             ++ txt "bg" ++ txt ")" ++ txt ";").
Proof. split; [reflexivity |]. vm_compute. discriminate. Qed.

(** C4: in every buffer, an occurrence of
    [self.theme.scheme.<name>.scale_alpha(<num>).into()] is rewritten to
    [iced::Color::from(self.theme.scheme.<name>.scale_alpha(<num>))]: name and
    number are kept as they are, the [scale_alpha] call is kept, and the
    occurrence changes in its outer wrapping only.  (The text before and
    after the occurrence comes out as the rule engine leaves that text on
    its own.) *)
Theorem rule3_occurrence_rewritten (pre name num post : text) :
  name <> [] -> forallb is_ident name = true ->
  num <> [] -> forallb is_num num = true ->
  exists pre' post',
    fix_content pre = Some pre' /\ fix_content post = Some post' /\
    fix_content (pre ++ txt "self.theme.scheme." ++ name ++ txt ".scale_alpha("
                   ++ num ++ txt ").into()" ++ post)
    = Some (pre' ++ txt "iced::Color::from(self.theme.scheme." ++ name
              ++ txt ".scale_alpha(" ++ num ++ txt "))" ++ post') /\
    (pre' = pre -> post' = post ->
     fix_content (pre ++ txt "self.theme.scheme." ++ name ++ txt ".scale_alpha("
                    ++ num ++ txt ").into()" ++ post)
     = Some (pre ++ txt "iced::Color::from(self.theme.scheme." ++ name
               ++ txt ".scale_alpha(" ++ num ++ txt "))" ++ post)).
Proof.
  intros Hne Hn HNe HN. exists (rule_engine pre), (rule_engine post).
  rewrite !fix_content_eq, (rule_engine_rule3 pre name num post Hne Hn HNe HN).
  repeat split; try reflexivity. intros -> ->. reflexivity.
Qed.

Lemma rule3_occurrence_rewritten_witness :
  fix_content (txt "let c = self.theme.scheme.primary.scale_alpha(0.5).into();")
  = Some (txt "let c = iced::Color::from(self.theme.scheme.primary.scale_alpha(0.5));").
Proof.
  destruct (rule3_occurrence_rewritten (txt "let c = ") (txt "primary") (txt "0.5") (txt ";"))
    as (pre' & post' & Hpre & Hpost & _ & Hsame);
    [discriminate | reflexivity | discriminate | reflexivity |].
  vm_compute in Hpre, Hpost.
  injection Hpre as <-. injection Hpost as <-.
  exact (Hsame eq_refl eq_refl).
Defined.

(* ===================================================================== *)
(** ** The alpha-scaling call sites reach rules 3 and 4 intact *)
(* ===================================================================== *)

Lemma content_after_rule2_eq t :
  content_after_rule2 t = Some (run_rules [(re1, tm1); (re2, tm2)] t).
Proof.
  unfold content_after_rule2.
  rewrite (re_sub_compiled pattern1 replacement1 re1 tm1) by (vm_compute; reflexivity).
  cbv beta iota delta [mbind option_bind].
  rewrite (re_sub_compiled pattern2 replacement2 re2 tm2) by (vm_compute; reflexivity).
  rewrite !run_rules_cons. reflexivity.
Qed.

Lemma no_inner_no_match p X X1 X2 B :
  guarded p = true -> no_inner p X -> X = X1 ++ X2 -> X2 <> [] ->
  re_match p (X2 ++ B) = None.
Proof.
  intros Hg Hi HX HX2.
  destruct (re_match p (X2 ++ B)) as [[caps rest] |] eqn:E; [| reflexivity].
  destruct (re_match_sound _ _ _ _ Hg E) as (M & HM & HL).
  destruct (Hi X1 X2 B M caps rest HX HX2 HL HM).
Qed.

(** C9: rules 1 and 2 never match the alpha-scaling form, with or without
    the [self.] qualifier: neither pattern matches at any position inside an
    occurrence, whatever follows it, and after rules 1 and 2 the occurrence
    is still in the buffer as it was, between the text before it and the
    text after it as rules 1 and 2 leave them. *)
Theorem alpha_call_untouched_by_rules_1_2 (prefix pre name num post : text) :
  prefix = txt "self.theme.scheme." \/ prefix = txt "theme.scheme." ->
  name <> [] -> forallb is_ident name = true ->
  num <> [] -> forallb is_num num = true ->
  let occ := prefix ++ name ++ txt ".scale_alpha(" ++ num ++ txt ").into()" in
  (forall X1 X2 B, occ = X1 ++ X2 -> X2 <> [] ->
     re_match re1 (X2 ++ B) = None /\ re_match re2 (X2 ++ B) = None) /\
  exists pre' post',
    content_after_rule2 pre = Some pre' /\
    content_after_rule2 post = Some post' /\
    content_after_rule2 (pre ++ occ ++ post) = Some (pre' ++ occ ++ post').
Proof.
  intros Hprefix Hne Hn HNe HN occ.
  assert (Hpre : forallb no_paren prefix = true)
    by (destruct Hprefix as [-> | ->]; reflexivity).
  split.
  - intros X1 X2 B HX HX2. split.
    + apply (no_inner_no_match re1 occ X1 X2 B); auto.
      exact (one_group_no_inner_alpha (txt "self.theme.scheme.") prefix
               no_paren_self Hpre name num Hn HNe HN).
    + apply (no_inner_no_match re2 occ X1 X2 B); auto.
      exact (one_group_no_inner_alpha (txt "theme.scheme.") prefix
               no_paren_bare Hpre name num Hn HNe HN).
  - exists (run_rules [(re1, tm1); (re2, tm2)] pre),
           (run_rules [(re1, tm1); (re2, tm2)] post).
    rewrite !content_after_rule2_eq. repeat split.
    f_equal. apply rules12_alpha; assumption.
Qed.

Lemma alpha_call_untouched_by_rules_1_2_witness :
  content_after_rule2 (txt "a = theme.scheme.primary.scale_alpha(0.5).into();")
  = Some (txt "a = theme.scheme.primary.scale_alpha(0.5).into();").
Proof.
  destruct (alpha_call_untouched_by_rules_1_2 (txt "theme.scheme.") (txt "a = ")
              (txt "primary") (txt "0.5") (txt ";"))
    as (_ & pre' & post' & Hpre & Hpost & H);
    [right; reflexivity | discriminate | reflexivity | discriminate | reflexivity |].
  vm_compute in Hpre, Hpost.
  injection Hpre as <-. injection Hpost as <-.
  exact H.
Defined.

(* ===================================================================== *)
(** ** The numeric argument of rules 3 and 4 *)
(* ===================================================================== *)

(** Two ways to cut a text at its first character outside [f] agree. *)
Lemma first_cut_eq (f : ascii -> bool) u c v u' c' v' :
  forallb f u = true -> f c = false ->
  forallb f u' = true -> f c' = false ->
  u ++ c :: v = u' ++ c' :: v' -> u = u' /\ c = c' /\ v = v'.
Proof.
  intros Hu Hc Hu' Hc' E. apply (f_equal (span f)) in E.
  rewrite !span_stop in E by assumption. injection E as -> -> ->. auto.
Qed.

Section NumericArgument.

Variable P : text.

Let p := map Chr P ++ [Plus ident_class] ++ lit ".scale_alpha("
           ++ [Plus num_class] ++ lit ").into()".
Let call (name arg rest : text) :=
  P ++ name ++ txt ".scale_alpha(" ++ arg ++ txt ").into()" ++ rest.

Hypothesis Hg : guarded p = true.

Lemma two_groups_fire name arg rest :
  name <> [] -> forallb is_ident name = true ->
  arg <> [] -> forallb is_num arg = true ->
  re_match p (call name arg rest) = Some ([name; arg], rest).
Proof using Hg.
  intros Hne Hn HNe HN.
  replace (call name arg rest)
    with ((P ++ name ++ txt ".scale_alpha(" ++ arg ++ txt ").into()") ++ rest)
    by (unfold call; rewrite <- !app_assoc; reflexivity).
  apply (re_match_complete _ _ _ _ Hg).
  apply lang_two_groups. exists name, arg. auto 10.
Qed.

Lemma two_groups_fire_only name arg rest :
  forallb is_ident name = true -> forallb not_close arg = true ->
  is_Some (re_match p (call name arg rest)) ->
  arg <> [] /\ forallb is_num arg = true.
Proof using Hg.
  intros Hn Harg [[caps rest'] E].
  destruct (re_match_sound _ _ _ _ Hg E) as (M & HM & HL).
  apply lang_two_groups in HL as (n & N & Hnne & Hn' & HNne & HN & -> & _).
  unfold call in HM. rewrite <- !app_assoc in HM. apply app_inv_head in HM.
  change (txt ".scale_alpha(" ++ ?x) with ("." :: txt "scale_alpha(" ++ x) in HM.
  apply (first_cut_eq not_dot) in HM as (_ & _ & HM);
    try reflexivity; try (apply ident_not_dot; assumption).
  apply app_inv_head in HM.
  change (txt ").into()" ++ ?x) with (")" :: txt ".into()" ++ x) in HM.
  apply (first_cut_eq not_close) in HM as (-> & _ & _);
    try reflexivity; try assumption; [| apply num_not_close; assumption].
  auto.
Qed.

End NumericArgument.

(** C6, as the code has it: given a call [scale_alpha(<arg>).into()] on a
    theme colour, with no closing parenthesis inside <arg>, rules 3 and 4
    fire exactly when <arg> is a non-empty string of digits and dots, any
    number of dots in any place; the argument is the second group and goes
    into the output as it is. *)
Theorem numeric_argument_digits_and_dots (name arg rest : text) :
  name <> [] -> forallb is_ident name = true ->
  forallb not_close arg = true ->
  let call3 := txt "self.theme.scheme." ++ name ++ txt ".scale_alpha(" ++ arg
                 ++ txt ").into()" ++ rest in
  let call4 := txt "theme.scheme." ++ name ++ txt ".scale_alpha(" ++ arg
                 ++ txt ").into()" ++ rest in
  (is_Some (re_match re3 call3) <-> arg <> [] /\ forallb is_num arg = true) /\
  (is_Some (re_match re4 call4) <-> arg <> [] /\ forallb is_num arg = true) /\
  (arg <> [] -> forallb is_num arg = true ->
   re_match re3 call3 = Some ([name; arg], rest) /\
   re_match re4 call4 = Some ([name; arg], rest) /\
   expand tm3 [name; arg]
   = txt "iced::Color::from(self.theme.scheme." ++ name ++ txt ".scale_alpha("
       ++ arg ++ txt "))" /\
   expand tm4 [name; arg]
   = txt "iced::Color::from(theme.scheme." ++ name ++ txt ".scale_alpha("
       ++ arg ++ txt "))").
Proof.
  intros Hne Hn Harg call3 call4.
  pose proof (two_groups_fire (txt "self.theme.scheme.") eq_refl name arg rest Hne Hn) as F3.
  pose proof (two_groups_fire (txt "theme.scheme.") eq_refl name arg rest Hne Hn) as F4.
  split; [| split].
  - split.
    + apply (two_groups_fire_only (txt "self.theme.scheme.") eq_refl name arg rest Hn Harg).
    + intros [HNe HN]. eexists. apply F3; assumption.
  - split.
    + apply (two_groups_fire_only (txt "theme.scheme.") eq_refl name arg rest Hn Harg).
    + intros [HNe HN]. eexists. apply F4; assumption.
  - intros HNe HN. split; [apply F3; assumption |].
    split; [apply F4; assumption |].
    split; [apply expand_tm3 | apply expand_tm4].
Qed.

Lemma numeric_argument_digits_and_dots_witness :
  re_match re3 (txt "self.theme.scheme.primary.scale_alpha(0.5).into();")
  = Some ([txt "primary"; txt "0.5"], txt ";").
Proof.
  destruct (numeric_argument_digits_and_dots (txt "primary") (txt "0.5") (txt ";"))
    as (_ & _ & H); [discriminate | reflexivity | reflexivity |].
  destruct H as (H3 & _); [discriminate | reflexivity |].
  exact H3.
Defined.

(** C6 as stated fails: [1.2.3] is not digits with an optional decimal
    point, and rule 3 fires on it. *)
Lemma numeric_argument_counterexample :
  digits_with_optional_point (txt "1.2.3") = false /\
  re_match re3 (txt "self.theme.scheme.x.scale_alpha(1.2.3).into()")
  = Some ([txt "x"; txt "1.2.3"], []) /\
  fix_content (txt "self.theme.scheme.x.scale_alpha(1.2.3).into()")
  = Some (txt "iced::Color::from(self.theme.scheme.x.scale_alpha(1.2.3))").
Proof. repeat split; vm_compute; reflexivity. Qed.

(* ===================================================================== *)
(** ** Rule 5 and longer identifiers *)
(* ===================================================================== *)

(** C2, the code at the failing input: [my_text_color] is an identifier
    outside the hardcoded list and has no qualifying prefix, and rule 5
    rewrites the end of it. *)
Theorem rule5_fires_inside_longer_identifier :
  ~ In "my_text_color"%string color_vars /\
  forallb is_ident (txt "my_text_color") = true /\
  fix_content (txt "my_text_color.into()")
  = Some (txt "my_iced::Color::from(text_color)").
Proof.
  split; [| split; vm_compute; reflexivity].
  unfold color_vars; simpl. intros H.
  repeat (destruct H as [H | H]; [discriminate |]). exact H.
Qed.

(** The two rule 5 examples of the specification. *)
Example rule5_hardcoded_name :
  fix_content (txt "border_color.into()") = Some (txt "iced::Color::from(border_color)").
Proof. vm_compute; reflexivity. Qed.

Example rule5_other_name :
  fix_content (txt "unrelated_color.into()") = Some (txt "unrelated_color.into()").
Proof. vm_compute; reflexivity. Qed.

(* ===================================================================== *)
(** ** Lines that can be printed *)
(* ===================================================================== *)

Lemma txt_app (a b : string) : txt (a +:+ b) = txt a ++ txt b.
Proof.
  unfold txt. induction a as [| c a IH]; simpl; [reflexivity |].
  f_equal. exact IH.
Qed.

(** ASCII text before a line does not change whether it can be encoded. *)
Lemma utf8_valid_ascii_app a p :
  forallb (fun c => Nat.ltb (nat_of_ascii c) 128) a = true ->
  utf8_valid [] (a ++ p) = utf8_valid [] p.
Proof.
  induction a as [| c a IH]; intros Ha; [reflexivity |].
  cbn [forallb] in Ha. apply andb_true_iff in Ha as [Hc Ha].
  cbn [app utf8_valid]. unfold utf8_lead. rewrite Hc. apply IH, Ha.
Qed.

Lemma utf8_valid_ascii a :
  forallb (fun c => Nat.ltb (nat_of_ascii c) 128) a = true -> utf8_valid [] a = true.
Proof.
  intros Ha. rewrite <- (app_nil_r a), (utf8_valid_ascii_app _ _ Ha). reflexivity.
Qed.

Lemma printable_fixed_line path : printable (fixed_line path) = printable path.
Proof.
  unfold printable, fixed_line. rewrite txt_app.
  apply utf8_valid_ascii_app. vm_compute. reflexivity.
Qed.

Lemma string_of_uint_ascii (d : Decimal.uint) :
  forallb (fun c => Nat.ltb (nat_of_ascii c) 128) (txt (NilEmpty.string_of_uint d)) = true.
Proof. induction d; simpl; auto. Qed.

(** The summary line can always be printed. *)
Lemma printable_summary n :
  printable ("Modified " +:+ show_nat n +:+ " files") = true.
Proof.
  unfold printable. rewrite !txt_app. apply utf8_valid_ascii.
  rewrite !forallb_app. unfold show_nat. rewrite string_of_uint_ascii. reflexivity.
Qed.

Lemma print_summary n w :
  print ("Modified " +:+ show_nat n +:+ " files") w
  = (inr tt, World (links w) (files w) (globbed w)
               (stdout w ++ [("Modified " +:+ show_nat n +:+ " files")%string]) (written w)).
Proof. unfold print. rewrite printable_summary. reflexivity. Qed.

Lemma main_unfold w :
  main w
  = match main_loop (globbed w) 0 w with
    | (inl e, w1) => (inl e, w1)
    | (inr n, w1) => print ("Modified " +:+ show_nat n +:+ " files") w1
    end.
Proof. reflexivity. Qed.

(* ===================================================================== *)
(** ** One file *)
(* ===================================================================== *)

Lemma target_links w w' path : links w' = links w -> target w' path = target w path.
Proof. intros H. unfold target. rewrite H. reflexivity. Qed.

(** The call after the text was read and found changed. *)
Lemma write_and_report w path f content :
  files w !! target w path = Some f -> writable f = true ->
  (let* _ := write_text path content in
   let* _ := print ("Fixed color conversions in " +:+ path) in ret true) w
  = if printable path
    then (inr true, overwritten w path f content)
    else (inl (UnicodeEncodeError (fixed_line path)), unreported w path f content).
Proof.
  intros Hf Hw. unfold bind at 1. unfold write_text. rewrite Hf, Hw.
  unfold bind, print. fold (fixed_line path). rewrite printable_fixed_line.
  destruct (printable path); reflexivity.
Qed.

Lemma fix_color_conversions_healthy w path f content :
  files w !! target w path = Some f -> readable f = true -> writable f = true ->
  data f = Some content ->
  fix_color_conversions path w
  = if bool_decide (rule_engine content <> content)
    then if printable path
         then (inr true, overwritten w path f (rule_engine content))
         else (inl (UnicodeEncodeError (fixed_line path)),
               unreported w path f (rule_engine content))
    else (inr false, w).
Proof.
  intros Hf Hr Hw Hd.
  unfold fix_color_conversions. unfold bind at 1. unfold read_text. rewrite Hf, Hr, Hd.
  rewrite fix_content_eq. unfold bind at 1. cbn [lift_re ret].
  destruct (bool_decide (rule_engine content <> content)); [| reflexivity].
  apply (write_and_report w path f (rule_engine content) Hf Hw).
Qed.

Lemma fix_color_conversions_fails w path e :
  fails w path e -> fix_color_conversions path w = (inl e, w).
Proof.
  intros H. unfold fix_color_conversions. unfold bind at 1. unfold read_text.
  destruct H as [Hf | f Hf Hr | f Hf Hr Hd | f content Hf Hr Hd Hne Hw]; rewrite Hf.
  - reflexivity.
  - rewrite Hr. reflexivity.
  - rewrite Hr, Hd. reflexivity.
  - rewrite Hr, Hd, fix_content_eq. unfold bind at 1. cbn [lift_re ret].
    rewrite (bool_decide_eq_true_2 _ Hne).
    unfold bind at 1. unfold write_text. rewrite Hf, Hw. reflexivity.
Qed.

(** The ways a call can end. *)
Lemma fix_color_conversions_cases path w :
  (exists e, fails w path e /\ fix_color_conversions path w = (inl e, w)) \/
  (exists f content,
     files w !! target w path = Some f /\ readable f = true /\ data f = Some content /\
     ((rule_engine content = content /\ fix_color_conversions path w = (inr false, w)) \/
      (rule_engine content <> content /\ writable f = true /\ printable path = true /\
       fix_color_conversions path w = (inr true, overwritten w path f (rule_engine content))) \/
      (rule_engine content <> content /\ writable f = true /\ printable path = false /\
       fix_color_conversions path w
       = (inl (UnicodeEncodeError (fixed_line path)),
          unreported w path f (rule_engine content))))).
Proof.
  destruct (files w !! target w path) as [f |] eqn:Hf; cycle 1.
  { left. exists (OSError path).
    split; [apply fails_missing, Hf | apply fix_color_conversions_fails, fails_missing, Hf]. }
  destruct (readable f) eqn:Hr; cycle 1.
  { left. exists (OSError path). pose proof (fails_unreadable w path f Hf Hr) as H.
    split; [exact H | apply fix_color_conversions_fails, H]. }
  destruct (data f) as [content |] eqn:Hd; cycle 1.
  { left. exists (UnicodeDecodeError path).
    pose proof (fails_undecodable w path f Hf Hr Hd) as H.
    split; [exact H | apply fix_color_conversions_fails, H]. }
  destruct (decide (rule_engine content = content)) as [Heq | Hne].
  - right. exists f, content. repeat split; try assumption. left. split; [exact Heq |].
    unfold fix_color_conversions. unfold bind at 1. unfold read_text. rewrite Hf, Hr, Hd.
    rewrite fix_content_eq. unfold bind at 1. cbn [lift_re ret].
    rewrite bool_decide_eq_false_2 by (intros H; exact (H Heq)). reflexivity.
  - destruct (writable f) eqn:Hw; cycle 1.
    { left. exists (OSError path).
      pose proof (fails_unwritable w path f content Hf Hr Hd Hne Hw) as H.
      split; [exact H | apply fix_color_conversions_fails, H]. }
    right. exists f, content. repeat split; try assumption. right.
    rewrite (fix_color_conversions_healthy w path f content Hf Hr Hw Hd).
    rewrite (bool_decide_eq_true_2 _ Hne).
    destruct (printable path); [left | right]; auto.
Qed.

(** Whatever happens, a call touches no file but the one its path leads
    to, and keeps the links and what [glob.glob] answered. *)
Lemma fix_color_conversions_frame w path r w' :
  fix_color_conversions path w = (r, w') ->
  globbed w' = globbed w /\ links w' = links w /\
  forall q, q <> target w path -> files w' !! q = files w !! q.
Proof.
  intros Hcall.
  destruct (fix_color_conversions_cases path w)
    as [(e & _ & H) | (f & content & Hf & Hr & Hd &
                       [(_ & H) | [(_ & _ & _ & H) | (_ & _ & _ & H)]])];
    rewrite H in Hcall; injection Hcall as <- <-; auto;
    (split; [reflexivity | split; [reflexivity |]]);
    intros q Hq; cbn [overwritten unreported files]; apply lookup_insert_ne; congruence.
Qed.


(* ===================================================================== *)
(** ** The whole run *)
(* ===================================================================== *)







(** Two matched paths that lead to one file: the file is written once, and
    counted once. *)
Example linked_paths_written_once :
  fst (main sample_world_linked) = inr tt /\
  written (snd (main sample_world_linked)) = ["a.rs"; "l.rs"]%string /\
  stdout (snd (main sample_world_linked))
  = ["Fixed color conversions in a.rs"; "Fixed color conversions in l.rs";
     "Modified 2 files"]%string /\
  files (snd (main sample_world_linked)) !! "../notes.txt"%string
  = Some (File true true (Some (txt "iced::Color::from(text_color)"))).
Proof. repeat split; vm_compute; reflexivity. Qed.

(** A path that cannot be printed: the file is rewritten, then [print]
    raises and the run ends without a line for it. *)
Example unprintable_path_aborts_after_write :
  fst (main sample_world_unprintable)
  = inl (UnicodeEncodeError (fixed_line (String (ascii_of_nat 255) ".rs"))) /\
  written (snd (main sample_world_unprintable)) = [String (ascii_of_nat 255) ".rs"] /\
  stdout (snd (main sample_world_unprintable)) = [] /\
  files (snd (main sample_world_unprintable)) !! String (ascii_of_nat 255) ".rs"
  = Some (File true true (Some (txt "iced::Color::from(text_color)"))).
Proof. repeat split; vm_compute; reflexivity. Qed.

(* ===================================================================== *)
(** ** A run that meets an error *)
(* ===================================================================== *)

Lemma main_loop_app paths1 paths2 n w :
  main_loop (paths1 ++ paths2) n w
  = match main_loop paths1 n w with
    | (inl e, w1) => (inl e, w1)
    | (inr n1, w1) => main_loop paths2 n1 w1
    end.
Proof.
  revert n w; induction paths1 as [| p paths1 IH]; intros n w; [reflexivity |].
  cbn [app main_loop]. unfold bind.
  destruct (fix_color_conversions p w) as [[e | b] w1]; [reflexivity | apply IH].
Qed.

Lemma main_loop_frame paths n w r w' :
  main_loop paths n w = (r, w') ->
  globbed w' = globbed w /\ links w' = links w /\
  forall q, ~ In q (map (target w) paths) -> files w' !! q = files w !! q.
Proof.
  revert n w; induction paths as [| p paths IH]; intros n w.
  - intros [= <- <-]. auto.
  - cbn [main_loop]. unfold bind at 1.
    destruct (fix_color_conversions p w) as [[e | b] w1] eqn:E;
      destruct (fix_color_conversions_frame _ _ _ _ E) as (Hg & Hl & Hf).
    + intros [= <- <-]. split; [exact Hg |]. split; [exact Hl |].
      intros q Hq. apply Hf. intros ->. apply Hq. left; reflexivity.
    + intros Hrun. destruct (IH _ _ Hrun) as (Hg' & Hl' & Hf').
      split; [congruence |]. split; [congruence |]. intros q Hq. cbn [map In] in Hq.
      rewrite Hf'.
      * apply Hf. intros ->. apply Hq. left; reflexivity.
      * intros Hin. apply Hq. right.
        erewrite map_ext in Hin; [exact Hin |].
        intros a. cbv beta. apply target_links, Hl.
Qed.

(** C8: when the files before [path] are processed and the call for [path]
    raises (the path is missing or may not be read, the bytes do not decode,
    or the changed text may not be written), the run ends there with that
    exception: no summary is printed, the state is the one the earlier
    iterations left (what they rewrote stays rewritten), the failing call
    changed nothing, and every file not yet processed (no earlier path
    leads to it) holds what it held at the start. *)
Theorem error_aborts_run (w w1 : world) (paths1 paths2 : list string)
    (path : string) (n1 : nat) (e : exn) :
  globbed w = paths1 ++ path :: paths2 ->
  main_loop paths1 0 w = (inr n1, w1) ->
  fails w1 path e ->
  main w = (inl e, w1) /\
  fix_color_conversions path w1 = (inl e, w1) /\
  (forall q, ~ In q (map (target w) paths1) -> files w1 !! q = files w !! q).
Proof.
  intros Hglob Hrun Hfail.
  pose proof (fix_color_conversions_fails _ _ _ Hfail) as Hcall.
  split; [| split].
  - unfold main, bind at 1 2, glob_glob. rewrite Hglob, main_loop_app, Hrun.
    cbn [main_loop]. unfold bind at 1. rewrite Hcall. reflexivity.
  - exact Hcall.
  - apply (main_loop_frame _ _ _ _ _ Hrun).
Qed.

Lemma error_aborts_run_witness :
  main sample_world_unreadable
  = (inl (OSError "c.rs"), snd (main_loop ["a.rs"%string] 0 sample_world_unreadable)).
Proof.
  apply (error_aborts_run sample_world_unreadable
           (snd (main_loop ["a.rs"%string] 0 sample_world_unreadable))
           ["a.rs"%string] ["d.rs"%string] "c.rs"%string 1 (OSError "c.rs")).
  - reflexivity.
  - vm_compute. reflexivity.
  - apply (fails_unreadable _ _ (File false true (Some (txt "text_color.into()"))));
      vm_compute; reflexivity.
Defined.

(** The run of the witness, computed: the first file is rewritten and
    reported, the unreadable one raises, the one after it is untouched and
    no summary is printed. *)
Example error_aborts_run_computed :
  fst (main sample_world_unreadable) = inl (OSError "c.rs") /\
  written (snd (main sample_world_unreadable)) = ["a.rs"%string] /\
  stdout (snd (main sample_world_unreadable)) = ["Fixed color conversions in a.rs"%string] /\
  files (snd (main sample_world_unreadable)) !! "a.rs"%string
  = Some (File true true (Some (txt "x = iced::Color::from(border_color);"))) /\
  files (snd (main sample_world_unreadable)) !! "d.rs"%string
  = Some (File true true (Some (txt "y = text_color.into();"))).
Proof. repeat split; vm_compute; reflexivity. Qed.

(* ===================================================================== *)
(** ** More on one call of [fix_color_conversions] *)
(* ===================================================================== *)


(** What one call does to the log of writes and to the printed lines: it
    returns [True] exactly when it wrote the file and printed the line for
    it; it raises [UnicodeEncodeError] exactly when it wrote the file and
    could not print the line; otherwise it wrote and printed nothing. *)
Lemma fix_color_conversions_log path w :
  let r := fst (fix_color_conversions path w) in
  let w' := snd (fix_color_conversions path w) in
  (r = inr true /\ written w' = written w ++ [path] /\
   stdout w' = stdout w ++ [fixed_line path]) \/
  (r = inl (UnicodeEncodeError (fixed_line path)) /\ printable path = false /\
   written w' = written w ++ [path] /\ stdout w' = stdout w) \/
  ((r = inr false \/ exists e, r = inl e /\ forall l, e <> UnicodeEncodeError l) /\
   written w' = written w /\ stdout w' = stdout w).
Proof.
  cbv zeta.
  destruct (fix_color_conversions_cases path w)
    as [(e & Hfail & H) | (f & content & Hf & Hr & Hd &
                           [(_ & H) | [(_ & _ & _ & H) | (_ & _ & Hp & H)]])];
    rewrite H; cbn [fst snd].
  - right; right. split; [| auto]. right. exists e. split; [reflexivity |].
    intros l. destruct Hfail; discriminate.
  - right; right. auto.
  - left. auto.
  - right; left. auto.
Qed.

(** What one call does to the files: the links, the set of files and the
    permissions stay, and only the file the path leads to can change. *)
Lemma fix_color_conversions_keeps path w q :
  let w' := snd (fix_color_conversions path w) in
  links w' = links w /\
  match files w !! q with
  | None => files w' !! q = None
  | Some f =>
      exists f', files w' !! q = Some f' /\
                 readable f' = readable f /\ writable f' = writable f /\
                 (q <> target w path -> f' = f)
  end.
Proof.
  cbv zeta.
  assert (Hsame : match files w !! q with
                  | None => files w !! q = None
                  | Some f => exists f', files w !! q = Some f' /\
                                readable f' = readable f /\ writable f' = writable f /\
                                (q <> target w path -> f' = f)
                  end)
    by (destruct (files w !! q) as [f |]; [exists f |]; auto).
  assert (Hins : forall f content,
            files w !! target w path = Some f -> writable f = true ->
            match files w !! q with
            | None => <[target w path := File (readable f) true (Some content)]> (files w) !! q
                      = None
            | Some g => exists f',
                <[target w path := File (readable f) true (Some content)]> (files w) !! q
                = Some f' /\
                readable f' = readable g /\ writable f' = writable g /\
                (q <> target w path -> f' = g)
            end).
  { intros f content Hf Hw. destruct (decide (q = target w path)) as [-> | Hne].
    - rewrite Hf, lookup_insert_eq. eexists. split; [reflexivity |].
      cbn [readable writable]. repeat split; auto. congruence.
    - rewrite lookup_insert_ne by congruence.
      destruct (files w !! q) as [g |]; [exists g |]; auto. }
  destruct (fix_color_conversions_cases path w)
    as [(e & _ & H) | (f & content & Hf & Hr & Hd &
                       [(_ & H) | [(_ & Hw & _ & H) | (_ & Hw & _ & H)]])];
    rewrite H; cbn [snd overwritten unreported links files];
    (split; [reflexivity |]);
    first [exact Hsame | exact (Hins f (rule_engine content) Hf Hw)].
Qed.

(* ===================================================================== *)
(** ** More on the whole run *)
(* ===================================================================== *)

Lemma main_loop_log : forall paths n w,
  exists ws,
    written (snd (main_loop paths n w)) = written w ++ ws /\
    (forall p, In p ws -> In p paths) /\
    match fst (main_loop paths n w) with
    | inr m =>
        m = n + length ws /\
        stdout (snd (main_loop paths n w)) = stdout w ++ map fixed_line ws
    | inl (UnicodeEncodeError line) =>
        exists ws0 p,
          ws = ws0 ++ [p] /\ line = fixed_line p /\ printable p = false /\
          stdout (snd (main_loop paths n w)) = stdout w ++ map fixed_line ws0
    | inl _ => stdout (snd (main_loop paths n w)) = stdout w ++ map fixed_line ws
    end.
Proof.
  induction paths as [| path paths IH]; intros n w.
  - exists []. cbn [main_loop map length]. unfold ret. cbn [fst snd].
    rewrite !app_nil_r. split; [reflexivity | split; [intros p [] |]].
    split; [lia | reflexivity].
  - cbn [main_loop]. unfold bind.
    pose proof (fix_color_conversions_log path w) as Hlog. cbv zeta in Hlog.
    destruct (fix_color_conversions path w) as [[e | b] w1]; cbn [fst snd] in Hlog |- *.
    + destruct Hlog as [(Hr & _) | [(Hr & Hp & Hw1 & Ho1) | ([Hr | (e0 & Hr & He)] & Hw1 & Ho1)]];
        try discriminate Hr.
      * injection Hr as ->. exists [path]. split; [exact Hw1 |].
        split; [intros p [<- | []]; left; reflexivity |].
        exists [], path. cbn [map app]. rewrite app_nil_r. auto.
      * injection Hr as ->. exists []. rewrite app_nil_r.
        split; [exact Hw1 |]. split; [intros p [] |].
        cbn [map]. rewrite app_nil_r.
        destruct e0; try exact Ho1. exfalso. exact (He _ eq_refl).
    + destruct (IH (if b then n + 1 else n) w1) as (ws & Hw & Hin & Hres).
      destruct Hlog as [(Hr & Hw1 & Ho1) | [(Hr & _) | ([Hr | (e0 & Hr & _)] & Hw1 & Ho1)]];
        try discriminate Hr.
      * injection Hr as ->. exists (path :: ws).
        rewrite Hw, Hw1, <- app_assoc. split; [reflexivity |].
        split; [intros p [<- | Hp]; [left; reflexivity | right; apply Hin, Hp] |].
        destruct (fst (main_loop paths (n + 1) w1)) as [e | m].
        -- destruct e; try (rewrite Hres, Ho1, <- app_assoc; reflexivity).
           destruct Hres as (ws0 & p & -> & -> & Hp & Hres).
           exists (path :: ws0), p. rewrite Hres, Ho1, <- app_assoc. auto.
        -- destruct Hres as [-> Hres]. rewrite Hres, Ho1, <- app_assoc.
           cbn [length]. split; [lia | reflexivity].
      * injection Hr as ->. exists ws.
        rewrite Hw, Hw1. split; [reflexivity |].
        split; [intros p Hp; right; apply Hin, Hp |].
        rewrite Ho1 in Hres. exact Hres.
Qed.

(** Whatever the files are and however the run ends, the lines printed are
    one [Fixed color conversions in ...] line per write, in the order of the
    writes, with one exception: when the run ends with [UnicodeEncodeError],
    the last write is the one whose line could not be printed, and it has no
    line.  The summary, with the number of writes, follows when the run ends
    without an exception, and nothing when it is aborted.  Only matched paths
    are written. *)
Theorem run_reports_every_write (w : world) :
  exists ws,
    written (snd (main w)) = written w ++ ws /\
    (forall p, In p ws -> In p (globbed w)) /\
    match fst (main w) with
    | inr _ =>
        stdout (snd (main w))
        = stdout w ++ map fixed_line ws
            ++ [("Modified " +:+ show_nat (length ws) +:+ " files")%string]
    | inl (UnicodeEncodeError line) =>
        exists ws0 p,
          ws = ws0 ++ [p] /\ line = fixed_line p /\ printable p = false /\
          stdout (snd (main w)) = stdout w ++ map fixed_line ws0
    | inl _ => stdout (snd (main w)) = stdout w ++ map fixed_line ws
    end.
Proof.
  destruct (main_loop_log (globbed w) 0 w) as (ws & Hw & Hin & Hres).
  exists ws. rewrite main_unfold.
  destruct (main_loop (globbed w) 0 w) as [[e | n] w1]; cbn [fst snd] in *.
  - split; [exact Hw |]. split; [exact Hin |]. exact Hres.
  - rewrite print_summary. cbn [fst snd written stdout].
    destruct Hres as [-> Hres]. rewrite Hres, <- app_assoc. auto.
Qed.

Lemma main_loop_keeps : forall paths n w q,
  links (snd (main_loop paths n w)) = links w /\
  match files w !! q with
  | None => files (snd (main_loop paths n w)) !! q = None
  | Some f =>
      exists f', files (snd (main_loop paths n w)) !! q = Some f' /\
                 readable f' = readable f /\ writable f' = writable f /\
                 (~ In q (map (target w) paths) -> f' = f)
  end.
Proof.
  induction paths as [| path paths IH]; intros n w q.
  - cbn [main_loop]. unfold ret. cbn [snd]. split; [reflexivity |].
    destruct (files w !! q) as [f |]; [exists f |]; auto.
  - cbn [main_loop]. unfold bind.
    pose proof (fix_color_conversions_keeps path w q) as Hk. cbv zeta in Hk.
    destruct (fix_color_conversions path w) as [[e | b] w1]; cbn [snd] in Hk |- *.
    + destruct Hk as [Hl Hk]. split; [exact Hl |].
      destruct (files w !! q) as [f |]; [| exact Hk].
      destruct Hk as (f' & Hf' & Hr & Hw & Hne). exists f'. repeat split; auto.
      intros Hq. apply Hne. intros ->. apply Hq. left; reflexivity.
    + destruct Hk as [Hl Hk].
      destruct (IH (if b then n + 1 else n) w1 q) as [Hl' IHq].
      split; [congruence |].
      assert (Htgt : map (target w1) paths = map (target w) paths)
        by (apply map_ext; intros a; apply target_links, Hl).
      rewrite Htgt in IHq.
      destruct (files w !! q) as [f |].
      * destruct Hk as (f1 & Hf1 & Hr1 & Hw1 & Hne1). rewrite Hf1 in IHq.
        destruct IHq as (f' & Hf' & Hr & Hw & Hne). exists f'.
        repeat split; try congruence.
        intros Hq. cbn [map In] in Hq.
        rewrite Hne by (intros Hin; apply Hq; right; exact Hin).
        apply Hne1. intros ->. apply Hq. left; reflexivity.
      * rewrite Hk in IHq. exact IHq.
Qed.

(** Whatever the files are and however the run ends, the run creates and
    deletes no file, changes no link and no permission, and a file that no
    path returned by [glob.glob] leads to holds what it held.  (A file
    outside the directory is rewritten when a matched path is a link to
    it.) *)
Theorem run_keeps_other_files (w : world) (q : string) :
  links (snd (main w)) = links w /\
  match files w !! q with
  | None => files (snd (main w)) !! q = None
  | Some f =>
      exists f', files (snd (main w)) !! q = Some f' /\
                 readable f' = readable f /\ writable f' = writable f /\
                 (~ In q (map (target w) (globbed w)) -> f' = f)
  end.
Proof.
  pose proof (main_loop_keeps (globbed w) 0 w q) as Hk.
  rewrite main_unfold.
  destruct (main_loop (globbed w) 0 w) as [[e | n] w1]; cbn [snd] in Hk |- *;
    [exact Hk |].
  rewrite print_summary. cbn [snd links files]. exact Hk.
Qed.

Lemma rule_engine_fixed_point t : rule_engine (rule_engine t) = rule_engine t.
Proof.
  apply run_rules_fixed; [exact rules_ok |].
  intros r Hr. apply run_rules_clears; [exact rules_ok | exact Hr].
Qed.

Lemma settled_ext w w' path :
  links w' = links w -> files w' = files w -> settled w path -> settled w' path.
Proof.
  intros Hl Hf (f & c & H & Hrest). exists f, c.
  rewrite (target_links _ _ _ Hl), Hf. auto.
Qed.

(** A call that returns leaves its file settled, and every settled file
    settled. *)
Lemma call_settles path w b w' :
  fix_color_conversions path w = (inr b, w') ->
  links w' = links w /\ globbed w' = globbed w /\
  settled w' path /\ forall q, settled w q -> settled w' q.
Proof.
  intros Hcall.
  destruct (fix_color_conversions_cases path w)
    as [(e & _ & H) | (f & content & Hf & Hr & Hd &
                       [(Heq & H) | [(_ & _ & _ & H) | (_ & _ & _ & H)]])];
    rewrite H in Hcall; try discriminate Hcall; injection Hcall as <- <-.
  - split; [reflexivity |]. split; [reflexivity |]. split; [| auto].
    exists f, content. auto.
  - split; [reflexivity |]. split; [reflexivity |].
    assert (Hown : settled (overwritten w path f (rule_engine content)) path).
    { exists (File (readable f) true (Some (rule_engine content))), (rule_engine content).
      split; [cbn [overwritten files]; apply lookup_insert_eq |].
      cbn [readable data]. repeat split; auto. apply rule_engine_fixed_point. }
    split; [exact Hown |].
    intros q (g & c & Hg & Hrg & Hdg & Hfix).
    destruct (decide (target w q = target w path)) as [E | Hne].
    + destruct Hown as (g' & c' & Hg' & Hrest). exists g', c'.
      split; [| exact Hrest].
      change (target (overwritten w path f (rule_engine content)) q) with (target w q).
      change (target (overwritten w path f (rule_engine content)) path)
        with (target w path) in Hg'.
      rewrite E. exact Hg'.
    + exists g, c. split; [| auto].
      change (target (overwritten w path f (rule_engine content)) q) with (target w q).
      cbn [overwritten files]. rewrite lookup_insert_ne by congruence. exact Hg.
Qed.

Lemma main_loop_settles : forall paths n w m w',
  main_loop paths n w = (inr m, w') ->
  links w' = links w /\ globbed w' = globbed w /\
  Forall (settled w') paths /\ forall q, settled w q -> settled w' q.
Proof.
  induction paths as [| path paths IH]; intros n w m w'.
  - intros [= <- <-]. repeat split; auto.
  - cbn [main_loop]. unfold bind at 1.
    destruct (fix_color_conversions path w) as [[e | b] w1] eqn:E; [discriminate |].
    intros Hrun.
    destruct (call_settles _ _ _ _ E) as (Hl & Hg & Hown & Hkeep).
    destruct (IH _ _ _ _ Hrun) as (Hl' & Hg' & Hall & Hkeep').
    split; [congruence |]. split; [congruence |]. split.
    + apply Forall_cons_2; [apply Hkeep', Hown | exact Hall].
    + intros q Hq. apply Hkeep', Hkeep, Hq.
Qed.

(** The loop over settled files writes nothing and counts nothing. *)
Lemma main_loop_settled : forall paths n w,
  Forall (settled w) paths -> main_loop paths n w = (inr n, w).
Proof.
  induction paths as [| path paths IH]; intros n w Hall; [reflexivity |].
  apply Forall_cons in Hall as [(f & c & Hf & Hr & Hd & Hfix) Hall].
  cbn [main_loop]. unfold bind at 1.
  assert (Hcall : fix_color_conversions path w = (inr false, w)).
  { unfold fix_color_conversions. unfold bind at 1. unfold read_text. rewrite Hf, Hr, Hd.
    rewrite fix_content_eq. unfold bind at 1. cbn [lift_re ret].
    rewrite bool_decide_eq_false_2 by (intros H; exact (H Hfix)). reflexivity. }
  rewrite Hcall. apply IH, Hall.
Qed.

(** Running the script a second time does nothing: after a run that ended
    without an exception, a second run ends without an exception, writes no
    file, leaves every file and link as the first run left it, and prints
    only the summary [Modified 0 files]. *)
Theorem second_run_changes_nothing (w w1 : world) :
  main w = (inr tt, w1) ->
  exists w2,
    main w1 = (inr tt, w2) /\
    links w2 = links w1 /\ files w2 = files w1 /\ written w2 = written w1 /\
    stdout w2 = stdout w1 ++ ["Modified 0 files"%string].
Proof.
  unfold main at 1. unfold bind at 1. unfold glob_glob. unfold bind at 1.
  destruct (main_loop (globbed w) 0 w) as [[e | m] w0] eqn:Hrun; [discriminate |].
  rewrite print_summary. intros [= <-].
  destruct (main_loop_settles _ _ _ _ _ Hrun) as (Hl & Hg & Hall & _).
  set (w1 := World (links w0) (files w0) (globbed w0)
                   (stdout w0 ++ [("Modified " +:+ show_nat m +:+ " files")%string])
                   (written w0)).
  assert (Hall1 : Forall (settled w1) (globbed w1)).
  { cbn [w1 globbed]. rewrite Hg. eapply Forall_impl; [exact Hall |].
    intros p Hp. apply (settled_ext w0); [reflexivity | reflexivity | exact Hp]. }
  eexists. split.
  - unfold main. unfold bind at 1. unfold glob_glob. unfold bind at 1.
    rewrite (main_loop_settled _ 0 w1 Hall1). apply (print_summary 0 w1).
  - repeat split.
Qed.

Lemma second_run_changes_nothing_witness :
  exists w2,
    main (snd (main sample_world_linked)) = (inr tt, w2) /\
    written w2 = ["a.rs"; "l.rs"]%string /\
    stdout w2 = ["Fixed color conversions in a.rs"; "Fixed color conversions in l.rs";
                 "Modified 2 files"; "Modified 0 files"]%string.
Proof.
  destruct (second_run_changes_nothing sample_world_linked (snd (main sample_world_linked)))
    as (w2 & Hmain & _ & _ & Hwr & Hout); [vm_compute; reflexivity |].
  exists w2. split; [exact Hmain |]. split.
  - rewrite Hwr. vm_compute. reflexivity.
  - rewrite Hout. vm_compute. reflexivity.
Defined.

(* ===================================================================== *)
(** ** What every rule does to a match *)
(* ===================================================================== *)

Lemma re5_wraps var M caps :
  lang (re5 var) M caps ->
  M = txt var ++ txt ".into()" /\
  expand (tm5 var) caps = txt "iced::Color::from(" ++ txt var ++ txt ")".
Proof.
  intros HL. apply lang_re5 in HL as [-> ->]. split; [apply txt_app |].
  unfold tm5, tlit. rewrite expand_tlit, !txt_app. reflexivity.
Qed.

(** Every rule takes a match [E.into()] to [iced::Color::from(E)], with the
    same [E]. *)
Lemma rule_wraps :
  Forall (fun r : rule =>
            forall M caps, lang (fst r) M caps ->
              exists E, M = E ++ txt ".into()" /\
                        expand (snd r) caps = txt "iced::Color::from(" ++ E ++ txt ")")
         rules.
Proof.
  unfold rules. apply Forall_app; split.
  - repeat apply Forall_cons_2; [| | | | apply Forall_nil_2]; cbn [fst snd]; intros M caps HL.
    + apply lang_re1 in HL as (n & _ & _ & -> & ->).
      exists (txt "self.theme.scheme." ++ n). rewrite expand_tm1, <- !app_assoc. auto.
    + apply lang_re2 in HL as (n & _ & _ & -> & ->).
      exists (txt "theme.scheme." ++ n). rewrite expand_tm2, <- !app_assoc. auto.
    + apply lang_re3 in HL as (n & N & _ & _ & _ & _ & -> & ->).
      exists (txt "self.theme.scheme." ++ n ++ txt ".scale_alpha(" ++ N ++ txt ")").
      rewrite expand_tm3, <- !app_assoc. auto.
    + apply lang_re4 in HL as (n & N & _ & _ & _ & _ & -> & ->).
      exists (txt "theme.scheme." ++ n ++ txt ".scale_alpha(" ++ N ++ txt ")").
      rewrite expand_tm4, <- !app_assoc. auto.
  - unfold rules5, color_vars; cbn [map].
    repeat (apply Forall_cons_2;
            [cbn [fst snd]; intros M caps HL; eexists; exact (re5_wraps _ _ _ HL) |]).
    apply Forall_nil_2.
Qed.

Lemma rules_zip :
  Forall2 (fun (sr : string * string) (r : rule) =>
             re_compile (fst sr) = Some (fst r) /\
             parse_template (txt (snd sr)) = Some (snd r))
          (combine all_patterns all_replacements) rules.
Proof.
  unfold all_patterns, all_replacements, rules, rules5, color_vars. cbn [map app combine].
  repeat (apply List.Forall2_cons; [split; vm_compute; reflexivity |]).
  apply List.Forall2_nil.
Qed.

(** Each pattern of the script, with the replacement string passed along
    with it, takes a receiver [E] followed by [.into()] to
    [iced::Color::from(E)]: when the pattern matches at the head of a text,
    the text is [E.into()] and what follows, and the template with the groups
    put in is [iced::Color::from(E)] for the same [E]. *)
Theorem every_rule_wraps_receiver :
  Forall (fun sr : string * string =>
            exists p tm,
              re_compile (fst sr) = Some p /\ parse_template (txt (snd sr)) = Some tm /\
              forall t caps rest,
                re_match p t = Some (caps, rest) ->
                exists E, t = E ++ txt ".into()" ++ rest /\
                          expand tm caps = txt "iced::Color::from(" ++ E ++ txt ")")
         (combine all_patterns all_replacements).
Proof.
  pose proof rules_zip as Hzip. pose proof rule_wraps as Hwrap. pose proof rules_ok as Hok.
  revert Hwrap Hok.
  induction Hzip as [| sr r srs rs [Hc Ht] _ IH]; intros Hwrap Hok; [apply Forall_nil_2 |].
  apply Forall_cons in Hwrap as [Hw Hwrap]. apply Forall_cons in Hok as [(Hg & _) Hok].
  apply Forall_cons_2; [| apply IH; assumption].
  exists (fst r), (snd r). split; [exact Hc | split; [exact Ht |]].
  intros t caps rest Hm.
  destruct (re_match_sound _ _ _ _ Hg Hm) as (M & -> & HL).
  destruct (Hw M caps HL) as (E & -> & HE).
  exists E. rewrite <- app_assoc. auto.
Qed.

(* ===================================================================== *)
(** ** The buffer changes exactly when a pattern matches *)
(* ===================================================================== *)

Lemma has_match_dec p t : guarded p = true -> has_match p t \/ ~ has_match p t.
Proof.
  intros Hg. induction t as [| a t IH].
  - destruct (re_match p []) as [[caps rest] |] eqn:E.
    + left. destruct (re_match_sound _ _ _ _ Hg E) as (M & HM & HL).
      exists [], M, caps, rest. auto.
    + right. intros (A & M & caps & B & HL & HM).
      symmetry in HM. apply app_eq_nil in HM as [-> HM]. cbn [app] in HM.
      rewrite <- HM, (re_match_complete _ _ _ _ Hg HL) in E. discriminate.
  - destruct (re_match p (a :: t)) as [[caps rest] |] eqn:E.
    + left. destruct (re_match_sound _ _ _ _ Hg E) as (M & HM & HL).
      exists [], M, caps, rest. auto.
    + destruct IH as [(A & M & caps & B & HL & ->) | Hno].
      * left. exists (a :: A), M, caps, B. auto.
      * right. intros (A & M & caps & B & HL & HM). destruct A as [| x A].
        -- cbn [app] in HM. rewrite HM, (re_match_complete _ _ _ _ Hg HL) in E. discriminate.
        -- injection HM as _ ->. apply Hno. exists A, M, caps, B. auto.
Qed.

Section Growth.

Variable p : regex.
Variable tm : template.
Hypothesis Hg : guarded p = true.
Hypothesis Hp : proper p = true.
Hypothesis Hgrow : forall M caps, lang p M caps -> length M < length (expand tm caps).

(** A scan never shortens the buffer, and lengthens it when it has a
    match. *)
Lemma sub_length : forall t,
  length t <= length (sub p tm t) /\
  (has_match p t -> length t < length (sub p tm t)).
Proof using Hg Hp Hgrow.
  intros t. remember (length t) as k eqn:Hk.
  revert t Hk; induction k as [k IH] using lt_wf_ind; intros t ->.
  destruct t as [| a t].
  { rewrite (sub_nil _ _ Hg Hp). split; [reflexivity |].
    intros (A & M & caps & B & HL & HM).
    symmetry in HM. apply app_eq_nil in HM as [_ HM]. apply app_eq_nil in HM as [-> _].
    destruct (lang_nonempty _ _ _ Hp HL). reflexivity. }
  destruct (re_match p (a :: t)) as [[caps rest] |] eqn:E.
  - destruct (re_match_sound _ _ _ _ Hg E) as (M & HM & HL).
    pose proof (lang_nonempty _ _ _ Hp HL) as HMne.
    pose proof (Hgrow _ _ HL) as Hlen.
    rewrite HM, (sub_match _ _ Hg Hp _ _ _ HL), !length_app.
    destruct (IH (length rest)) with (t := rest) as [Hge _]; [| reflexivity |].
    { rewrite HM, length_app. destruct M; [congruence | simpl; lia]. }
    split; [| intros _]; lia.
  - rewrite (sub_cons_nomatch _ _ _ _ E). cbn [length].
    destruct (IH (length t)) with (t := t) as [Hge Hgt]; [simpl; lia | reflexivity |].
    split; [lia |]. intros (A & M & caps & B & HL & HM).
    destruct A as [| x A].
    + cbn [app] in HM. rewrite HM, (re_match_complete _ _ _ _ Hg HL) in E. discriminate.
    + injection HM as _ ->.
      assert (length (A ++ M ++ B) < length (sub p tm (A ++ M ++ B)))
        by (apply Hgt; exists A, M, caps, B; auto).
      lia.
Qed.

End Growth.

Lemma rule_grows :
  Forall (fun r : rule =>
            forall M caps, lang (fst r) M caps -> length M < length (expand (snd r) caps))
         rules.
Proof.
  eapply Forall_impl; [exact rule_wraps |].
  intros r Hw M caps HL. destruct (Hw M caps HL) as (E & -> & ->).
  rewrite !length_app. simpl. lia.
Qed.

Lemma run_rules_length rs t :
  Forall rule_ok rs ->
  Forall (fun r : rule =>
            forall M caps, lang (fst r) M caps -> length M < length (expand (snd r) caps)) rs ->
  length t <= length (run_rules rs t) /\
  ((exists r, In r rs /\ has_match (fst r) t) -> length t < length (run_rules rs t)).
Proof.
  intros Hok Hgr. revert t Hgr.
  induction Hok as [| r rs (Hg & Hp & _) _ IH]; intros t Hgr.
  - split; [reflexivity |]. intros (r & [] & _).
  - apply Forall_cons in Hgr as [Hr Hgr]. rewrite run_rules_cons.
    destruct (sub_length _ _ Hg Hp Hr t) as [Hge Hgt].
    destruct (IH (sub (fst r) (snd r) t) Hgr) as [Hge' Hgt'].
    split; [lia |]. intros (r' & Hin & Hm).
    destruct (has_match_dec (fst r) t Hg) as [Hyes | Hno].
    + specialize (Hgt Hyes). lia.
    + destruct Hin as [<- | Hin]; [contradiction |].
      rewrite (sub_no_match _ _ Hg Hp _ Hno) in Hgt' |- *.
      apply Hgt'. exists r'. auto.
Qed.

Lemma rule_pattern r :
  In r rules -> exists pat, In pat all_patterns /\ re_compile pat = Some (fst r).
Proof.
  intros Hr.
  assert (H : exists sr, In sr (combine all_patterns all_replacements) /\
                         re_compile (fst sr) = Some (fst r)).
  { pose proof rules_zip as Hzip. revert Hr.
    induction Hzip as [| sr r0 srs rs [Hc _] _ IH]; intros Hr; [destruct Hr |].
    destruct Hr as [<- | Hr].
    - exists sr. split; [left; reflexivity | exact Hc].
    - destruct (IH Hr) as (sr' & Hin & Hc'). exists sr'. split; [right |]; assumption. }
  destruct H as ([pat repl] & Hin & Hc). exists pat. split; [| exact Hc].
  apply in_combine_l in Hin. exact Hin.
Qed.

(** The rule engine never shortens a buffer, and it returns the buffer as
    it was exactly when none of the script's patterns matches anywhere in
    it: the content compared with [original_content] differs as soon as one
    call site is found. *)
Theorem unchanged_iff_no_call_site (t : text) :
  exists out,
    fix_content t = Some out /\
    length t <= length out /\
    (out = t <->
     forall pat, In pat all_patterns ->
       exists p, re_compile pat = Some p /\ forall i, re_match p (drop i t) = None).
Proof.
  exists (rule_engine t). split; [apply fix_content_eq |].
  destruct (run_rules_length rules t rules_ok rule_grows) as [Hge Hgt].
  unfold rule_engine. split; [exact Hge |]. split.
  - intros Heq pat Hpat. destruct (pattern_rule pat Hpat) as (r & Hr & Hc).
    exists (fst r). split; [exact Hc |]. intros i.
    pose proof rules_ok as Hok. rewrite Forall_forall in Hok.
    destruct (Hok r (proj2 (list_elem_of_In _ _) Hr)) as (Hg & _).
    apply no_match_at; [exact Hg |]. intros Hm.
    assert (length t < length (run_rules rules t)) by (apply Hgt; exists r; auto).
    rewrite Heq in H. lia.
  - intros Hnone. apply run_rules_fixed; [exact rules_ok |].
    intros r Hr (A & M & caps & B & HL & ->).
    destruct (rule_pattern r Hr) as (pat & Hpat & Hc).
    destruct (Hnone pat Hpat) as (p & Hc' & Hno).
    rewrite Hc in Hc'. injection Hc' as <-.
    pose proof rules_ok as Hok. rewrite Forall_forall in Hok.
    destruct (Hok r (proj2 (list_elem_of_In _ _) Hr)) as (Hg & _).
    specialize (Hno (length A)).
    rewrite drop_app_length, (re_match_complete _ _ _ _ Hg HL) in Hno. discriminate.
Qed.

(* ===================================================================== *)
(** ** The patterns of the [color_vars] loop are literal *)
(* ===================================================================== *)

Lemma parse_regex_word_char c fuel s :
  is_word c = true ->
  parse_regex (S fuel) (c :: s)
  = match parse_regex fuel s with
    | Some p => Some (Chr c :: p)
    | None => None
    end.
Proof.
  intros Hc.
  destruct c as [[] [] [] [] [] [] [] []]; try (cbv in Hc; discriminate Hc); reflexivity.
Qed.

Lemma parse_regex_word l s fuel :
  forallb is_word l = true ->
  parse_regex (length l + fuel) (l ++ s)
  = match parse_regex fuel s with
    | Some p => Some (map Chr l ++ p)
    | None => None
    end.
Proof.
  induction l as [| c l IH]; intros Hl.
  - cbn [length app map Nat.add]. destruct (parse_regex fuel s); reflexivity.
  - cbn [forallb] in Hl. apply andb_true_iff in Hl as [Hc Hl].
    cbn [length app map Nat.add]. rewrite (parse_regex_word_char c _ _ Hc), (IH Hl).
    destruct (parse_regex fuel s); reflexivity.
Qed.

Lemma parse_template_plain_char c s :
  not_backslash c = true ->
  parse_template (c :: s)
  = match parse_template s with
    | Some tm => Some (TChr c :: tm)
    | None => None
    end.
Proof.
  intros Hc.
  destruct c as [[] [] [] [] [] [] [] []]; try (cbv in Hc; discriminate Hc); reflexivity.
Qed.

Lemma parse_template_plain l :
  forallb not_backslash l = true -> parse_template l = Some (map TChr l).
Proof.
  induction l as [| c l IH]; intros Hl; [reflexivity |].
  cbn [forallb] in Hl. apply andb_true_iff in Hl as [Hc Hl].
  rewrite (parse_template_plain_char c l Hc), (IH Hl). reflexivity.
Qed.

Lemma word_not_backslash l :
  forallb is_word l = true -> forallb not_backslash l = true.
Proof.
  apply forallb_weaken. intros c Hc.
  assert (Hb : implb (is_word c) (not_backslash c) = true)
    by (revert c Hc; intros c _; revert c; apply ascii_all; vm_compute; reflexivity).
  rewrite Hc in Hb. exact Hb.
Qed.

Lemma txt_length (s : string) : length (txt s) = String.length s.
Proof. unfold txt. induction s as [| c s IH]; simpl; [| rewrite IH]; reflexivity. Qed.

Lemma rule5_compiles var :
  forallb is_word (txt var) = true ->
  re_compile (pattern5 var) = Some (re5 var) /\
  parse_template (txt (replacement5 var)) = Some (tm5 var).
Proof.
  intros Hvar. split.
  - unfold re_compile, pattern5, re5, lit. rewrite <- txt_length, !txt_app, length_app.
    change (length (txt "\.into\(\)")) with 10.
    replace (S (length (txt var) + 10)) with (length (txt var) + 11) by lia.
    rewrite (parse_regex_word _ _ _ Hvar), map_app. reflexivity.
  - unfold replacement5, tm5, tlit. apply parse_template_plain.
    rewrite !txt_app, !forallb_app, (word_not_backslash _ Hvar). reflexivity.
Qed.

(** The [color_vars] loop over any list of names made of letters, digits
    and underscores: each pattern [rf'{var}\.into\(\)'] compiles to the
    literal text [<var>.into()] and each replacement to the literal text
    [iced::Color::from(<var>)] (no character of a name is read as regular
    expression syntax), so the loop never raises and is the sequence of the
    literal replacements, in the order of the list. *)
Theorem color_vars_loop_literal (vars : list string) (content : text) :
  Forall (fun var => forallb is_word (txt var) = true) vars ->
  Forall (fun var =>
            re_compile (pattern5 var) = Some (map Chr (txt var ++ txt ".into()")) /\
            parse_template (txt (replacement5 var))
            = Some (map TChr (txt "iced::Color::from(" ++ txt var ++ txt ")"))) vars /\
  color_vars_loop vars content
  = Some (fold_left (fun buf var =>
                       sub (map Chr (txt var ++ txt ".into()"))
                           (map TChr (txt "iced::Color::from(" ++ txt var ++ txt ")")) buf)
                    vars content).
Proof.
  intros Hvars.
  assert (Hre : forall var, re5 var = map Chr (txt var ++ txt ".into()"))
    by (intros var; unfold re5, lit; rewrite txt_app; reflexivity).
  assert (Htm : forall var,
            tm5 var = map TChr (txt "iced::Color::from(" ++ txt var ++ txt ")"))
    by (intros var; unfold tm5, tlit; rewrite !txt_app; reflexivity).
  assert (Hc : Forall (fun var => re_compile (pattern5 var) = Some (re5 var) /\
                         parse_template (txt (replacement5 var)) = Some (tm5 var)) vars).
  { eapply Forall_impl; [exact Hvars |]. intros var Hvar. apply rule5_compiles, Hvar. }
  split.
  - eapply Forall_impl; [exact Hc |]. intros var [H1 H2].
    rewrite <- Hre, <- Htm. auto.
  - rewrite (color_vars_loop_eq vars content Hc). f_equal.
    unfold run_rules. clear Hc Hvars. revert content.
    induction vars as [| var vars IH]; intros content; [reflexivity |].
    cbn [map fold_left]. unfold apply_rule at 2. cbn [fst snd].
    rewrite Hre, Htm. apply IH.
Qed.

Lemma color_vars_loop_literal_witness :
  color_vars_loop ["accent_color"; "shadow2"]%string (txt "a = accent_color.into();")
  = Some (fold_left (fun buf var =>
                       sub (map Chr (txt var ++ txt ".into()"))
                           (map TChr (txt "iced::Color::from(" ++ txt var ++ txt ")")) buf)
                    ["accent_color"; "shadow2"]%string (txt "a = accent_color.into();")).
Proof.
  apply (color_vars_loop_literal ["accent_color"; "shadow2"]%string).
  repeat (apply Forall_cons_2; [reflexivity |]). apply Forall_nil_2.
Defined.

(* ===================================================================== *)
(** ** The end of a buffer through a scan *)
(* ===================================================================== *)

Lemma starts_with_spec s t : starts_with s t = true <-> exists r, t = s ++ r.
Proof.
  revert t; induction s as [| c s IH]; intros t.
  - split; [intros _; exists t; reflexivity | reflexivity].
  - destruct t as [| a t]; cbn [starts_with].
    + split; [discriminate | intros [r Hr]; discriminate].
    + rewrite andb_true_iff, IH. split.
      * intros [Hac [r ->]]. apply Ascii.eqb_eq in Hac as ->. exists r; reflexivity.
      * intros [r [= -> ->]]. split; [apply Ascii.eqb_refl | exists r; reflexivity].
Qed.

Lemma ends_with_spec s t : ends_with s t = true <-> exists t0, t = t0 ++ s.
Proof.
  unfold ends_with. rewrite starts_with_spec. split.
  - intros [r Hr]. exists (rev r). apply (f_equal (@rev ascii)) in Hr.
    rewrite rev_involutive, rev_app_distr, rev_involutive in Hr. exact Hr.
  - intros [t0 ->]. exists (rev t0). apply rev_app_distr.
Qed.

Lemma ends_with_false s t : ends_with s t = false -> forall t0, t <> t0 ++ s.
Proof.
  intros H t0 Heq.
  assert (ends_with s t = true) by (apply ends_with_spec; exists t0; exact Heq).
  congruence.
Qed.

Lemma starts_with_stop (f : ascii -> bool) X r c z :
  forallb f X = true -> f c = false ->
  starts_with X (r ++ c :: z) = starts_with X r.
Proof.
  revert r; induction X as [| x X IH]; intros r HX Hc; [reflexivity |].
  cbn [forallb] in HX. apply andb_true_iff in HX as [Hx HX].
  destruct r as [| a r]; cbn [app starts_with].
  - destruct (Ascii.eqb_spec c x) as [-> | _]; [congruence | reflexivity].
  - rewrite (IH r HX Hc). reflexivity.
Qed.

(** After a parenthesis, only what follows it decides whether the text ends
    with a parenthesis-free [S]. *)
Lemma ends_with_after_paren S y c s :
  forallb no_paren S = true -> no_paren c = false ->
  ends_with S ((y ++ [c]) ++ s) = ends_with S s.
Proof.
  intros HS Hc. unfold ends_with.
  rewrite !rev_app_distr. cbn [rev app].
  apply (starts_with_stop no_paren); [rewrite forallb_rev; exact HS | exact Hc].
Qed.

Lemma paren_decompose (t : text) :
  exists t0 s,
    t = t0 ++ s /\ forallb no_paren s = true /\
    (t0 = [] \/ exists t1 c, t0 = t1 ++ [c] /\ no_paren c = false).
Proof.
  induction t as [| a t IH] using rev_ind.
  - exists [], []. auto.
  - destruct (no_paren a) eqn:Ha.
    + destruct IH as (t0 & s & -> & Hs & Ht0).
      exists t0, (s ++ [a]). rewrite <- app_assoc, forallb_app, Hs. cbn [forallb].
      rewrite Ha. auto.
    + exists (t ++ [a]), []. rewrite app_nil_r. split; [reflexivity |].
      split; [reflexivity |]. right. exists t, a. auto.
Qed.

Section Ends.

Variable p : regex.
Variable tm : template.
Hypothesis Hg : guarded p = true.
Hypothesis Hp : proper p = true.
Hypothesis Hs : forall M caps, lang p M caps ->
  match_shape M = true /\ repl_shape (expand tm caps) = true.

Lemma match_ends_call M caps : lang p M caps -> exists M0, M = M0 ++ ["("; ")"].
Proof using Hs.
  intros HL. destruct (Hs _ _ HL) as [HM _]. unfold match_shape in HM.
  apply andb_true_iff in HM as [HM _]. apply andb_true_iff in HM as [_ HM].
  apply ends_call_inv, HM.
Qed.

Lemma no_paren_no_match s : forallb no_paren s = true -> ~ has_match p s.
Proof using Hs.
  intros Hs' (A & M & caps & B & HL & ->).
  destruct (match_ends_call _ _ HL) as [M0 ->].
  rewrite !forallb_app in Hs'. cbn in Hs'.
  rewrite !andb_false_r in Hs'. discriminate.
Qed.

(** A parenthesis-free end of the buffer goes through the scan as it is. *)
Lemma sub_snoc_plain t s :
  forallb no_paren s = true -> sub p tm (t ++ s) = sub p tm t ++ s.
Proof using Hg Hp Hs.
  intros Hs'. rewrite (sub_app _ _ Hg Hp).
  - rewrite (sub_no_match _ _ Hg Hp s (no_paren_no_match s Hs')). reflexivity.
  - intros A M caps rest HA HL Heq.
    apply app_eq_app in Heq as [l [[-> _] | [-> Heq]]]; [rewrite length_app; lia |].
    destruct l as [| x l]; [rewrite app_nil_r; lia |]. exfalso.
    destruct (match_ends_call _ _ HL) as [M0 HM0].
    assert (Hlast : exists l0, x :: l = l0 ++ [")"]).
    { destruct (nonempty_snoc (x :: l)) as (l0 & c & Hl0); [discriminate |].
      rewrite Hl0 in HM0. change ["("; ")"] with (["("] ++ [")"]) in HM0.
      rewrite !app_assoc in HM0. apply app_inj_tail in HM0 as [_ ->].
      exists l0. exact Hl0. }
    destruct Hlast as [l0 Hl0]. rewrite Hl0 in Heq. rewrite Heq in Hs'.
    rewrite !forallb_app in Hs'. cbn in Hs'. rewrite !andb_false_r in Hs'. discriminate.
Qed.

(** The last character of the buffer goes through the scan: a match and its
    replacement both end with a closing parenthesis. *)
Lemma sub_last_char : forall t c, exists x, sub p tm (t ++ [c]) = x ++ [c].
Proof using Hg Hp Hs.
  intros t. remember (length t) as k eqn:Hk.
  revert t Hk; induction k as [k IH] using lt_wf_ind; intros t -> c.
  destruct (re_match p (t ++ [c])) as [[caps rest] |] eqn:E.
  - destruct (re_match_sound _ _ _ _ Hg E) as (M & HM & HL).
    pose proof (lang_nonempty _ _ _ Hp HL) as HMne.
    rewrite HM, (sub_match _ _ Hg Hp _ _ _ HL).
    destruct (Hs _ _ HL) as [_ HR]. unfold repl_shape in HR.
    apply andb_true_iff in HR as [_ HR]. apply repl_tail_inv in HR as (R0 & c' & HR & _).
    destruct (snoc_cases rest) as [-> | Hrest].
    + rewrite (sub_nil _ _ Hg Hp), app_nil_r. rewrite app_nil_r in HM.
      destruct (match_ends_call _ _ HL) as [M0 HM0].
      rewrite HM0 in HM. change ["("; ")"] with (["("] ++ [")"]) in HM.
      rewrite app_assoc in HM. apply app_inj_tail in HM as [_ ->].
      exists (R0 ++ [c']). rewrite HR, <- app_assoc. reflexivity.
    + assert (Hr : exists rest0, rest = rest0 ++ [c] /\ t = M ++ rest0).
      { destruct (nonempty_snoc rest) as (rest0 & d & ->).
        - destruct Hrest as [[d ->] | (l0 & x & y & ->)]; [discriminate |].
          destruct l0; discriminate.
        - rewrite app_assoc in HM. apply app_inj_tail in HM as [-> ->].
          exists rest0. auto. }
      destruct Hr as (rest0 & -> & ->).
      destruct (IH (length rest0)) with (t := rest0) (c := c) as [x Hx];
        [| reflexivity |].
      { rewrite length_app. destruct M; [congruence | simpl; lia]. }
      exists (expand tm caps ++ x). rewrite Hx, <- app_assoc. reflexivity.
  - destruct t as [| a t].
    + cbn [app] in E |- *. rewrite (sub_cons_nomatch _ _ _ _ E), (sub_nil _ _ Hg Hp).
      exists []. reflexivity.
    + cbn [app] in E |- *. rewrite (sub_cons_nomatch _ _ _ _ E).
      destruct (IH (length t)) with (t := t) (c := c) as [x Hx];
        [simpl; lia | reflexivity |].
      exists (a :: x). rewrite Hx. reflexivity.
Qed.

(** Whether the buffer ends with a parenthesis-free text is not changed by
    the scan. *)
Lemma sub_ends_with S t :
  forallb no_paren S = true -> ends_with S (sub p tm t) = ends_with S t.
Proof using Hg Hp Hs.
  intros HS. destruct (paren_decompose t) as (t0 & s & -> & Hs' & [-> | (t1 & c & -> & Hc)]).
  - cbn [app]. rewrite (sub_no_match _ _ Hg Hp s (no_paren_no_match s Hs')). reflexivity.
  - rewrite (sub_snoc_plain _ _ Hs'). destruct (sub_last_char t1 c) as [x ->].
    rewrite !(ends_with_after_paren S _ c s HS Hc). reflexivity.
Qed.

(** The scan of [A ++ Y] is the scan of [A] followed by the scan of [Y]
    when no match that starts in this [A] reaches into [Y]. *)
Lemma sub_app_from A Y :
  no_cross_from p A Y -> sub p tm (A ++ Y) = sub p tm A ++ sub p tm Y.
Proof using Hg Hp.
  intros HY.
  enough (H : forall k A2 A1, length A2 = k -> A = A1 ++ A2 ->
                sub p tm (A2 ++ Y) = sub p tm A2 ++ sub p tm Y)
    by (apply (H (length A) A []); reflexivity).
  induction k as [k IH] using lt_wf_ind; intros A2 A1 Hk HA.
  destruct A2 as [| a A2]; [rewrite (sub_nil _ _ Hg Hp); reflexivity |].
  destruct (re_match p (a :: A2)) as [[caps rest] |] eqn:E.
  - destruct (re_match_sound _ _ _ _ Hg E) as (M & HM & HL).
    pose proof (lang_nonempty _ _ _ Hp HL) as HMne.
    rewrite HM, <- app_assoc, !(sub_match _ _ Hg Hp _ _ _ HL), <- app_assoc.
    f_equal. apply (IH (length rest)) with (A1 := A1 ++ M); [| reflexivity |].
    + rewrite <- Hk, HM, length_app. destruct M; [congruence | simpl; lia].
    + rewrite HA, HM, <- app_assoc. reflexivity.
  - assert (E' : re_match p ((a :: A2) ++ Y) = None).
    { destruct (re_match p ((a :: A2) ++ Y)) as [[caps rest] |] eqn:E'; [| reflexivity].
      destruct (re_match_sound _ _ _ _ Hg E') as (M & HM & HL).
      assert (Hlen : length M <= length (a :: A2))
        by (apply (HY A1 (a :: A2) M caps rest); [exact HA | discriminate | exact HL | exact HM]).
      assert (HA2 : a :: A2 = M ++ drop (length M) (a :: A2)).
      { rewrite <- (take_drop (length M) (a :: A2)) at 1. f_equal.
        apply (f_equal (take (length M))) in HM.
        rewrite take_app_le, take_app_length in HM by assumption. exact HM. }
      rewrite HA2, (re_match_complete _ _ _ _ Hg HL) in E. discriminate. }
    cbn [app] in E' |- *.
    rewrite (sub_cons_nomatch _ _ _ _ E), (sub_cons_nomatch _ _ _ _ E').
    cbn [app]. f_equal. apply (IH (length A2)) with (A1 := A1 ++ [a]).
    + rewrite <- Hk. simpl. lia.
    + reflexivity.
    + rewrite HA, <- app_assoc. reflexivity.
Qed.

End Ends.

(* ===================================================================== *)
(** ** The unqualified call sites *)
(* ===================================================================== *)

Section CrossPrefix.

(** A pattern with prefix [P0.] against a call site with the other prefix
    [Q0.]. *)
Variables P0 Q0 : text.
Let P := P0 ++ ["."].
Let Q := Q0 ++ ["."].
Hypothesis HP : forallb no_paren P = true.
Hypothesis HQ : forallb no_paren Q = true.

Lemma prefix_cut A name n :
  forallb is_ident name = true -> forallb is_ident n = true ->
  A ++ Q ++ name = P ++ n -> A ++ Q0 = P0.
Proof using Type.
  intros Hname Hn E. unfold P, Q in E.
  rewrite <- !app_assoc in E. cbn [app] in E. rewrite app_assoc in E.
  apply last_dot_eq in E as [E _]; try (apply ident_not_dot; assumption).
  exact E.
Qed.

Lemma one_group_no_cross_from pre name B :
  forallb is_ident name = true ->
  (forall A1 A2, pre = A1 ++ A2 -> A2 ++ Q0 <> P0) ->
  no_cross_from (map Chr P ++ [Plus ident_class] ++ lit ".into()") pre
                ((Q ++ name ++ txt ".into()") ++ B).
Proof using HP HQ.
  intros Hname Hpre A1 A2 M caps rest HA HA2 HL E.
  apply lang_one_group in HL as (n & Hnne & Hn & -> & ->).
  destruct (one_group_word P HP n Hn Hnne) as (HM & HW & _).
  assert (HO : (Q ++ name ++ txt ".into()") ++ B
               = (Q ++ name ++ txt ".into") ++ "(" :: ")" :: B)
    by (rewrite <- !app_assoc; reflexivity).
  assert (HU : forallb no_paren (Q ++ name ++ txt ".into") = true)
    by (rewrite !forallb_app, HQ, (ident_no_paren _ Hname); reflexivity).
  rewrite HO in E.
  apply app_eq_app in E as [l [[-> _] | [Hl Er]]]; [rewrite !length_app; lia |].
  destruct l as [| x l]; [rewrite Hl, app_nil_r; reflexivity |].
  exfalso. rewrite HM in Hl. symmetry in Hl. symmetry in Er.
  destruct (cross_call _ _ _ _ _ _ Hl ltac:(discriminate) HW HU Er) as [HAU _].
  rewrite !app_assoc in HAU. apply app_inv_tail in HAU.
  rewrite <- !app_assoc in HAU.
  exact (Hpre A1 A2 HA (prefix_cut A2 name n Hname Hn HAU)).
Qed.

Lemma one_group_no_inner_shorter name :
  forallb is_ident name = true -> length Q0 < length P0 ->
  no_inner (map Chr P ++ [Plus ident_class] ++ lit ".into()")
           (Q ++ name ++ txt ".into()").
Proof using HP HQ.
  intros Hname Hlen X1 X2 B M caps rest HX HX2 HL E.
  apply lang_one_group in HL as (n & Hnne & Hn & -> & ->).
  destruct (one_group_word P HP n Hn Hnne) as (HM & HW & HWlen).
  assert (HO : Q ++ name ++ txt ".into()" = (Q ++ name ++ txt ".into") ++ ["("; ")"])
    by (rewrite <- !app_assoc; reflexivity).
  assert (HU : forallb no_paren (Q ++ name ++ txt ".into") = true)
    by (rewrite !forallb_app, HQ, (ident_no_paren _ Hname); reflexivity).
  rewrite HM, <- app_assoc in E. cbn [app] in E.
  rewrite HO in HX. symmetry in HX.
  apply app_eq_app in HX as [l [[_ HT] | [HUl ->]]].
  - destruct l as [| a l]; [| destruct l as [| b l]].
    + cbn [app] in HT. subst X2. cbn [app] in E.
      apply (first_paren_eq [] "(" _ _ "(" _) in E as (HWnil & _); auto.
      rewrite <- HWnil in HWlen. simpl in HWlen. lia.
    + cbn [app] in HT. injection HT as _ HT. subst X2. cbn [app] in E.
      apply (first_paren_eq [] ")" _ _ "(" _) in E as (_ & Hc & _); auto.
      discriminate.
    + cbn [app] in HT. injection HT as _ _ HT.
      symmetry in HT. apply app_eq_nil in HT as [_ HT]. contradiction.
  - rewrite HUl, forallb_app in HU. apply andb_true_iff in HU as [_ Hl].
    rewrite <- app_assoc in E. cbn [app] in E.
    apply first_paren_eq in E as (-> & _ & _); auto.
    rewrite !app_assoc in HUl. apply app_inv_tail in HUl.
    rewrite <- !app_assoc in HUl.
    change (Q ++ name = X1 ++ P ++ n) in HUl. symmetry in HUl.
    unfold P, Q in HUl.
    rewrite <- !app_assoc in HUl. cbn [app] in HUl. rewrite app_assoc in HUl.
    apply last_dot_eq in HUl as [HUl _]; try (apply ident_not_dot; assumption).
    apply (f_equal (@length ascii)) in HUl. rewrite length_app in HUl. lia.
Qed.

Lemma two_group_no_cross_from pre name num B :
  forallb is_ident name = true -> num <> [] -> forallb is_num num = true ->
  (forall A1 A2, pre = A1 ++ A2 -> A2 ++ Q0 <> P0) ->
  no_cross_from (map Chr P ++ [Plus ident_class] ++ lit ".scale_alpha("
                   ++ [Plus num_class] ++ lit ").into()") pre
                ((Q ++ name ++ txt ".scale_alpha(" ++ num ++ txt ").into()") ++ B).
Proof using HP HQ.
  intros Hname Hne Hnum Hpre A1 A2 M caps rest HA HA2 HL E.
  apply lang_two_groups in HL as (n & N & Hnne & Hn & HNne & HN & -> & ->).
  destruct (alpha_occ_word Q HQ name num B Hname) as (HO & _ & HU & HUlen).
  destruct (alpha_occ_word P HP n N [] Hn) as (_ & HM & HW & _).
  rewrite HO in E.
  apply app_eq_app in E as [l [[-> _] | [Hl Er]]]; [rewrite !length_app; lia |].
  destruct l as [| x l]; [rewrite Hl, app_nil_r; reflexivity |].
  exfalso. rewrite HM in Hl. symmetry in Hl. symmetry in Er.
  apply app_eq_app in Hl as [l1 [[_ HT] | [HWl Hl]]].
  - symmetry in HT.
    exact (tail_no_start _ _ _ _ _ _ HN HT ltac:(discriminate) HU HUlen Er).
  - rewrite HWl, forallb_app in HW. apply andb_true_iff in HW as [_ Hl1].
    rewrite Hl, <- app_assoc in Er. cbn [app] in Er.
    apply first_paren_eq in Er as (-> & _ & _); auto.
    rewrite !app_assoc in HWl. apply app_inv_tail in HWl.
    rewrite <- !app_assoc in HWl. symmetry in HWl.
    exact (Hpre A1 A2 HA (prefix_cut A2 name n Hname Hn HWl)).
Qed.

Lemma two_group_no_inner_shorter name num :
  forallb is_ident name = true -> num <> [] -> forallb is_num num = true ->
  length Q0 < length P0 ->
  no_inner (map Chr P ++ [Plus ident_class] ++ lit ".scale_alpha("
              ++ [Plus num_class] ++ lit ").into()")
           (Q ++ name ++ txt ".scale_alpha(" ++ num ++ txt ").into()").
Proof using HP HQ.
  intros Hname Hne Hnum Hlen X1 X2 B M caps rest HX HX2 HL E.
  apply lang_two_groups in HL as (n & N & Hnne & Hn & HNne & HN & -> & ->).
  destruct (alpha_occ_word Q HQ name num B Hname) as (_ & HO & HU & _).
  destruct (alpha_occ_word P HP n N rest Hn) as (HM & _ & HW & HWlen).
  rewrite HM in E.
  rewrite HO in HX. symmetry in HX.
  apply app_eq_app in HX as [l [[_ HT] | [HUl ->]]].
  - symmetry in HT. exact (tail_no_start _ _ _ _ _ _ Hnum HT HX2 HW HWlen E).
  - rewrite HUl, forallb_app in HU. apply andb_true_iff in HU as [_ Hl].
    rewrite <- app_assoc in E. cbn [app] in E.
    apply first_paren_eq in E as (-> & _ & _); auto.
    rewrite !app_assoc in HUl. apply app_inv_tail in HUl.
    rewrite <- !app_assoc in HUl. symmetry in HUl.
    unfold P, Q in HUl.
    rewrite <- !app_assoc in HUl. cbn [app] in HUl. rewrite app_assoc in HUl.
    apply last_dot_eq in HUl as [HUl _]; try (apply ident_not_dot; assumption).
    apply (f_equal (@length ascii)) in HUl. rewrite length_app in HUl. lia.
Qed.

End CrossPrefix.

Lemma not_after_self pre :
  ends_with (txt "self.") pre = false ->
  forall A1 A2, pre = A1 ++ A2 -> A2 ++ txt "theme.scheme" <> txt "self.theme.scheme".
Proof.
  intros H A1 A2 HA E.
  change (txt "self.theme.scheme") with (txt "self." ++ txt "theme.scheme") in E.
  apply app_inv_tail in E. subst A2. exact (ends_with_false _ _ H A1 HA).
Qed.

Lemma run_rules_nil t : run_rules [] t = t.
Proof. reflexivity. Qed.

Lemma rule_engine_second t :
  rule_engine t
  = run_rules ([(re3, tm3); (re4, tm4)] ++ rules5) (sub re2 tm2 (sub re1 tm1 t)).
Proof. rewrite rule_engine_first. cbn [app]. apply run_rules_cons. Qed.

Lemma rules_after_second_ok :
  Forall rule_ok ([(re3, tm3); (re4, tm4)] ++ rules5).
Proof.
  pose proof rules_after_first_ok as Hok. cbn [app] in Hok.
  apply Forall_cons in Hok as [_ Hok]. exact Hok.
Qed.

(** The rule sequence on a buffer that contains a rule 2 call site which
    [self.] does not precede. *)
Lemma rule_engine_rule2 pre name post :
  name <> [] -> forallb is_ident name = true ->
  ends_with (txt "self.") pre = false ->
  rule_engine (pre ++ txt "theme.scheme." ++ name ++ txt ".into()" ++ post)
  = rule_engine pre ++ txt "iced::Color::from(theme.scheme." ++ name ++ txt ")"
      ++ rule_engine post.
Proof.
  intros Hne Hn Hpre.
  set (occ := txt "theme.scheme." ++ name ++ txt ".into()").
  set (R := txt "iced::Color::from(theme.scheme." ++ name ++ txt ")").
  assert (HL : lang re2 occ [name]) by (apply lang_re2; exists name; auto).
  assert (Hc : forall B, no_cross re2 (occ ++ B))
    by (intros B; exact (one_group_no_cross_same (txt "theme.scheme") no_paren_bare name B Hn)).
  assert (Hf : forall B, no_cross_from re1 pre (occ ++ B))
    by (intros B; exact (one_group_no_cross_from (txt "self.theme.scheme") (txt "theme.scheme")
                           no_paren_self no_paren_bare pre name B Hn (not_after_self pre Hpre))).
  assert (Hi : no_inner re1 occ)
    by (exact (one_group_no_inner_shorter (txt "self.theme.scheme") (txt "theme.scheme")
                 no_paren_self no_paren_bare name Hn ltac:(simpl; lia))).
  destruct rule1_ok as (Hg1 & Hp1 & _). cbn [fst snd] in Hg1, Hp1.
  destruct rule2_ok as (Hg & Hp & Hs). cbn [fst snd] in Hg, Hp, Hs.
  destruct (Hs _ _ HL) as [_ HR]. rewrite expand_tm2 in HR. fold R in HR.
  replace (pre ++ txt "theme.scheme." ++ name ++ txt ".into()" ++ post)
    with (pre ++ occ ++ post) by (unfold occ; rewrite <- !app_assoc; reflexivity).
  replace (rule_engine pre ++ txt "iced::Color::from(theme.scheme." ++ name
             ++ txt ")" ++ rule_engine post)
    with (rule_engine pre ++ R ++ rule_engine post)
    by (unfold R; rewrite <- !app_assoc; reflexivity).
  rewrite !rule_engine_second.
  rewrite (sub_app_from _ _ Hg1 Hp1 _ _ (Hf post)), (sub_inert_block _ _ Hg1 _ _ Hi).
  rewrite (sub_occurrence _ _ Hg Hp _ _ _ _ (Hc _) HL), expand_tm2. fold R.
  apply run_rules_inert, repl_inert_all; [exact rules_after_second_ok | exact HR].
Qed.

Lemma run_rules12 t :
  run_rules [(re1, tm1); (re2, tm2)] t = sub re2 tm2 (sub re1 tm1 t).
Proof. rewrite !run_rules_cons. apply run_rules_nil. Qed.

(** Rules 1 and 2 do not change whether the buffer ends with [self.]. *)
Lemma rules12_ends_with_self t :
  ends_with (txt "self.") (run_rules [(re1, tm1); (re2, tm2)] t)
  = ends_with (txt "self.") t.
Proof.
  destruct rule1_ok as (Hg1 & Hp1 & Hs1). cbn [fst snd] in Hg1, Hp1, Hs1.
  destruct rule2_ok as (Hg2 & Hp2 & Hs2). cbn [fst snd] in Hg2, Hp2, Hs2.
  rewrite run_rules12.
  rewrite (sub_ends_with _ _ Hg2 Hp2 Hs2) by reflexivity.
  apply (sub_ends_with _ _ Hg1 Hp1 Hs1). reflexivity.
Qed.

(** The rule sequence on a buffer that contains a rule 4 call site which
    [self.] does not precede. *)
Lemma rule_engine_rule4 pre name num post :
  name <> [] -> forallb is_ident name = true ->
  num <> [] -> forallb is_num num = true ->
  ends_with (txt "self.") pre = false ->
  rule_engine (pre ++ txt "theme.scheme." ++ name ++ txt ".scale_alpha("
                 ++ num ++ txt ").into()" ++ post)
  = rule_engine pre ++ txt "iced::Color::from(theme.scheme." ++ name
      ++ txt ".scale_alpha(" ++ num ++ txt "))" ++ rule_engine post.
Proof.
  intros Hne Hn HNe HN Hpre.
  set (occ := txt "theme.scheme." ++ name ++ txt ".scale_alpha(" ++ num ++ txt ").into()").
  set (R := txt "iced::Color::from(theme.scheme." ++ name ++ txt ".scale_alpha("
              ++ num ++ txt "))").
  assert (HL : lang re4 occ [name; num]) by (apply lang_re4; exists name, num; auto 10).
  assert (Hc : forall B, no_cross re4 (occ ++ B))
    by (intros B; exact (two_group_no_cross_same (txt "theme.scheme") no_paren_bare
                           name num B Hn HNe HN)).
  pose proof (rules12_ends_with_self pre) as Hpre12. rewrite Hpre in Hpre12.
  assert (Hf : forall B,
             no_cross_from re3 (run_rules [(re1, tm1); (re2, tm2)] pre) (occ ++ B))
    by (intros B; exact (two_group_no_cross_from (txt "self.theme.scheme") (txt "theme.scheme")
                           no_paren_self no_paren_bare _ name num B Hn HNe HN
                           (not_after_self _ Hpre12))).
  assert (Hi : no_inner re3 occ)
    by (exact (two_group_no_inner_shorter (txt "self.theme.scheme") (txt "theme.scheme")
                 no_paren_self no_paren_bare name num Hn HNe HN ltac:(simpl; lia))).
  destruct rule3_ok as (Hg3 & Hp3 & _). cbn [fst snd] in Hg3, Hp3.
  destruct rule4_ok as (Hg & Hp & Hs). cbn [fst snd] in Hg, Hp, Hs.
  destruct (Hs _ _ HL) as [_ HR]. rewrite expand_tm4 in HR. fold R in HR.
  replace (pre ++ txt "theme.scheme." ++ name ++ txt ".scale_alpha("
             ++ num ++ txt ").into()" ++ post)
    with (pre ++ occ ++ post) by (unfold occ; rewrite <- !app_assoc; reflexivity).
  replace (rule_engine pre ++ txt "iced::Color::from(theme.scheme." ++ name
             ++ txt ".scale_alpha(" ++ num ++ txt "))" ++ rule_engine post)
    with (rule_engine pre ++ R ++ rule_engine post)
    by (unfold R; rewrite <- !app_assoc; reflexivity).
  rewrite !rule_engine_unfold.
  unfold occ at 1.
  rewrite (rules12_alpha _ pre name num post no_paren_bare Hne Hn HNe HN). fold occ.
  rewrite (sub_app_from _ _ Hg3 Hp3 _ _ (Hf _)), (sub_inert_block _ _ Hg3 _ _ Hi).
  rewrite !run_rules_cons.
  rewrite (sub_occurrence _ _ Hg Hp _ _ _ _ (Hc _) HL), expand_tm4. fold R.
  apply run_rules_inert, repl_inert_all; [exact rules5_ok | exact HR].
Qed.

(** Rule 2 (source lines 23-26): in any buffer, an occurrence of
    [theme.scheme.<name>.into()] that [self.] does not precede is replaced by
    [iced::Color::from(theme.scheme.<name>)] with the name kept; the text
    before and after it comes out as the rule sequence leaves it on its
    own. *)
Theorem rule2_occurrence_rewritten (pre name post : text) :
  name <> [] -> forallb is_ident name = true ->
  ends_with (txt "self.") pre = false ->
  exists pre' post',
    fix_content pre = Some pre' /\ fix_content post = Some post' /\
    fix_content (pre ++ txt "theme.scheme." ++ name ++ txt ".into()" ++ post)
    = Some (pre' ++ txt "iced::Color::from(theme.scheme." ++ name ++ txt ")" ++ post').
Proof.
  intros Hne Hn Hpre. exists (rule_engine pre), (rule_engine post).
  rewrite !fix_content_eq, (rule_engine_rule2 pre name post Hne Hn Hpre).
  repeat split; reflexivity.
Qed.

Lemma rule2_occurrence_rewritten_witness :
  fix_content (txt "let c = theme.scheme.background.into();")
  = Some (txt "let c = iced::Color::from(theme.scheme.background);").
Proof.
  destruct (rule2_occurrence_rewritten (txt "let c = ") (txt "background") (txt ";"))
    as (pre' & post' & Hpre & Hpost & H); [discriminate | reflexivity | reflexivity |].
  vm_compute in Hpre, Hpost.
  injection Hpre as <-. injection Hpost as <-.
  exact H.
Defined.

(** Rule 4 (source lines 33-36): in any buffer, an occurrence of
    [theme.scheme.<name>.scale_alpha(<num>).into()] that [self.] does not
    precede is replaced by
    [iced::Color::from(theme.scheme.<name>.scale_alpha(<num>))] with both
    groups kept; rules 1 to 3 leave it alone. *)
Theorem rule4_occurrence_rewritten (pre name num post : text) :
  name <> [] -> forallb is_ident name = true ->
  num <> [] -> forallb is_num num = true ->
  ends_with (txt "self.") pre = false ->
  exists pre' post',
    fix_content pre = Some pre' /\ fix_content post = Some post' /\
    fix_content (pre ++ txt "theme.scheme." ++ name ++ txt ".scale_alpha("
                   ++ num ++ txt ").into()" ++ post)
    = Some (pre' ++ txt "iced::Color::from(theme.scheme." ++ name
              ++ txt ".scale_alpha(" ++ num ++ txt "))" ++ post').
Proof.
  intros Hne Hn HNe HN Hpre. exists (rule_engine pre), (rule_engine post).
  rewrite !fix_content_eq, (rule_engine_rule4 pre name num post Hne Hn HNe HN Hpre).
  repeat split; reflexivity.
Qed.

Lemma rule4_occurrence_rewritten_witness :
  fix_content (txt "let c = theme.scheme.primary.scale_alpha(0.5).into();")
  = Some (txt "let c = iced::Color::from(theme.scheme.primary.scale_alpha(0.5));").
Proof.
  destruct (rule4_occurrence_rewritten (txt "let c = ") (txt "primary") (txt "0.5") (txt ";"))
    as (pre' & post' & Hpre & Hpost & H);
    [discriminate | reflexivity | discriminate | reflexivity | reflexivity |].
  vm_compute in Hpre, Hpost.
  injection Hpre as <-. injection Hpost as <-.
  exact H.
Defined.

(* ===================================================================== *)
(** ** The call sites of the colour variables *)
(* ===================================================================== *)

(** A match [W()] that starts before the call [U()] and reaches into it
    ends where the call ends. *)
Lemma call_cross_eq A U B W rest :
  forallb no_paren U = true -> forallb no_paren W = true ->
  A ++ (U ++ ["("; ")"]) ++ B = (W ++ ["("; ")"]) ++ rest ->
  length A < length (W ++ ["("; ")"]) -> A ++ U = W.
Proof.
  intros HU HW E Hlen.
  rewrite <- (app_assoc U) in E. cbn [app] in E.
  apply app_eq_app in E as [l [[-> _] | [Hl Er]]]; [rewrite !length_app in Hlen; lia |].
  destruct l as [| x l]; [rewrite Hl, app_nil_r in Hlen; lia |].
  symmetry in Hl. symmetry in Er.
  destruct (cross_call _ _ _ _ _ _ Hl ltac:(discriminate) HW HU Er) as [HAU _].
  exact HAU.
Qed.

(** A match [W()] that starts inside the call [U()] starts with the end of
    [U]. *)
Lemma call_inner_eq U W X1 X2 B rest :
  forallb no_paren U = true -> forallb no_paren W = true -> W <> [] ->
  U ++ ["("; ")"] = X1 ++ X2 -> X2 <> [] ->
  X2 ++ B = (W ++ ["("; ")"]) ++ rest -> U = X1 ++ W.
Proof.
  intros HU HW HWne HX HX2 E.
  rewrite <- app_assoc in E. cbn [app] in E. symmetry in HX.
  apply app_eq_app in HX as [l [[_ HT] | [HUl ->]]].
  - exfalso. destruct l as [| a l]; [| destruct l as [| b l]].
    + cbn [app] in HT. subst X2. cbn [app] in E.
      apply (first_paren_eq [] "(" _ _ "(" _) in E as (HWnil & _); auto.
    + cbn [app] in HT. injection HT as _ HT. subst X2. cbn [app] in E.
      apply (first_paren_eq [] ")" _ _ "(" _) in E as (_ & Hc & _); auto.
      discriminate.
    + cbn [app] in HT. injection HT as _ _ HT.
      symmetry in HT. apply app_eq_nil in HT as [_ HT]. contradiction.
  - rewrite HUl, forallb_app in HU. apply andb_true_iff in HU as [_ Hl].
    rewrite <- app_assoc in E. cbn [app] in E.
    apply first_paren_eq in E as (-> & _ & _); auto.
Qed.

Section Bare.

(** The call site [v.into()] of a variable [v]. *)
Variable v : text.
Hypothesis Hv : forallb is_ident v = true.
Hypothesis Hvne : v <> [].

Let occ := v ++ txt ".into()".

Lemma bare_word :
  occ = (v ++ txt ".into") ++ ["("; ")"] /\
  forallb no_paren (v ++ txt ".into") = true /\
  5 < length (v ++ txt ".into").
Proof using Hv Hvne.
  unfold occ. split; [| split].
  - rewrite <- app_assoc; reflexivity.
  - rewrite forallb_app, (ident_no_paren _ Hv); reflexivity.
  - rewrite length_app. destruct v; [congruence | simpl; lia].
Qed.

(** Rules 1 and 2 reach the variable only as the end of the name of a
    theme colour. *)
Lemma one_group_no_cross_from_bare P0 pre B :
  forallb no_paren (P0 ++ ["."]) = true ->
  (forall A1 A2 b, pre = A1 ++ A2 -> forallb is_ident b = true ->
                   A2 <> (P0 ++ ["."]) ++ b) ->
  no_cross_from (map Chr (P0 ++ ["."]) ++ [Plus ident_class] ++ lit ".into()") pre
                (occ ++ B).
Proof using Hv Hvne.
  intros HP Hpre A1 A2 M caps rest HA HA2 HL E.
  apply lang_one_group in HL as (n & Hnne & Hn & -> & ->).
  destruct (one_group_word _ HP n Hn Hnne) as (HM & HW & _).
  destruct bare_word as (HO & HU & _).
  destruct (Nat.le_gt_cases (length ((P0 ++ ["."]) ++ n ++ txt ".into()")) (length A2))
    as [Hle | Hgt]; [exact Hle | exfalso].
  rewrite HM in E, Hgt. rewrite HO in E.
  pose proof (call_cross_eq _ _ _ _ _ HU HW E Hgt) as HAU.
  rewrite !app_assoc in HAU. apply app_inv_tail in HAU.
  apply app_eq_app in HAU as [l [[HA2l Hnl] | [HPl Hvl]]].
  - apply (Hpre A1 A2 l HA); [| exact HA2l].
    rewrite Hnl, forallb_app in Hn. apply andb_true_iff in Hn as [Hl _]. exact Hl.
  - destruct (snoc_cases l) as [-> | Hl].
    + rewrite app_nil_r in HPl. apply (Hpre A1 A2 [] HA); [reflexivity |].
      rewrite app_nil_r. symmetry. exact HPl.
    + assert (Hdot : exists l0, l = l0 ++ ["."]).
      { destruct (nonempty_snoc l) as (l0 & c & ->).
        - destruct Hl as [[d ->] | (l1 & x & y & ->)]; [discriminate |].
          destruct l1; discriminate.
        - rewrite app_assoc in HPl. apply app_inj_tail in HPl as [_ <-].
          exists l0; reflexivity. }
      destruct Hdot as [l0 ->]. pose proof (ident_not_dot _ Hv) as Hd.
      rewrite Hvl, !forallb_app in Hd. cbn in Hd.
      rewrite andb_false_r in Hd. discriminate.
Qed.

Lemma one_group_no_inner_bare P0 :
  forallb no_paren (P0 ++ ["."]) = true ->
  no_inner (map Chr (P0 ++ ["."]) ++ [Plus ident_class] ++ lit ".into()") occ.
Proof using Hv Hvne.
  intros HP X1 X2 B M caps rest HX HX2 HL E.
  apply lang_one_group in HL as (n & Hnne & Hn & -> & ->).
  destruct (one_group_word _ HP n Hn Hnne) as (HM & HW & HWlen).
  destruct bare_word as (HO & HU & _).
  rewrite HM in E. rewrite HO in HX.
  assert (HWne : (P0 ++ ["."]) ++ n ++ txt ".into" <> [])
    by (intros H0; rewrite H0 in HWlen; simpl in HWlen; lia).
  pose proof (call_inner_eq _ _ _ _ _ _ HU HW HWne HX HX2 E) as HUW.
  rewrite !app_assoc in HUW. apply app_inv_tail in HUW.
  pose proof (ident_not_dot _ Hv) as Hd.
  rewrite HUW, !forallb_app in Hd. cbn in Hd.
  rewrite !andb_false_r in Hd. cbn in Hd. rewrite ?andb_false_r in Hd. discriminate.
Qed.

(** Rules 3 and 4 never overlap the call site. *)
Lemma two_group_inert_bare P :
  forallb no_paren P = true ->
  inert (map Chr P ++ [Plus ident_class] ++ lit ".scale_alpha("
           ++ [Plus num_class] ++ lit ").into()") occ.
Proof using Hv Hvne.
  intros HP. destruct bare_word as (HO & HU & HUlen). split.
  - intros B A M caps rest HA HL E.
    apply lang_two_groups in HL as (n & N & Hnne & Hn & HNne & HN & -> & ->).
    destruct (alpha_occ_word P HP n N [] Hn) as (_ & HM & HW & _).
    rewrite HO, <- app_assoc in E. cbn [app] in E.
    apply app_eq_app in E as [l [[-> _] | [Hl Er]]]; [rewrite !length_app; lia |].
    destruct l as [| x l]; [rewrite Hl, app_nil_r; reflexivity |].
    exfalso. rewrite HM in Hl. symmetry in Hl. symmetry in Er.
    apply app_eq_app in Hl as [l1 [[_ HT] | [HWl Hl]]].
    + symmetry in HT.
      exact (tail_no_start _ _ _ _ _ _ HN HT ltac:(discriminate) HU HUlen Er).
    + rewrite HWl, forallb_app in HW. apply andb_true_iff in HW as [_ Hl1].
      rewrite Hl, <- app_assoc in Er. cbn [app] in Er.
      apply first_paren_eq in Er as (_ & _ & Hv'); auto.
      rewrite <- app_assoc in Hv'.
      exact (num_head_not_close _ _ _ HNne HN Hv').
  - intros X1 X2 B M caps rest HX HX2 HL E.
    apply lang_two_groups in HL as (n & N & Hnne & Hn & HNne & HN & -> & ->).
    destruct (alpha_occ_word P HP n N rest Hn) as (HM & _ & HW & HWlen).
    rewrite HM in E. rewrite HO in HX. symmetry in HX.
    apply app_eq_app in HX as [l [[_ HT] | [HUl ->]]].
    + destruct l as [| a l]; [| destruct l as [| b l]].
      * cbn [app] in HT. subst X2. cbn [app] in E.
        apply (first_paren_eq [] "(" _ _ "(" _) in E as (HWnil & _); auto.
        rewrite <- HWnil in HWlen. simpl in HWlen. lia.
      * cbn [app] in HT. injection HT as _ HT. subst X2. cbn [app] in E.
        apply (first_paren_eq [] ")" _ _ "(" _) in E as (_ & Hc & _); auto.
        discriminate.
      * cbn [app] in HT. injection HT as _ _ HT.
        symmetry in HT. apply app_eq_nil in HT as [_ HT]. contradiction.
    + rewrite HUl, forallb_app in HU. apply andb_true_iff in HU as [_ Hl].
      rewrite <- app_assoc in E. cbn [app] in E.
      apply first_paren_eq in E as (_ & _ & Hv'); auto.
      symmetry in Hv'. exact (num_head_not_close _ _ _ HNne HN Hv').
Qed.

(** The literal pattern of another variable [v']. *)
Lemma lit_no_cross_bare v' B :
  forallb is_ident v' = true ->
  (forall X, X <> [] -> v' <> X ++ v) ->
  no_cross (map Chr (v' ++ txt ".into()")) (occ ++ B).
Proof using Hv Hvne.
  intros Hv' Hsuf A M caps rest HA HL E.
  apply lang_lit_only in HL as [-> ->].
  destruct bare_word as (HO & HU & _).
  assert (HM : v' ++ txt ".into()" = (v' ++ txt ".into") ++ ["("; ")"])
    by (rewrite <- app_assoc; reflexivity).
  assert (HW : forallb no_paren (v' ++ txt ".into") = true)
    by (rewrite forallb_app, (ident_no_paren _ Hv'); reflexivity).
  destruct (Nat.le_gt_cases (length (v' ++ txt ".into()")) (length A))
    as [Hle | Hgt]; [exact Hle | exfalso].
  rewrite HM in E, Hgt. rewrite HO in E.
  pose proof (call_cross_eq _ _ _ _ _ HU HW E Hgt) as HAU.
  rewrite app_assoc in HAU. apply app_inv_tail in HAU.
  exact (Hsuf A HA (eq_sym HAU)).
Qed.

Lemma lit_no_inner_bare v' :
  forallb is_ident v' = true -> (forall X, v <> X ++ v') ->
  no_inner (map Chr (v' ++ txt ".into()")) occ.
Proof using Hv Hvne.
  intros Hv' Hsuf X1 X2 B M caps rest HX HX2 HL E.
  apply lang_lit_only in HL as [-> ->].
  destruct bare_word as (HO & HU & _).
  assert (HM : v' ++ txt ".into()" = (v' ++ txt ".into") ++ ["("; ")"])
    by (rewrite <- app_assoc; reflexivity).
  assert (HW : forallb no_paren (v' ++ txt ".into") = true)
    by (rewrite forallb_app, (ident_no_paren _ Hv'); reflexivity).
  assert (HWne : v' ++ txt ".into" <> []) by (destruct v'; discriminate).
  rewrite HM in E. rewrite HO in HX.
  pose proof (call_inner_eq _ _ _ _ _ _ HU HW HWne HX HX2 E) as HUW.
  rewrite app_assoc in HUW. apply app_inv_tail in HUW.
  exact (Hsuf X1 HUW).
Qed.

End Bare.

Lemma scheme_qualified_iff pre :
  scheme_qualified pre = true <->
  exists x b, forallb is_ident b = true /\ pre = x ++ txt "theme.scheme." ++ b.
Proof.
  unfold scheme_qualified. split.
  - intros H. apply ends_with_spec in H as [x Hx].
    exists x, (rev (fst (span is_ident (rev pre)))). split.
    + rewrite forallb_rev. apply span_forallb.
    + rewrite app_assoc, <- Hx, <- rev_app_distr, span_app. symmetry. apply rev_involutive.
  - intros (x & b & Hb & ->). rewrite !rev_app_distr, <- app_assoc.
    change (rev (txt "theme.scheme.")) with ("." :: rev (txt "theme.scheme")).
    cbn [app]. rewrite span_stop by (rewrite ?forallb_rev; auto). cbn [snd].
    apply ends_with_spec. exists x.
    change ("." :: rev (txt "theme.scheme") ++ rev x)
      with (rev (txt "theme.scheme.") ++ rev x).
    rewrite rev_app_distr, !rev_involutive. reflexivity.
Qed.

Lemma not_scheme_qualified pre b :
  scheme_qualified pre = false -> forallb is_ident b = true ->
  ends_with (txt "theme.scheme." ++ b) pre = false.
Proof.
  intros Hq Hb. destruct (ends_with (txt "theme.scheme." ++ b) pre) eqn:E; [| reflexivity].
  apply ends_with_spec in E as [x Hx].
  assert (scheme_qualified pre = true)
    by (apply scheme_qualified_iff; exists x, b; auto).
  congruence.
Qed.

Lemma txt_inj (a b : string) : txt a = txt b -> a = b.
Proof.
  intros H. apply (f_equal string_of_list_ascii) in H.
  unfold txt in H. rewrite !string_of_list_ascii_of_string in H. exact H.
Qed.

Lemma color_vars_ident var :
  In var color_vars -> forallb is_ident (txt var) = true /\ txt var <> [].
Proof.
  intros Hin.
  assert (H : forallb (fun s => forallb is_ident (txt s) && negb (Nat.eqb (length (txt s)) 0))
                color_vars = true) by (vm_compute; reflexivity).
  rewrite forallb_forall in H. specialize (H var Hin).
  apply andb_true_iff in H as [H1 H2]. split; [exact H1 |].
  intros E. rewrite E in H2. discriminate.
Qed.

(** No colour variable is the end of another one. *)
Lemma color_vars_suffix v v' X :
  In v color_vars -> In v' color_vars -> txt v' = X ++ txt v -> v' = v.
Proof.
  intros Hv Hv' E.
  assert (H : forallb (fun a => forallb (fun b =>
                implb (ends_with (txt a) (txt b)) (String.eqb a b)) color_vars)
                color_vars = true) by (vm_compute; reflexivity).
  rewrite forallb_forall in H. specialize (H v Hv).
  rewrite forallb_forall in H. specialize (H v' Hv').
  assert (Hend : ends_with (txt v) (txt v') = true)
    by (apply ends_with_spec; exists X; exact E).
  rewrite Hend in H. cbn [implb] in H. apply String.eqb_eq in H. congruence.
Qed.

Lemma color_vars_nodup : List.NoDup color_vars.
Proof.
  unfold color_vars.
  repeat (apply List.NoDup_cons; [cbn [In]; intros H; repeat destruct H as [H | H];
                                    try discriminate H; exact H |]).
  apply List.NoDup_nil.
Qed.

(** The literal pattern of one colour variable against the call site of
    another one. *)
Lemma other_var_inert var var' :
  In var color_vars -> In var' color_vars -> var' <> var ->
  inert (re5 var') (txt var ++ txt ".into()").
Proof.
  intros Hin Hin' Hneq.
  destruct (color_vars_ident _ Hin) as [Hv Hvne].
  destruct (color_vars_ident _ Hin') as [Hv' _].
  unfold re5, lit. rewrite txt_app. split.
  - intros B. apply lit_no_cross_bare; try assumption.
    intros X _ E. exact (Hneq (color_vars_suffix _ _ _ Hin Hin' E)).
  - apply lit_no_inner_bare; try assumption.
    intros X E. apply Hneq. symmetry. exact (color_vars_suffix _ _ _ Hin' Hin E).
Qed.

Lemma own_var_no_cross var B :
  In var color_vars -> no_cross (re5 var) ((txt var ++ txt ".into()") ++ B).
Proof.
  intros Hin. destruct (color_vars_ident _ Hin) as [Hv Hvne].
  unfold re5, lit. rewrite txt_app. apply lit_no_cross_bare; try assumption.
  intros X HX E. apply (f_equal (@length ascii)) in E. rewrite length_app in E.
  destruct X; [congruence | simpl in E; lia].
Qed.

(** The passes of the rule sequence around the pass of one colour
    variable. *)
Lemma rule_engine_split vs1 var vs2 t :
  color_vars = vs1 ++ var :: vs2 ->
  rule_engine t
  = run_rules (map (fun s => (re5 s, tm5 s)) vs2)
      (sub (re5 var) (tm5 var)
         (run_rules ([(re3, tm3); (re4, tm4)] ++ map (fun s => (re5 s, tm5 s)) vs1)
            (sub re2 tm2 (sub re1 tm1 t)))).
Proof.
  intros Hsplit. rewrite rule_engine_second. unfold rules5. rewrite Hsplit.
  rewrite map_app. cbn [map]. rewrite app_assoc, run_rules_app, run_rules_cons.
  reflexivity.
Qed.

(** The rule sequence on a buffer that contains the call site of a colour
    variable which is not the end of a theme colour access. *)
Lemma rule_engine_rule5 var pre post :
  In var color_vars -> scheme_qualified pre = false ->
  rule_engine (pre ++ txt var ++ txt ".into()" ++ post)
  = rule_engine pre ++ txt "iced::Color::from(" ++ txt var ++ txt ")"
      ++ rule_engine post.
Proof.
  intros Hin Hq.
  destruct (color_vars_ident _ Hin) as [Hv Hvne].
  set (occ := txt var ++ txt ".into()").
  set (R := txt "iced::Color::from(" ++ txt var ++ txt ")").
  destruct (in_split _ _ Hin) as (vs1 & vs2 & Hsplit).
  pose proof color_vars_nodup as Hnd. rewrite Hsplit in Hnd.
  apply List.NoDup_remove_2 in Hnd.
  assert (Hsub : forall s, In s (vs1 ++ vs2) -> In s color_vars).
  { intros s Hs. rewrite Hsplit. apply in_app_or in Hs as [Hs | Hs];
      apply in_or_app; [left | right; right]; exact Hs. }
  pose proof rules5_ok as Hok5. unfold rules5 in Hok5.
  rewrite Hsplit, map_app in Hok5. cbn [map] in Hok5.
  apply Forall_app in Hok5 as [Hok1 Hok2].
  apply Forall_cons in Hok2 as [Hokv Hok2].
  destruct rule1_ok as (Hg1 & Hp1 & Hs1). cbn [fst snd] in Hg1, Hp1, Hs1.
  destruct rule2_ok as (Hg2 & Hp2 & _). cbn [fst snd] in Hg2, Hp2.
  destruct Hokv as (Hg & Hp & Hs). cbn [fst snd] in Hg, Hp, Hs.
  assert (HL : lang (re5 var) occ []).
  { apply lang_re5. split; [| reflexivity]. unfold occ. symmetry. apply txt_app. }
  destruct (Hs _ _ HL) as [_ HR].
  destruct (re5_wraps _ _ _ HL) as [_ HE]. rewrite HE in HR. fold R in HR, HE.
  (* passes 1 and 2 *)
  assert (Hend : forall t, (forall b, forallb is_ident b = true ->
                              ends_with (txt "theme.scheme." ++ b) t = false) ->
                 forall Q0, (exists q, Q0 ++ ["."] = q ++ txt "theme.scheme.") ->
                 forall A1 A2 b, t = A1 ++ A2 -> forallb is_ident b = true ->
                                 A2 <> (Q0 ++ ["."]) ++ b).
  { intros t Ht Q0 [q HQ0] A1 A2 b HA Hb E.
    apply (ends_with_false _ _ (Ht b Hb) (A1 ++ q)).
    rewrite HA, E, HQ0, <- !app_assoc. reflexivity. }
  assert (Hq0 : forall b, forallb is_ident b = true ->
                          ends_with (txt "theme.scheme." ++ b) pre = false)
    by (intros b Hb; apply not_scheme_qualified; assumption).
  assert (Hq1 : forall b, forallb is_ident b = true ->
                          ends_with (txt "theme.scheme." ++ b) (sub re1 tm1 pre) = false).
  { intros b Hb. rewrite (sub_ends_with _ _ Hg1 Hp1 Hs1); [exact (Hq0 b Hb) |].
    rewrite forallb_app, (ident_no_paren _ Hb). reflexivity. }
  assert (Hf1 : forall B, no_cross_from re1 pre (occ ++ B)).
  { intros B. apply (one_group_no_cross_from_bare (txt var) Hv Hvne (txt "self.theme.scheme"));
      [reflexivity |].
    apply (Hend pre Hq0). exists (txt "self."). reflexivity. }
  assert (Hf2 : forall B, no_cross_from re2 (sub re1 tm1 pre) (occ ++ B)).
  { intros B. apply (one_group_no_cross_from_bare (txt var) Hv Hvne (txt "theme.scheme"));
      [reflexivity |].
    apply (Hend _ Hq1). exists []. reflexivity. }
  assert (Hi1 : no_inner re1 occ)
    by exact (one_group_no_inner_bare (txt var) Hv Hvne (txt "self.theme.scheme") eq_refl).
  assert (Hi2 : no_inner re2 occ)
    by exact (one_group_no_inner_bare (txt var) Hv Hvne (txt "theme.scheme") eq_refl).
  (* passes 3, 4 and those of the variables before [var] *)
  assert (Hmid : Forall (fun r => guarded (fst r) = true /\ proper (fst r) = true /\
                                  inert (fst r) occ)
                   ([(re3, tm3); (re4, tm4)] ++ map (fun s => (re5 s, tm5 s)) vs1)).
  { cbn [app]. apply Forall_cons_2; [| apply Forall_cons_2].
    - split; [reflexivity | split; [reflexivity |]].
      exact (two_group_inert_bare (txt var) Hv Hvne (txt "self.theme.scheme.") eq_refl).
    - split; [reflexivity | split; [reflexivity |]].
      exact (two_group_inert_bare (txt var) Hv Hvne (txt "theme.scheme.") eq_refl).
    - rewrite List.Forall_forall. intros r Hr.
      apply in_map_iff in Hr as (s & <- & Hs1'). cbn [fst].
      rewrite List.Forall_forall in Hok1.
      destruct (Hok1 (re5 s, tm5 s)) as (Hgs & Hps & _);
        [apply in_map_iff; exists s; auto |].
      cbn [fst] in Hgs, Hps. split; [exact Hgs | split; [exact Hps |]].
      apply other_var_inert; [exact Hin | apply Hsub, in_or_app; left; exact Hs1' |].
      intros ->. apply Hnd, in_or_app. left. exact Hs1'. }
  replace (pre ++ txt var ++ txt ".into()" ++ post)
    with (pre ++ occ ++ post) by (unfold occ; rewrite <- !app_assoc; reflexivity).
  replace (rule_engine pre ++ txt "iced::Color::from(" ++ txt var ++ txt ")"
             ++ rule_engine post)
    with (rule_engine pre ++ R ++ rule_engine post)
    by (unfold R; rewrite <- !app_assoc; reflexivity).
  rewrite !(rule_engine_split vs1 var vs2 _ Hsplit).
  rewrite (sub_app_from _ _ Hg1 Hp1 _ _ (Hf1 _)), (sub_inert_block _ _ Hg1 _ _ Hi1).
  rewrite (sub_app_from _ _ Hg2 Hp2 _ _ (Hf2 _)), (sub_inert_block _ _ Hg2 _ _ Hi2).
  rewrite (run_rules_inert _ _ Hmid).
  rewrite (sub_occurrence _ _ Hg Hp _ _ _ _ (own_var_no_cross var _ Hin) HL), HE.
  apply run_rules_inert, repl_inert_all; [exact Hok2 | exact HR].
Qed.

(** Rule 5 (source lines 38-44): for each of the five colour variables, an
    occurrence of [<var>.into()] is replaced by [iced::Color::from(<var>)]
    in any buffer, whatever characters stand before [<var>], as long as the
    text before it is not [theme.scheme.] followed by the start of a name
    (then the occurrence is the end of a rule 1 or rule 2 call site). *)
Theorem rule5_occurrence_rewritten (var : string) (pre post : text) :
  In var color_vars -> scheme_qualified pre = false ->
  exists pre' post',
    fix_content pre = Some pre' /\ fix_content post = Some post' /\
    fix_content (pre ++ txt var ++ txt ".into()" ++ post)
    = Some (pre' ++ txt "iced::Color::from(" ++ txt var ++ txt ")" ++ post').
Proof.
  intros Hin Hq. exists (rule_engine pre), (rule_engine post).
  rewrite !fix_content_eq, (rule_engine_rule5 var pre post Hin Hq).
  repeat split; reflexivity.
Qed.

Lemma rule5_occurrence_rewritten_witness :
  fix_content (txt "let c = border_color.into();")
  = Some (txt "let c = iced::Color::from(border_color);").
Proof.
  destruct (rule5_occurrence_rewritten "border_color" (txt "let c = ") (txt ";"))
    as (pre' & post' & Hpre & Hpost & H);
    [vm_compute; auto | vm_compute; reflexivity |].
  vm_compute in Hpre, Hpost.
  injection Hpre as <-. injection Hpost as <-.
  exact H.
Defined.
